(** * The async-flow simulation engine

    A shallow embedding of the simulation core (class [Simulation]) and of
    the types it works on ([Request], [Replica], [SimulationConfig],
    [Metrics], [SimulationState]), followed by the properties of the engine.
    Of the renderer the embedding has the walk over the requests that
    counts the finished ones and the placement of the replica sprites; of
    the narrator, the choice of the request it narrates, the fields
    [update] writes and the queue position it shows; the texts of the
    narrator are parameters.

    Conventions of the embedding.
    - JavaScript numbers that carry time, positions and opacity are exact
      rationals ([Q]); counts and replica bounds are integers ([Z]); array
      lengths and identity counters are naturals.
    - Objects held in [state.requests] and [state.replicas] are mutated in
      place by the engine.  A reference to such an object is its index in
      the array, and a mutation is an update of the array at that index.
    - A request id [req-N] is represented by the counter value [N].
    - The fields [y], [targetY] and [scale] of a request are written by the
      engine and read only by the renderer: they are left out.  The fields
      [x], [targetX] and [alpha] drive state transitions and are kept.
    - [Math.sin] is a parameter of the development. *)

From Stdlib Require Import QArith Qminmax Qabs Qround Lqa.
From Stdlib Require Strings.String.
From stdpp Require Import base list sorting.

Local Open Scope Q_scope.
Set Warnings "-clear-no-such-hyp".

(** ** Numbers *)

Definition Qltb (a b : Q) : bool := negb (Qle_bool b a).
Definition Qleb (a b : Q) : bool := Qle_bool a b.
Definition QofNat (n : nat) : Q := inject_Z (Z.of_nat n).

(** A number as it is stored in a field: the fraction in lowest terms. *)
Definition num (q : Q) : Q := Qred q.

(** [a || 0] on an optional number. *)
Definition orZero (a : option Q) : Q := default 0 a.

(** Truthiness of an optional number: defined and not zero. *)
Definition truthy (a : option Q) : bool :=
  match a with
  | Some q => negb (Qeq_bool q 0)
  | None => false
  end.

(** ** types.ts *)

Inductive RequestState :=
  | entering | validating | queued | waiting_for_model | processing
  | delivering | completed | failed | expired | rate_limited | exiting.

(** The declared type has four states; [reconcileReplicas] and
    [updateReplica] also use a fifth, [stopping], for a replica that is
    draining before it stops. *)
Inductive ReplicaState := stopped | starting | ready | busy | stopping.

#[global] Instance RequestState_eq_dec : EqDecision RequestState.
Proof. solve_decision. Defined.

#[global] Instance ReplicaState_eq_dec : EqDecision ReplicaState.
Proof. solve_decision. Defined.

Record Request := mkRequest {
  req_id : nat;
  req_state : RequestState;
  priority : Z;
  createdAt : Q;
  queuedAt : option Q;
  processorPickedAt : option Q;
  processStartedAt : option Q;
  completedAt : option Q;
  assignedReplica : option nat;
  x : Q;
  targetX : Q;
  alpha : Q
}.

Record Replica := mkReplica {
  rep_id : nat;
  rep_state : ReplicaState;
  startingAt : option Q;
  stoppingAt : option Q;
  currentRequestIds : list nat
}.

Record SimulationConfig := mkConfig {
  modelProcessingTimeMs : Q;
  coldStartTimeMs : Q;
  predictConcurrency : Z;
  minReplicas : Z;
  maxReplicas : Z;
  concurrencyTarget : Z;
  scaleDownDelayMs : Q;
  autoscalingWindowMs : Q;
  maxQueueSize : Z;
  maxTimeInQueueMs : Q;
  webhookTimeMs : Q
}.

Record Metrics := mkMetrics {
  m_queued : nat;
  m_processing : nat;
  m_completed : nat;
  m_failed : nat;
  m_expired : nat;
  m_replicas : nat;
  m_readyReplicas : nat
}.

(** [SimulationState] together with the private fields of [Simulation]. *)
Record Simulation := mkSimulation {
  state_tick : Q;
  requests : list Request;
  replicas : list Replica;
  metrics : Metrics;
  config : SimulationConfig;
  targetReplicas : Z;
  speed : Q;
  paused : bool;
  nextId : nat;
  nextReplicaId : nat;
  lastActivityTick : Q;
  roundRobinIndex : nat
}.

(** [Partial<SimulationConfig>] *)
Record PartialConfig := mkPartial {
  p_modelProcessingTimeMs : option Q;
  p_coldStartTimeMs : option Q;
  p_predictConcurrency : option Z;
  p_minReplicas : option Z;
  p_maxReplicas : option Z;
  p_concurrencyTarget : option Z;
  p_scaleDownDelayMs : option Q;
  p_autoscalingWindowMs : option Q;
  p_maxQueueSize : option Z;
  p_maxTimeInQueueMs : option Q;
  p_webhookTimeMs : option Q
}.

(** ** Field updates *)

Definition with_req_state (v : RequestState) (r : Request) : Request :=
  mkRequest (req_id r) v (priority r) (createdAt r) (queuedAt r)
    (processorPickedAt r) (processStartedAt r) (completedAt r)
    (assignedReplica r) (x r) (targetX r) (alpha r).

Definition with_queuedAt (v : option Q) (r : Request) : Request :=
  mkRequest (req_id r) (req_state r) (priority r) (createdAt r) v
    (processorPickedAt r) (processStartedAt r) (completedAt r)
    (assignedReplica r) (x r) (targetX r) (alpha r).

Definition with_processorPickedAt (v : option Q) (r : Request) : Request :=
  mkRequest (req_id r) (req_state r) (priority r) (createdAt r) (queuedAt r)
    v (processStartedAt r) (completedAt r)
    (assignedReplica r) (x r) (targetX r) (alpha r).

Definition with_processStartedAt (v : option Q) (r : Request) : Request :=
  mkRequest (req_id r) (req_state r) (priority r) (createdAt r) (queuedAt r)
    (processorPickedAt r) v (completedAt r)
    (assignedReplica r) (x r) (targetX r) (alpha r).

Definition with_completedAt (v : option Q) (r : Request) : Request :=
  mkRequest (req_id r) (req_state r) (priority r) (createdAt r) (queuedAt r)
    (processorPickedAt r) (processStartedAt r) v
    (assignedReplica r) (x r) (targetX r) (alpha r).

Definition with_assignedReplica (v : option nat) (r : Request) : Request :=
  mkRequest (req_id r) (req_state r) (priority r) (createdAt r) (queuedAt r)
    (processorPickedAt r) (processStartedAt r) (completedAt r)
    v (x r) (targetX r) (alpha r).

Definition with_x (v : Q) (r : Request) : Request :=
  mkRequest (req_id r) (req_state r) (priority r) (createdAt r) (queuedAt r)
    (processorPickedAt r) (processStartedAt r) (completedAt r)
    (assignedReplica r) v (targetX r) (alpha r).

Definition with_targetX (v : Q) (r : Request) : Request :=
  mkRequest (req_id r) (req_state r) (priority r) (createdAt r) (queuedAt r)
    (processorPickedAt r) (processStartedAt r) (completedAt r)
    (assignedReplica r) (x r) v (alpha r).

Definition with_alpha (v : Q) (r : Request) : Request :=
  mkRequest (req_id r) (req_state r) (priority r) (createdAt r) (queuedAt r)
    (processorPickedAt r) (processStartedAt r) (completedAt r)
    (assignedReplica r) (x r) (targetX r) v.

Definition with_rep_state (v : ReplicaState) (p : Replica) : Replica :=
  mkReplica (rep_id p) v (startingAt p) (stoppingAt p) (currentRequestIds p).

Definition with_startingAt (v : option Q) (p : Replica) : Replica :=
  mkReplica (rep_id p) (rep_state p) v (stoppingAt p) (currentRequestIds p).

Definition with_stoppingAt (v : option Q) (p : Replica) : Replica :=
  mkReplica (rep_id p) (rep_state p) (startingAt p) v (currentRequestIds p).

Definition with_currentRequestIds (v : list nat) (p : Replica) : Replica :=
  mkReplica (rep_id p) (rep_state p) (startingAt p) (stoppingAt p) v.

Definition set_tick (v : Q) (s : Simulation) : Simulation :=
  mkSimulation v (requests s) (replicas s) (metrics s) (config s)
    (targetReplicas s) (speed s) (paused s) (nextId s) (nextReplicaId s)
    (lastActivityTick s) (roundRobinIndex s).

Definition set_requests (v : list Request) (s : Simulation) : Simulation :=
  mkSimulation (state_tick s) v (replicas s) (metrics s) (config s)
    (targetReplicas s) (speed s) (paused s) (nextId s) (nextReplicaId s)
    (lastActivityTick s) (roundRobinIndex s).

Definition set_replicas (v : list Replica) (s : Simulation) : Simulation :=
  mkSimulation (state_tick s) (requests s) v (metrics s) (config s)
    (targetReplicas s) (speed s) (paused s) (nextId s) (nextReplicaId s)
    (lastActivityTick s) (roundRobinIndex s).

Definition set_metrics (v : Metrics) (s : Simulation) : Simulation :=
  mkSimulation (state_tick s) (requests s) (replicas s) v (config s)
    (targetReplicas s) (speed s) (paused s) (nextId s) (nextReplicaId s)
    (lastActivityTick s) (roundRobinIndex s).

Definition set_config (v : SimulationConfig) (s : Simulation) : Simulation :=
  mkSimulation (state_tick s) (requests s) (replicas s) (metrics s) v
    (targetReplicas s) (speed s) (paused s) (nextId s) (nextReplicaId s)
    (lastActivityTick s) (roundRobinIndex s).

Definition set_targetReplicas (v : Z) (s : Simulation) : Simulation :=
  mkSimulation (state_tick s) (requests s) (replicas s) (metrics s) (config s)
    v (speed s) (paused s) (nextId s) (nextReplicaId s)
    (lastActivityTick s) (roundRobinIndex s).

Definition set_speed (v : Q) (s : Simulation) : Simulation :=
  mkSimulation (state_tick s) (requests s) (replicas s) (metrics s) (config s)
    (targetReplicas s) v (paused s) (nextId s) (nextReplicaId s)
    (lastActivityTick s) (roundRobinIndex s).

Definition set_paused (v : bool) (s : Simulation) : Simulation :=
  mkSimulation (state_tick s) (requests s) (replicas s) (metrics s) (config s)
    (targetReplicas s) (speed s) v (nextId s) (nextReplicaId s)
    (lastActivityTick s) (roundRobinIndex s).

Definition set_nextId (v : nat) (s : Simulation) : Simulation :=
  mkSimulation (state_tick s) (requests s) (replicas s) (metrics s) (config s)
    (targetReplicas s) (speed s) (paused s) v (nextReplicaId s)
    (lastActivityTick s) (roundRobinIndex s).

Definition set_nextReplicaId (v : nat) (s : Simulation) : Simulation :=
  mkSimulation (state_tick s) (requests s) (replicas s) (metrics s) (config s)
    (targetReplicas s) (speed s) (paused s) (nextId s) v
    (lastActivityTick s) (roundRobinIndex s).

Definition set_lastActivityTick (v : Q) (s : Simulation) : Simulation :=
  mkSimulation (state_tick s) (requests s) (replicas s) (metrics s) (config s)
    (targetReplicas s) (speed s) (paused s) (nextId s) (nextReplicaId s)
    v (roundRobinIndex s).

Definition set_roundRobinIndex (v : nat) (s : Simulation) : Simulation :=
  mkSimulation (state_tick s) (requests s) (replicas s) (metrics s) (config s)
    (targetReplicas s) (speed s) (paused s) (nextId s) (nextReplicaId s)
    (lastActivityTick s) v.

(** In-place mutation of the object at index [i] of [state.requests], and
    of the object at index [j] of [state.replicas]. *)
Definition upd_req (i : nat) (f : Request → Request) (s : Simulation) : Simulation :=
  set_requests (alter f i (requests s)) s.

Definition upd_rep (j : nat) (f : Replica → Replica) (s : Simulation) : Simulation :=
  set_replicas (alter f j (replicas s)) s.

(** ** Array.prototype.sort

    The sort of ECMAScript is stable; with a comparator that is a total
    preorder its result is the one of insertion sort. [cmp a b] is the
    number the comparator returns. *)

Fixpoint sortInsert {A} (cmp : A → A → Q) (a : A) (l : list A) : list A :=
  match l with
  | [] => [a]
  | b :: l' => if Qleb (cmp a b) 0 then a :: b :: l' else b :: sortInsert cmp a l'
  end.

Definition jsSort {A} (cmp : A → A → Q) (l : list A) : list A :=
  foldr (sortInsert cmp) [] l.

(** [array.find(p)] as the index of the first element satisfying [p]. *)
Definition findIndex {A} (p : A → bool) (l : list A) : option nat :=
  fst <$> list_find (λ a, p a = true) l.

(** The indices of the elements of an array satisfying [p], in array
    order: the references [array.filter(p)] holds. *)
Definition filterIdx {A} (p : A → bool) (l : list A) : list nat :=
  fst <$> filter (λ ia, p ia.2 = true) (imap pair l).

(** ** simulation.ts *)

Definition DEFAULT_CONFIG : SimulationConfig := {|
  modelProcessingTimeMs := 2000;
  coldStartTimeMs := 3000;
  predictConcurrency := 1;
  minReplicas := 0;
  maxReplicas := 10;
  concurrencyTarget := 1;
  scaleDownDelayMs := 15000;
  autoscalingWindowMs := 5000;
  maxQueueSize := 20;
  maxTimeInQueueMs := 10000;
  webhookTimeMs := 500
|}.

(** [{ ...base, ...partial }] and [Object.assign(base, partial)] *)
Definition mergeConfig (base : SimulationConfig) (p : PartialConfig) : SimulationConfig := {|
  modelProcessingTimeMs := default (modelProcessingTimeMs base) (p_modelProcessingTimeMs p);
  coldStartTimeMs := default (coldStartTimeMs base) (p_coldStartTimeMs p);
  predictConcurrency := default (predictConcurrency base) (p_predictConcurrency p);
  minReplicas := default (minReplicas base) (p_minReplicas p);
  maxReplicas := default (maxReplicas base) (p_maxReplicas p);
  concurrencyTarget := default (concurrencyTarget base) (p_concurrencyTarget p);
  scaleDownDelayMs := default (scaleDownDelayMs base) (p_scaleDownDelayMs p);
  autoscalingWindowMs := default (autoscalingWindowMs base) (p_autoscalingWindowMs p);
  maxQueueSize := default (maxQueueSize base) (p_maxQueueSize p);
  maxTimeInQueueMs := default (maxTimeInQueueMs base) (p_maxTimeInQueueMs p);
  webhookTimeMs := default (webhookTimeMs base) (p_webhookTimeMs p)
|}.

Definition emptyPartial : PartialConfig :=
  mkPartial None None None None None None None None None None None.

Module STAGE_X.
Definition enter : Q := -30.
Definition gateway : Q := 80.
Definition queue : Q := 180.
Definition queueEnd : Q := 320.
Definition model : Q := 420.
Definition modelEnd : Q := 600.
Definition webhook : Q := 720.
Definition exit : Q := 1050.
End STAGE_X.

Definition initialMetrics : Metrics := mkMetrics 0 0 0 0 0 0 0.

Definition isQueued (r : Request) : bool := bool_decide (req_state r = queued).

(** The comparator of the queue: priority first, then creation time. *)
Definition cmpRequest (a b : Request) : Q :=
  if bool_decide (priority a ≠ priority b)
  then inject_Z (priority a - priority b)
  else createdAt a - createdAt b.

Definition cmpReplica (a b : Replica) : Q :=
  inject_Z (Z.of_nat (rep_id a) - Z.of_nat (rep_id b)).

(** A comparator on objects, as a comparator on references into [l]. *)
Definition cmpAt {A} (cmp : A → A → Q) (l : list A) (i j : nat) : Q :=
  match l !! i, l !! j with
  | Some a, Some b => cmp a b
  | _, _ => 0
  end.

(** [state.requests.filter(queued).sort(...)] as a list of references. *)
Definition sortedQueue (rs : list Request) : list nat :=
  jsSort (cmpAt cmpRequest rs) (filterIdx isQueued rs).

(** [repositionQueue] *)
Definition repositionQueue (s : Simulation) : Simulation :=
  let queuedRefs := sortedQueue (requests s) in
  let queueWidth := STAGE_X.queueEnd - STAGE_X.queue in
  let spacing := Qmin 35 (queueWidth / QofNat (Nat.max (length queuedRefs) 1)) in
  set_requests
    (foldl (λ rs ki, alter (with_targetX (STAGE_X.queue + QofNat ki.1 * spacing)) ki.2 rs)
           (requests s) (imap pair queuedRefs))
    s.

(** [getReplicaX] *)
Definition getReplicaX : Q := STAGE_X.model + 70.

(** The state of a replica after a claim or a release. *)
Definition capacityState (concurrencyTarget : Z) (p : Replica) : Replica :=
  with_rep_state
    (if (concurrencyTarget <=? Z.of_nat (length (currentRequestIds p)))%Z then busy else ready) p.

Definition pushRequestId (id : nat) (p : Replica) : Replica :=
  with_currentRequestIds (currentRequestIds p ++ [id]) p.

Definition removeRequestId (id : nat) (p : Replica) : Replica :=
  with_currentRequestIds (filter (λ i, i ≠ id) (currentRequestIds p)) p.

Definition fadeOut (step : Q) (r : Request) : Request :=
  let r1 := with_alpha (num (Qmax 0 (alpha r - step))) r in
  if Qleb (alpha r1) 0.01 then with_req_state exiting r1 else r1.

(** [setTargetReplicas] *)
Definition setTargetReplicas (count : Z) (s : Simulation) : Simulation :=
  set_lastActivityTick (state_tick s)
    (set_targetReplicas (Z.max 0 (Z.min count (maxReplicas (config s)))) s).

Section Engine.

(** [Math.sin] *)
Variable Math_sin : Q → Q.

(** [updateRequest], on the request at index [i]. *)
Definition updateRequest (i : nat) (s0 : Simulation) : Simulation :=
  let s := upd_req i (λ r, with_x (num (x r + (targetX r - x r) * 0.12)) r) s0 in
  match requests s !! i with
  | None => s
  | Some r =>
    let now := state_tick s in
    match req_state r with
    | entering =>
        if Qltb (Qabs (x r - targetX r)) 2
        then upd_req i (with_req_state validating) s
        else s
    | validating =>
        let s1 := upd_req i (λ r, with_targetX STAGE_X.queue
                              (with_queuedAt (Some now) (with_req_state queued r))) s in
        set_lastActivityTick now (repositionQueue s1)
    | queued =>
        let timeInQueue := now - orZero (queuedAt r) in
        if Qltb (maxTimeInQueueMs (config s)) timeInQueue
        then upd_req i (λ r, with_targetX STAGE_X.exit (with_req_state expired r)) s
        else s
    | waiting_for_model =>
        let assigned :=
          findIndex (λ p, bool_decide (Some (rep_id p) = assignedReplica r)) (replicas s) in
        let isReady :=
          match assigned with
          | Some j => bool_decide (rep_state <$> replicas s !! j = Some ready)
          | None => false
          end in
        let s1 :=
          match assigned with
          | Some j =>
              if isReady then
                let s' := upd_req i (λ r, with_processStartedAt (Some now)
                                       (with_req_state processing r)) s in
                let s' := upd_rep j (λ p, capacityState (concurrencyTarget (config s))
                                       (pushRequestId (req_id r) p)) s' in
                upd_req i (with_targetX getReplicaX) s'
              else s
          | None => s
          end in
        let coldStartWaitTime := now - orZero (processorPickedAt r) in
        if Qltb (maxTimeInQueueMs (config s)) coldStartWaitTime
        then
          let s2 := upd_req i (λ r, with_targetX STAGE_X.exit (with_req_state expired r)) s1 in
          match assigned with
          | Some j => upd_rep j (removeRequestId (req_id r)) s2
          | None => s2
          end
        else s1
    | processing =>
        let processingTime := now - orZero (processStartedAt r) in
        if Qltb (modelProcessingTimeMs (config s)) processingTime
        then
          let s1 :=
            match findIndex (λ p, bool_decide (req_id r ∈ currentRequestIds p)) (replicas s) with
            | Some j => upd_rep j (λ p, capacityState (concurrencyTarget (config s))
                                     (removeRequestId (req_id r) p)) s
            | None => s
            end in
          set_lastActivityTick now
            (upd_req i (λ r, with_targetX STAGE_X.webhook (with_req_state delivering r)) s1)
        else s
    | delivering =>
        if Qltb (Qabs (x r - targetX r)) 5
        then
          let deliveryTime :=
            now - orZero (processStartedAt r) - modelProcessingTimeMs (config s) in
          if Qltb (webhookTimeMs (config s)) deliveryTime
          then upd_req i (λ r, with_targetX STAGE_X.exit
                             (with_completedAt (Some now) (with_req_state completed r))) s
          else s
        else s
    | completed =>
        if Qltb (STAGE_X.webhook + 50) (x r)
        then upd_req i (fadeOut 0.02) s
        else s
    | failed =>
        let s1 := upd_req i (λ r, with_x (num (x r + Math_sin (now * 0.05) * 2)) r) s in
        if Qltb (STAGE_X.webhook + 30) (num (x r + Math_sin (now * 0.05) * 2))
        then upd_req i (fadeOut 0.015) s1
        else s1
    | expired => upd_req i (fadeOut 0.01) s
    | rate_limited => s
    | exiting => s
    end
  end.

(** [updateReplica]; it reads the tick and the configuration only. *)
Definition updateReplica (now : Q) (cfg : SimulationConfig) (p : Replica) : Replica :=
  let p1 :=
    if bool_decide (rep_state p = starting) && truthy (startingAt p)
    then
      if Qleb (coldStartTimeMs cfg) (now - orZero (startingAt p))
      then with_startingAt None (with_rep_state ready p)
      else p
    else p in
  if bool_decide (rep_state p1 = stopping) && truthy (stoppingAt p1)
  then
    if Qleb 1000 (now - orZero (stoppingAt p1))
    then with_stoppingAt None (with_rep_state stopped p1)
    else p1
  else p1.

(** The first loop of [reconcileReplicas]. The loop runs while
    [activeReplicas.length < targetReplicas] and every iteration that does
    not break adds one reference to [activeReplicas], so the recursion
    is on [targetReplicas - activeReplicas.length]. *)
Fixpoint scaleUpLoop (n : nat) (active : nat) (s : Simulation) : nat * Simulation :=
  match n with
  | O => (active, s)
  | S n' =>
      match findIndex (λ p, bool_decide (rep_state p = stopped)) (replicas s) with
      | Some j =>
          scaleUpLoop n' (S active)
            (upd_rep j (λ p, with_currentRequestIds []
                          (with_startingAt (Some (state_tick s))
                             (with_rep_state starting p))) s)
      | None =>
          if (Z.of_nat (length (replicas s)) <? maxReplicas (config s))%Z
          then
            let newReplica :=
              mkReplica (nextReplicaId s) starting (Some (state_tick s)) None [] in
            scaleUpLoop n' (S active)
              (set_nextReplicaId (S (nextReplicaId s))
                 (set_replicas (replicas s ++ [newReplica]) s))
          else (active, s)
      end
  end.

(** The second loop of [reconcileReplicas]; every iteration that does not
    break removes one reference from [activeReplicas]. *)
Fixpoint scaleDownLoop (n : nat) (active : nat) (s : Simulation) : nat * Simulation :=
  match n with
  | O => (active, s)
  | S n' =>
      match findIndex (λ p, bool_decide (rep_state p = ready)
                            && bool_decide (length (currentRequestIds p) = 0%nat))
                      (replicas s) with
      | Some j =>
          scaleDownLoop n' (Nat.pred active)
            (upd_rep j (λ p, with_currentRequestIds []
                          (with_startingAt None
                             (with_stoppingAt (Some (state_tick s))
                                (with_rep_state stopping p)))) s)
      | None => (active, s)
      end
  end.

(** [reconcileReplicas] *)
Definition reconcileReplicas (s : Simulation) : Simulation :=
  let active :=
    length (filter (λ p, rep_state p ≠ stopped) (replicas s)) in
  let '(active1, s1) :=
    scaleUpLoop (Z.to_nat (targetReplicas s - Z.of_nat active)) active s in
  snd (scaleDownLoop (Z.to_nat (Z.of_nat active1 - targetReplicas s1)) active1 s1).

Definition isWaiting (r : Request) : bool :=
  bool_decide (req_state r = queued) || bool_decide (req_state r = waiting_for_model).

Definition isInFlight (r : Request) : bool :=
  negb (bool_decide (req_state r = exiting)) && negb (bool_decide (req_state r = completed))
  && negb (bool_decide (req_state r = failed)) && negb (bool_decide (req_state r = rate_limited)).

Definition isActiveReplica (p : Replica) : bool :=
  bool_decide (rep_state p = ready) || bool_decide (rep_state p = busy).

Definition countIf {A} (p : A → bool) (l : list A) : nat :=
  length (filter (λ a, p a = true) l).

(** [Math.min(Math.ceil(load / concurrencyTarget), maxReplicas)]; [None]
    is NaN (0 / 0). *)
Definition scaleUpTarget (load concurrencyTarget maxReplicas : Z) : option Z :=
  if (concurrencyTarget =? 0)%Z
  then if (0 <? load)%Z then Some maxReplicas
       else if (load <? 0)%Z then None (* -Infinity is not reached: load >= 0 *)
       else None
  else Some (Z.min (- ((- load) / concurrencyTarget)) maxReplicas)%Z.

(** [handleAutoscaling] *)
Definition handleAutoscaling (s : Simulation) : Simulation :=
  let cfg := config s in
  let waitingCount := countIf isWaiting (requests s) in
  let processingCount := countIf (λ r, bool_decide (req_state r = processing)) (requests s) in
  let activeReplicas := countIf isActiveReplica (replicas s) in
  let startingReplicas := countIf (λ p, bool_decide (rep_state p = starting)) (replicas s) in
  let totalReplicas := (activeReplicas + startingReplicas)%nat in
  let load := Z.of_nat (waitingCount + processingCount) in
  let currentCapacity := (Z.of_nat totalReplicas * concurrencyTarget cfg)%Z in
  let s1 :=
    if (currentCapacity <? load)%Z && (Z.of_nat totalReplicas <? maxReplicas cfg)%Z
    then
      match scaleUpTarget load (concurrencyTarget cfg) (maxReplicas cfg) with
      | Some target =>
          if (targetReplicas s <? target)%Z then setTargetReplicas target s else s
      | None => s
      end
    else s in
  let s2 :=
    if (bool_decide (0 < waitingCount)%nat || bool_decide (0 < processingCount)%nat)
       && bool_decide (totalReplicas = 0%nat)
    then setTargetReplicas (Z.max 1 (minReplicas cfg)) s1
    else s1 in
  let idleTime := state_tick s2 - lastActivityTick s2 in
  let allIdle :=
    forallb (λ p, bool_decide (rep_state p = ready) || bool_decide (rep_state p = stopped))
            (replicas s2) in
  let noRequests := bool_decide (countIf isInFlight (requests s2) = 0%nat) in
  let s3 :=
    if allIdle && noRequests && Qltb (scaleDownDelayMs cfg) idleTime
    then
      if (minReplicas cfg <? targetReplicas s2)%Z
      then setTargetReplicas (minReplicas cfg) s2
      else s2
    else s2 in
  reconcileReplicas s3.

(** [assignToStartingReplicas]; [refs] holds references into
    [state.requests]. The body of the loop, for the [k]-th reference [i]: *)
Definition assignToStartingStep (total : nat) (startingRefs : list nat)
    (s : Simulation) (ki : nat * nat) : Simulation :=
  let '(k, i) := ki in
  match startingRefs !! (k `mod` length startingRefs)%nat with
  | None => s
  | Some j =>
      match replicas s !! j with
      | None => s
      | Some replica =>
          let waitingForThisReplica :=
            countIf (λ r, bool_decide (assignedReplica r = Some (rep_id replica))
                          && bool_decide (req_state r = waiting_for_model))
                    (requests s) in
          if (waitingForThisReplica <?
                (total + length startingRefs - 1) `div` length startingRefs + 1)%nat
          then
            repositionQueue
              (upd_req i (λ r,
                 with_targetX (STAGE_X.model - 20 - QofNat waitingForThisReplica * 25)
                   (with_assignedReplica (Some (rep_id replica))
                      (with_processorPickedAt (Some (state_tick s))
                         (with_req_state waiting_for_model r)))) s)
          else s
      end
  end.

Definition assignToStartingReplicas (refs : list nat) (s : Simulation) : Simulation :=
  if bool_decide (length refs = 0%nat) then s
  else
    let startingRefs :=
      jsSort (cmpAt cmpReplica (replicas s))
        (filterIdx (λ p, bool_decide (rep_state p = starting)) (replicas s)) in
    if bool_decide (length startingRefs = 0%nat) then s
    else foldl (assignToStartingStep (length refs) startingRefs) s (imap pair refs).

(** The inner loop of [tryAssignToReplicas]: the first offset [i] from
    the round-robin position whose replica has spare capacity. *)
Definition hasCapacity (s : Simulation) (j : nat) : bool :=
  match replicas s !! j with
  | Some p => (Z.of_nat (length (currentRequestIds p)) <? concurrencyTarget (config s))%Z
  | None => false
  end.

Definition findSlot (activeRefs : list nat) (s : Simulation) : option nat :=
  let n := length activeRefs in
  (λ i, ((roundRobinIndex s + i) `mod` n)%nat) <$>
    findIndex (λ i, match activeRefs !! ((roundRobinIndex s + i) `mod` n)%nat with
                    | Some j => hasCapacity s j
                    | None => false
                    end)
              (seq 0 n).

(** The assignment of request [i] to the replica at position
    [replicaIndex] of [activeReplicas]. *)
Definition assignTo (activeRefs : list nat) (i replicaIndex : nat) (s : Simulation) : Simulation :=
  match activeRefs !! replicaIndex with
  | None => s
  | Some j =>
      match replicas s !! j, requests s !! i with
      | Some replica, Some request =>
          let s1 := upd_req i (λ r,
                      with_assignedReplica (Some (rep_id replica))
                        (with_processorPickedAt (Some (state_tick s))
                           (with_processStartedAt (Some (state_tick s))
                              (with_req_state processing r)))) s in
          let s2 := upd_rep j (λ p, capacityState (concurrencyTarget (config s))
                                   (pushRequestId (req_id request) p)) s1 in
          let s3 := upd_req i (with_targetX getReplicaX) s2 in
          repositionQueue
            (set_roundRobinIndex ((replicaIndex + 1) `mod` length activeRefs)%nat s3)
      | _, _ => s
      end
  end.

(** The outer loop, over the sorted queue; it stops at the first request
    that finds no replica. *)
Fixpoint assignLoop (activeRefs : list nat) (waiting : list nat) (s : Simulation) : Simulation :=
  match waiting with
  | [] => s
  | i :: rest =>
      match findSlot activeRefs s with
      | Some replicaIndex => assignLoop activeRefs rest (assignTo activeRefs i replicaIndex s)
      | None => s
      end
  end.

(** [tryAssignToReplicas] *)
Definition tryAssignToReplicas (s : Simulation) : Simulation :=
  let waiting := sortedQueue (requests s) in
  let activeRefs :=
    jsSort (cmpAt cmpReplica (replicas s)) (filterIdx isActiveReplica (replicas s)) in
  if bool_decide (length activeRefs = 0%nat)
  then assignToStartingReplicas waiting s
  else
    let s1 := assignLoop activeRefs waiting s in
    let stillWaiting := filterIdx isQueued (requests s1) in
    assignToStartingReplicas stillWaiting s1.

(** [updateMetrics] *)
Definition updateMetrics (s : Simulation) : Simulation :=
  let m := metrics s in
  set_metrics
    {| m_queued := countIf isWaiting (requests s);
       m_processing := countIf (λ r, bool_decide (req_state r = processing)) (requests s);
       m_completed := m_completed m;
       m_failed := m_failed m;
       m_expired := m_expired m;
       m_replicas := countIf (λ p, negb (bool_decide (rep_state p = stopped))) (replicas s);
       m_readyReplicas := countIf (λ p, bool_decide (rep_state p = ready)) (replicas s) |}
    s.

Definition updateRequests (s : Simulation) : Simulation :=
  foldl (λ s i, updateRequest i s) s (seq 0 (length (requests s))).

Definition updateReplicas (s : Simulation) : Simulation :=
  set_replicas (updateReplica (state_tick s) (config s) <$> replicas s) s.

Definition removeExited (s : Simulation) : Simulation :=
  set_requests
    (filter (λ r, negb (bool_decide (req_state r = exiting)) || Qltb 0.01 (alpha r) = true)
            (requests s))
    s.

(** [tick] *)
Definition tick (deltaMs : Q) (s : Simulation) : Simulation :=
  if paused s then s
  else
    let adjustedDelta := deltaMs * speed s in
    let s1 := set_tick (num (state_tick s + adjustedDelta)) s in
    let s2 := updateRequests s1 in
    let s3 := updateReplicas s2 in
    let s4 := removeExited s3 in
    let s5 := handleAutoscaling s4 in
    let s6 := tryAssignToReplicas s5 in
    updateMetrics s6.

(** *** Public API *)

(** [addRequest]; the id it returns is [nextId s]. *)
Definition addRequest (prio : Z) (s : Simulation) : Simulation :=
  let request :=
    mkRequest (nextId s) entering prio (state_tick s) None None None None None
      STAGE_X.enter STAGE_X.gateway 1 in
  set_lastActivityTick (state_tick s)
    (set_requests (requests s ++ [request]) (set_nextId (S (nextId s)) s)).

Definition setSpeed (v : Q) (s : Simulation) : Simulation :=
  set_speed (Qmax 0.1 (Qmin 10 v)) s.

Definition setPaused (b : bool) (s : Simulation) : Simulation := set_paused b s.

Definition togglePause (s : Simulation) : Simulation := set_paused (negb (paused s)) s.

Definition reset (s : Simulation) : Simulation :=
  let s1 :=
    mkSimulation 0 [] [] initialMetrics (config s) (minReplicas (config s))
      (speed s) (paused s) 0 0 0 0 in
  if (0 <? minReplicas (config s))%Z
  then setTargetReplicas (minReplicas (config s)) s1
  else s1.

Definition setConfig (p : PartialConfig) (s : Simulation) : Simulation :=
  set_config (mergeConfig (config s) p) s.

Definition recordCompleted (s : Simulation) : Simulation :=
  let m := metrics s in
  set_metrics (mkMetrics (m_queued m) (m_processing m) (S (m_completed m)) (m_failed m)
                 (m_expired m) (m_replicas m) (m_readyReplicas m)) s.

Definition recordFailed (s : Simulation) : Simulation :=
  let m := metrics s in
  set_metrics (mkMetrics (m_queued m) (m_processing m) (m_completed m) (S (m_failed m))
                 (m_expired m) (m_replicas m) (m_readyReplicas m)) s.

Definition recordExpired (s : Simulation) : Simulation :=
  let m := metrics s in
  set_metrics (mkMetrics (m_queued m) (m_processing m) (m_completed m) (m_failed m)
                 (S (m_expired m)) (m_replicas m) (m_readyReplicas m)) s.

(** The constructor, from the merged configuration. *)
Definition newSimulation (mergedConfig : SimulationConfig) : Simulation :=
  let s :=
    mkSimulation 0 [] [] initialMetrics mergedConfig (minReplicas mergedConfig)
      1 false 0 0 0 0 in
  if (0 <? minReplicas mergedConfig)%Z
  then setTargetReplicas (minReplicas mergedConfig) s
  else s.

(** *** Runs of the engine

    The public operations that change the engine; [addBurst] schedules
    calls of [addRequest] on a timer, which arrive as [AddRequest]
    operations between the others. *)
Inductive Op :=
  | AddRequest (prio : Z)
  | Tick (deltaMs : Q)
  | SetTargetReplicas (count : Z)
  | SetSpeed (v : Q)
  | SetPaused (b : bool)
  | TogglePause
  | Reset
  | SetConfig (p : PartialConfig)
  | RecordCompleted
  | RecordFailed
  | RecordExpired.

Definition apply (o : Op) (s : Simulation) : Simulation :=
  match o with
  | AddRequest prio => addRequest prio s
  | Tick deltaMs => tick deltaMs s
  | SetTargetReplicas count => setTargetReplicas count s
  | SetSpeed v => setSpeed v s
  | SetPaused b => setPaused b s
  | TogglePause => togglePause s
  | Reset => reset s
  | SetConfig p => setConfig p s
  | RecordCompleted => recordCompleted s
  | RecordFailed => recordFailed s
  | RecordExpired => recordExpired s
  end.

Definition run (ops : list Op) (s : Simulation) : Simulation :=
  foldl (λ s o, apply o s) s ops.

Definition isSetConfig (o : Op) : bool :=
  match o with SetConfig _ => true | _ => false end.

End Engine.

(** *** Layout of the replicas *)

Definition MODEL_ZONE_TOP : Q := 50.
Definition MODEL_ZONE_BOTTOM : Q := 400.
Definition CENTER_Y : Q := 225.
Definition MAX_REPLICA_SPACING : Q := 45.
Definition MIN_REPLICA_SPACING : Q := 25.

(** The number [findIndex] and [indexOf] return: the index, or -1. *)
Definition indexOrMinus1 (o : option nat) : Z :=
  match o with
  | Some k => Z.of_nat k
  | None => (-1)%Z
  end.

(** [state.replicas.filter(r => r.state !== 'stopped')] *)
Definition notStopped (ps : list Replica) : list Replica :=
  filter (λ r, rep_state r ≠ stopped) ps.

(** [getReplicaY] *)
Definition getReplicaY (s : Simulation) (replica : Replica) : Q :=
  let activeReplicas := jsSort cmpReplica (notStopped (replicas s)) in
  let index :=
    indexOrMinus1 (findIndex (λ r, bool_decide (rep_id r = rep_id replica)) activeReplicas) in
  let count := length activeReplicas in
  let availableHeight := MODEL_ZONE_BOTTOM - MODEL_ZONE_TOP - 80 in
  let spacing :=
    if bool_decide (1 < count)%nat
    then Qmin MAX_REPLICA_SPACING
           (Qmax MIN_REPLICA_SPACING (availableHeight / (QofNat count - 1)))
    else 0 in
  let totalHeight := (QofNat count - 1) * spacing in
  CENTER_Y - totalHeight / 2 + inject_Z index * spacing.

(** [getReplicaSpacing] *)
Definition getReplicaSpacing (s : Simulation) : Q :=
  let activeReplicas := notStopped (replicas s) in
  let count := length activeReplicas in
  if bool_decide (count ≤ 1)%nat then MAX_REPLICA_SPACING
  else
    let availableHeight := MODEL_ZONE_BOTTOM - MODEL_ZONE_TOP - 80 in
    Qmin MAX_REPLICA_SPACING
      (Qmax MIN_REPLICA_SPACING (availableHeight / (QofNat count - 1))).

(** [getCenterY] *)
Definition getCenterY : Q := CENTER_Y.

(** ** renderer.ts *)

(** [renderReplicas]: the replicas that get a sprite, each with the [y]
    the renderer moves its sprite to. *)
Definition renderReplicas (s : Simulation) : list (Replica * Q) :=
  let activeReplicas := notStopped (replicas s) in
  let spacing := getReplicaSpacing s in
  let centerY := getCenterY in
  let sortedReplicas := jsSort cmpReplica activeReplicas in
  imap (λ index replica,
          let totalHeight := (QofNat (length sortedReplicas) - 1) * spacing in
          (replica, centerY - totalHeight / 2 + QofNat index * spacing))
       sortedReplicas.

(** The identities the renderer has counted: the sets [prevCompletedIds],
    [prevFailedIds] and [prevExpiredIds], which are only tested with
    [has] and extended with [add]. *)
Record Renderer := mkRenderer {
  prevCompletedIds : list nat;
  prevFailedIds : list nat;
  prevExpiredIds : list nat;
}.

Section Frames.

Variable Math_sin : Q → Q.

(** The body of the loop of [render] over [state.requests], as far as it
    counts: the engine is told once of every finished request. *)
Definition countRequest (st : Renderer * Simulation) (request : Request) :
    Renderer * Simulation :=
  let v := st.1 in
  let s := st.2 in
  if bool_decide (req_state request = completed)
     && negb (bool_decide (req_id request ∈ prevCompletedIds v))
  then (mkRenderer (req_id request :: prevCompletedIds v) (prevFailedIds v)
          (prevExpiredIds v),
        recordCompleted s)
  else if bool_decide (req_state request = failed)
          && negb (bool_decide (req_id request ∈ prevFailedIds v))
  then (mkRenderer (prevCompletedIds v) (req_id request :: prevFailedIds v)
          (prevExpiredIds v),
        recordFailed s)
  else if bool_decide (req_state request = expired)
          && negb (bool_decide (req_id request ∈ prevExpiredIds v))
  then (mkRenderer (prevCompletedIds v) (prevFailedIds v)
          (req_id request :: prevExpiredIds v),
        recordExpired s)
  else st.

(** [render]: advance the engine, then walk its requests. *)
Definition render (deltaMs : Q) (st : Renderer * Simulation) : Renderer * Simulation :=
  let s1 := tick Math_sin deltaMs st.2 in
  foldl countRequest (st.1, s1) (requests s1).

(** A session of the page: the frames of the renderer, which alone
    advance the engine, and between them the calls of the controls. *)
Inductive Event :=
  | Frame (deltaMs : Q)
  | Control (o : Op).

Definition handle (e : Event) (st : Renderer * Simulation) : Renderer * Simulation :=
  match e with
  | Frame deltaMs => render deltaMs st
  | Control o => (st.1, apply Math_sin o st.2)
  end.

Definition session (events : list Event) (st : Renderer * Simulation) :
    Renderer * Simulation :=
  foldl (λ st e, handle e st) st events.

End Frames.

(** ** narrator.ts *)

(** The order in which [findRequestToNarrate] looks for a request. *)
Definition stateOrder : list RequestState :=
  [processing; delivering; waiting_for_model; queued; validating; entering;
   completed; failed; expired; rate_limited].

(** The loop over [stateOrder]: the first request in the first state of
    the order that some request is in. *)
Fixpoint findByOrder (order : list RequestState) (requests : list Request) : option Request :=
  match order with
  | [] => None
  | targetState :: rest =>
      match List.find (λ r, bool_decide (req_state r = targetState)) requests with
      | Some found => Some found
      | None => findByOrder rest requests
      end
  end.

(** [findRequestToNarrate], with the identity the narrator tracks. *)
Definition findRequestToNarrate (trackedRequestId : option nat) (s : Simulation) : option Request :=
  let requests := requests s in
  let tracked :=
    match trackedRequestId with
    | Some id => List.find (λ r, bool_decide (req_id r = id)) requests
    | None => None
    end in
  match tracked with
  | Some t =>
      if negb (bool_decide (req_state t ∈ [exiting; completed; failed; expired])) then Some t
      else if bool_decide (req_state t ∈ [completed; failed; expired]) then Some t
      else findByOrder stateOrder requests
  | None => findByOrder stateOrder requests
  end.

(** The fields of the narrator that [update] reads and writes. *)
Record Narrator := mkNarrator {
  lastNarration : String.string;
  trackedRequestId : option nat;
}.

Section Narration.

(** The texts: the one [generateNarration] builds for a request, and the
    one [renderIdleState] builds from the number of replicas. *)
Variable generateNarration : Simulation → Request → String.string.
Variable idleNarration : Simulation → nat → String.string.

(** [renderIdleState]: a new idle text is shown, and the narrator then
    forgets the request it tracked. *)
Definition renderIdleState (s : Simulation) (replicaCount : nat) (v : Narrator) : Narrator :=
  let narration := idleNarration s replicaCount in
  if negb (String.eqb narration (lastNarration v))
  then mkNarrator narration None
  else v.

(** [update] *)
Definition update (s : Simulation) (v : Narrator) : Narrator :=
  match findRequestToNarrate (trackedRequestId v) s with
  | None => renderIdleState s (length (notStopped (replicas s))) v
  | Some request =>
      let v1 := mkNarrator (lastNarration v) (Some (req_id request)) in
      let narration := generateNarration s request in
      if negb (String.eqb narration (lastNarration v1))
      then mkNarrator narration (trackedRequestId v1)
      else v1
  end.

End Narration.

(** [getQueuePosition] *)
Definition getQueuePosition (s : Simulation) (request : Request) : Z :=
  let queued := jsSort cmpRequest (filter (λ r, req_state r = queued) (requests s)) in
  (indexOrMinus1 (findIndex (λ r, bool_decide (req_id r = req_id request)) queued) + 1)%Z.


(** * Vocabulary of the properties *)

(** The invariant of a step at tick [now] under configuration [cfg], for
    a predicate on requests and a predicate on replicas. *)
Definition stepInv (cfg : SimulationConfig) (now : Q)
    (Preq : Request → Prop) (Prep : Replica → Prop) (s : Simulation) : Prop :=
  config s = cfg ∧ state_tick s = now ∧
  Forall Preq (requests s) ∧ Forall Prep (replicas s).

(** The phases of [tick] after the clock has moved. *)
Definition afterClock (Math_sin : Q → Q) (s1 : Simulation) : Simulation :=
  updateMetrics
    (tryAssignToReplicas
       (handleAutoscaling (removeExited (updateReplicas (updateRequests Math_sin s1))))).

(** Every reference of [activeReplicas] points to a ready or busy replica. *)
Definition allActive (refs : list nat) (s : Simulation) : Prop :=
  ∀ j, j ∈ refs → ∃ p, replicas s !! j = Some p ∧ isActiveReplica p = true.

Definition frame (s s' : Simulation) : Prop :=
  config s' = config s ∧ state_tick s' = state_tick s ∧ speed s' = speed s ∧
  paused s' = paused s ∧ nextId s' = nextId s ∧ metrics s' = metrics s ∧
  targetReplicas s' = targetReplicas s.

Definition pool (s s' : Simulation) : Prop :=
  nextReplicaId s' = nextReplicaId s ∧ rep_id <$> replicas s' = rep_id <$> replicas s.

Definition poolInv (cfg : SimulationConfig) (s : Simulation) : Prop :=
  config s = cfg ∧ rep_id <$> replicas s = seq 0 (nextReplicaId s) ∧
  (Z.of_nat (nextReplicaId s) ≤ Z.max 0 (maxReplicas cfg))%Z.

(** An instance of the [Math.sin] parameter for closed examples: it is
    evaluated only on a request in state [failed]. *)
Definition zeroSin : Q → Q := λ _, 0.

(** The capacity the engine enforces: [concurrencyTarget], and one slot
    when [concurrencyTarget] is below 1. A ready replica has a free slot,
    and a replica that is neither ready nor busy holds nothing. *)
Definition capOK (concurrencyTarget : Z) (p : Replica) : Prop :=
  let n := Z.of_nat (length (currentRequestIds p)) in
  let cap := Z.max 1 concurrencyTarget in
  (n ≤ cap)%Z ∧
  (rep_state p = ready → n < cap)%Z ∧
  (rep_state p ≠ ready → rep_state p ≠ busy → n = 0)%Z.

Definition capInv (cfg : SimulationConfig) (s : Simulation) : Prop :=
  config s = cfg ∧ Forall (capOK (concurrencyTarget cfg)) (replicas s).

(** Two requests and a configuration with [predictConcurrency = 1] and
    [concurrencyTarget = 2]: the replica that starts for them claims both. *)
Definition twoSlotConfig : SimulationConfig :=
  mergeConfig DEFAULT_CONFIG
    (mkPartial None None None None None (Some 2%Z) None None None None None).

Definition twoSlotRun : list Op :=
  [AddRequest 1; AddRequest 1] ++ replicate 33 (Tick 100) ++ [Tick 3000; Tick 100].

Definition liveState (r : Request) : Prop :=
  req_state r ≠ failed ∧ req_state r ≠ rate_limited.

(** Two values of a request that differ in [targetX] at most. *)
Definition eqX (r r' : Request) : Prop := r' = with_targetX (targetX r') r.

(** Outside of the references [L], the requests of [s'] are those of [s]
    up to [targetX]. *)
Definition othersEqX (L : list nat) (s s' : Simulation) : Prop :=
  ∀ k r, k ∉ L → requests s !! k = Some r →
    ∃ r', requests s' !! k = Some r' ∧ eqX r r'.

(** The transitions of a request that count as activity at tick [now]:
    admission to the queue and the end of processing. *)
Definition activityTrigger (now : Q) (cfg : SimulationConfig) (r : Request) : Prop :=
  req_state r = validating ∨
  (req_state r = processing ∧
   modelProcessingTimeMs cfg < now - orZero (processStartedAt r)).

(** The three rules of the autoscaler that call [setTargetReplicas]. *)
Definition autoscalerLoad (s : Simulation) : nat * nat * nat :=
  (countIf isWaiting (requests s),
   countIf (λ r, bool_decide (req_state r = processing)) (requests s),
   (countIf isActiveReplica (replicas s)
    + countIf (λ p, bool_decide (rep_state p = starting)) (replicas s))%nat).

Definition scaleUpFires (s : Simulation) : bool :=
  let '(waitingCount, processingCount, totalReplicas) := autoscalerLoad s in
  let load := Z.of_nat (waitingCount + processingCount) in
  (Z.of_nat totalReplicas * concurrencyTarget (config s) <? load)%Z
  && (Z.of_nat totalReplicas <? maxReplicas (config s))%Z
  && match scaleUpTarget load (concurrencyTarget (config s)) (maxReplicas (config s)) with
     | Some target => (targetReplicas s <? target)%Z
     | None => false
     end.

Definition scaleFromZeroFires (s : Simulation) : bool :=
  let '(waitingCount, processingCount, totalReplicas) := autoscalerLoad s in
  (bool_decide (0 < waitingCount)%nat || bool_decide (0 < processingCount)%nat)
  && bool_decide (totalReplicas = 0%nat).

Definition scaleDownFires (s : Simulation) : bool :=
  forallb (λ p, bool_decide (rep_state p = ready) || bool_decide (rep_state p = stopped))
          (replicas s)
  && bool_decide (countIf isInFlight (requests s) = 0%nat)
  && Qltb (scaleDownDelayMs (config s)) (state_tick s - lastActivityTick s)
  && (minReplicas (config s) <? targetReplicas s)%Z.

Definition lerpX (r : Request) : Request :=
  with_x (num (x r + (targetX r - x r) * 0.12)) r.

Definition claimedNow (now : Q) (r : Request) : Request :=
  with_targetX getReplicaX (with_processStartedAt (Some now) (with_req_state processing r)).

Definition expiredNow (r : Request) : Request :=
  with_targetX STAGE_X.exit (with_req_state expired r).

(** The value [updateRequest] leaves in the request it is called on, up to
    the outcome of the lookup of its replica ([claims]). *)
Definition ownUpdate (Math_sin : Q → Q) (now : Q) (cfg : SimulationConfig)
    (claims : bool) (r : Request) : Request :=
  let rl := lerpX r in
  match req_state r with
  | entering =>
      if Qltb (Qabs (x rl - targetX rl)) 2 then with_req_state validating rl else rl
  | validating =>
      with_targetX STAGE_X.queue (with_queuedAt (Some now) (with_req_state queued rl))
  | queued =>
      if Qltb (maxTimeInQueueMs cfg) (now - orZero (queuedAt rl)) then expiredNow rl else rl
  | waiting_for_model =>
      let r2 := if claims then claimedNow now rl else rl in
      if Qltb (maxTimeInQueueMs cfg) (now - orZero (processorPickedAt rl))
      then expiredNow r2 else r2
  | processing =>
      if Qltb (modelProcessingTimeMs cfg) (now - orZero (processStartedAt rl))
      then with_targetX STAGE_X.webhook (with_req_state delivering rl) else rl
  | delivering =>
      if Qltb (Qabs (x rl - targetX rl)) 5
      then
        if Qltb (webhookTimeMs cfg)
                (now - orZero (processStartedAt rl) - modelProcessingTimeMs cfg)
        then with_targetX STAGE_X.exit
               (with_completedAt (Some now) (with_req_state completed rl))
        else rl
      else rl
  | completed =>
      if Qltb (STAGE_X.webhook + 50) (x rl) then fadeOut 0.02 rl else rl
  | failed =>
      let rs := with_x (num (x rl + Math_sin (now * 0.05) * 2)) rl in
      if Qltb (STAGE_X.webhook + 30) (x rs) then fadeOut 0.015 rs else rs
  | expired => fadeOut 0.01 rl
  | rate_limited => rl
  | exiting => rl
  end.

(** Whether the request at [i], waiting for its replica, finds it ready. *)
Definition findsReady (s : Simulation) (r : Request) : bool :=
  match findIndex (λ p, bool_decide (Some (rep_id p) = assignedReplica r)) (replicas s) with
  | Some j => bool_decide (rep_state <$> replicas s !! j = Some ready)
  | None => false
  end.

Definition assignedNow (now : Q) (id : nat) (r : Request) : Request :=
  with_assignedReplica (Some id)
    (with_processorPickedAt (Some now)
       (with_processStartedAt (Some now) (with_req_state processing r))).

Definition reservedNow (now : Q) (id : nat) (r : Request) : Request :=
  with_assignedReplica (Some id)
    (with_processorPickedAt (Some now) (with_req_state waiting_for_model r)).

Definition assignEffect (now : Q) (r r' : Request) : Prop :=
  eqX r r' ∨
  (req_state r = queued ∧ ∃ id, eqX (assignedNow now id r) r') ∨
  (req_state r = queued ∧ ∃ id, eqX (reservedNow now id r) r').

Definition allQueued (refs : list nat) (s : Simulation) : Prop :=
  ∀ i, i ∈ refs → ∃ r, requests s !! i = Some r ∧ req_state r = queued.

Definition kept (r : Request) : Prop :=
  negb (bool_decide (req_state r = exiting)) || Qltb 0.01 (alpha r) = true.

(** The identity of a request and the marks of its assignment. *)
Definition sameAssignment (r r' : Request) : Prop :=
  req_id r' = req_id r ∧ queuedAt r' = queuedAt r ∧
  assignedReplica r' = assignedReplica r ∧
  processorPickedAt r' = processorPickedAt r ∧
  processStartedAt r' = processStartedAt r.

(** A request queued at tick 0 and still queued at tick 20000. *)
Definition stuckRequest : Request :=
  mkRequest 0 queued 1 0 (Some 0) None None None None 180 180 1.

Definition stuckQueue : Simulation :=
  mkSimulation 20000 [stuckRequest] [] initialMetrics DEFAULT_CONFIG 0 1 false 1 0 0 0.

(** A request picked at tick 0 for replica 0, which is ready at tick 20000. *)
Definition lateRequest : Request :=
  mkRequest 0 waiting_for_model 1 0 (Some 0) (Some 0) None None (Some 0%nat) 400 400 1.

Definition warmReplica : Replica := mkReplica 0 ready None None [].

Definition lateClaim : Simulation :=
  mkSimulation 20000 [lateRequest] [warmReplica] initialMetrics DEFAULT_CONFIG
    1 1 false 1 1 0 0.

(** The replicas at [a] and [b] hold [la] and [lb] requests, the cursor
    is [c] modulo 2, and each replica takes two requests. *)
Definition twoLoads (a b : nat) (s : Simulation) (la lb c : nat) : Prop :=
  (∃ pa, replicas s !! a = Some pa ∧ length (currentRequestIds pa) = la) ∧
  (∃ pb, replicas s !! b = Some pb ∧ length (currentRequestIds pb) = lb) ∧
  (roundRobinIndex s `mod` 2 = c)%nat ∧
  concurrencyTarget (config s) = 2%Z.

(** Four requests admitted at tick 0 and queued at tick 3300, with two
    ready replicas and [concurrencyTarget = 2]. *)
Definition queuedRequest (id : nat) : Request :=
  mkRequest id queued 1 0 (Some 3300) None None None None 78 180 1.

Definition fourQueued : Simulation :=
  mkSimulation 3300 (queuedRequest <$> [0; 1; 2; 3]%nat)
    [mkReplica 0 ready None None []; mkReplica 1 ready None None []]
    initialMetrics twoSlotConfig 2 1 false 4 2 0 0.







(** At tick [now]: a ready or busy replica has gone through a whole cold
    start, a replica that is neither holds no request, and no cold start
    began before tick 0. *)
Definition warmedUp (cfg : SimulationConfig) (now : Q) (p : Replica) : Prop :=
  (isActiveReplica p = true → coldStartTimeMs cfg <= now) ∧
  (isActiveReplica p = false → currentRequestIds p = []) ∧
  (∀ t, startingAt p = Some t → 0 <= t).

(** At tick [now]: processing began after a cold start, delivery after
    the processing time on top, completion after the webhook time on top. *)
Definition onSchedule (cfg : SimulationConfig) (now : Q) (r : Request) : Prop :=
  match req_state r with
  | processing =>
      ∃ t, processStartedAt r = Some t ∧ coldStartTimeMs cfg <= t ∧ t <= now
  | delivering =>
      ∃ t, processStartedAt r = Some t ∧ coldStartTimeMs cfg <= t ∧
           t + modelProcessingTimeMs cfg < now
  | completed =>
      ∃ t, processStartedAt r = Some t ∧ coldStartTimeMs cfg <= t ∧
           t + modelProcessingTimeMs cfg + webhookTimeMs cfg < now
  | _ => True
  end.

Definition timeInv (cfg : SimulationConfig) (s : Simulation) : Prop :=
  config s = cfg ∧ 0 <= state_tick s ∧ 0 < speed s ∧
  Forall (onSchedule cfg (state_tick s)) (requests s) ∧
  Forall (warmedUp cfg (state_tick s)) (replicas s).

Definition steadyOp (o : Op) : Prop :=
  match o with
  | SetConfig _ => False
  | Tick deltaMs => 0 <= deltaMs
  | _ => True
  end.

(** The cold-start scenario: the default configuration, one request
    admitted at tick 0, then [n] Advance steps of 100 ms; the observation
    is the tick, the states of the requests and the states of the replicas. *)
Definition coldStart (Math_sin : Q → Q) (n : nat) : Simulation :=
  run Math_sin (AddRequest 1 :: replicate n (Tick 100)) (newSimulation DEFAULT_CONFIG).

Definition observe (s : Simulation) : Q * list RequestState * list ReplicaState :=
  (state_tick s, req_state <$> requests s, rep_state <$> replicas s).

(** The target of the autoscaler is within the bounds of the pool. *)
Definition targetInv (cfg : SimulationConfig) (s : Simulation) : Prop :=
  config s = cfg ∧ (0 ≤ targetReplicas s ≤ maxReplicas cfg)%Z.

(** An operation that does not rewind the clock: no reset, and no
    negative delta. *)
Definition forwardOp (o : Op) : Prop :=
  match o with
  | Reset => False
  | Tick deltaMs => 0 <= deltaMs
  | _ => True
  end.

Definition speedInv (s : Simulation) : Prop := 0.1 <= speed s ∧ speed s <= 10.

(** The replicas [reconcileReplicas] counts as active: all but the
    stopped ones, those that are stopping included. *)
Definition nonStopped (l : list Replica) : nat :=
  length (filter (λ p, rep_state p ≠ stopped) l).

Definition isIdleReady (p : Replica) : Prop :=
  rep_state p = ready ∧ length (currentRequestIds p) = 0%nat.

#[global] Instance isIdleReady_dec p : Decision (isIdleReady p).
Proof. unfold isIdleReady. apply _. Defined.

Definition isStopping (p : Replica) : Prop := rep_state p = stopping.

(** The load the autoscaler sees, and the number of replicas it counts. *)
Definition autoscalerDemand (s : Simulation) : Z :=
  let '(waitingCount, processingCount, _) := autoscalerLoad s in
  Z.of_nat (waitingCount + processingCount).

Definition autoscalerReplicas (s : Simulation) : Z :=
  let '(_, _, totalReplicas) := autoscalerLoad s in Z.of_nat totalReplicas.

(** Two replicas of four, one of them idle, and a target of three. *)
Definition mixedPool : Simulation :=
  mkSimulation 5000 []
    [mkReplica 0 busy None None [7%nat]; mkReplica 1 stopped None None [];
     mkReplica 2 ready None None []; mkReplica 3 stopping None (Some 4800) []]
    initialMetrics DEFAULT_CONFIG 3 1 false 8 4 0 0.

(** Three queued requests in front of a single starting replica. *)
Definition burstQueue : Simulation :=
  mkSimulation 3300 (queuedRequest <$> [0; 1; 2]%nat)
    [mkReplica 0 starting (Some 3200) None []]
    initialMetrics DEFAULT_CONFIG 1 1 false 3 1 0 0.

(** What the update phase of a step at tick [now] makes of a request. *)
Definition updated (Math_sin : Q → Q) (now : Q) (cfg : SimulationConfig)
    (r r2 : Request) : Prop :=
  ∃ rA claims, eqX r rA ∧ eqX (ownUpdate Math_sin now cfg claims rA) r2.

(** What a whole step makes of a request that survives it: the update,
    the pruning test, the dispatcher. *)
Definition evolves (Math_sin : Q → Q) (now : Q) (cfg : SimulationConfig)
    (r r' : Request) : Prop :=
  ∃ r2, updated Math_sin now cfg r r2 ∧ kept r2 ∧ assignEffect now r2 r'.

(** Identities are distinct and below the counter. *)
Definition idInv (s : Simulation) : Prop :=
  NoDup (req_id <$> requests s) ∧
  Forall (λ r, (req_id r < nextId s)%nat) (requests s).

(** The state a request may be found in at the end of a step, given its
    state at the start of the step. *)
Definition mayBecome (st st' : RequestState) : bool :=
  match st, st' with
  | entering, (entering | validating) => true
  | validating, (queued | waiting_for_model | processing) => true
  | queued, (queued | expired | waiting_for_model | processing) => true
  | waiting_for_model, (waiting_for_model | processing | expired) => true
  | processing, (processing | delivering) => true
  | delivering, (delivering | completed) => true
  | completed, completed => true
  | failed, failed => true
  | expired, expired => true
  | rate_limited, rate_limited => true
  | exiting, exiting => true
  | _, _ => false
  end.

(** The same for the update phase alone. *)
Definition mayUpdateTo (st st' : RequestState) : bool :=
  match st, st' with
  | entering, (entering | validating) => true
  | validating, queued => true
  | queued, (queued | expired) => true
  | waiting_for_model, (waiting_for_model | processing | expired) => true
  | processing, (processing | delivering) => true
  | delivering, (delivering | completed) => true
  | (completed | failed | expired), exiting => true
  | completed, completed => true
  | failed, failed => true
  | expired, expired => true
  | rate_limited, rate_limited => true
  | exiting, exiting => true
  | _, _ => false
  end.

Definition isTerminal (st : RequestState) : bool :=
  match st with
  | completed | failed | expired | exiting => true
  | _ => false
  end.

(** A request is fully opaque until it reaches a terminal state, and its
    opacity stays within [0, 1]. *)
Definition opacityOK (r : Request) : Prop :=
  0 <= alpha r ∧ alpha r <= 1 ∧ (isTerminal (req_state r) = false → alpha r = 1).

(** The time marks a request carries in each state, and their order. *)
Definition stamped (now : Q) (r : Request) : Prop :=
  createdAt r <= now ∧
  match req_state r with
  | entering | validating =>
      queuedAt r = None ∧ processorPickedAt r = None ∧ processStartedAt r = None ∧
      completedAt r = None ∧ assignedReplica r = None
  | queued =>
      ∃ q, queuedAt r = Some q ∧ createdAt r <= q ∧ q <= now ∧
           processorPickedAt r = None ∧ processStartedAt r = None ∧
           completedAt r = None ∧ assignedReplica r = None
  | waiting_for_model =>
      ∃ q p, queuedAt r = Some q ∧ processorPickedAt r = Some p ∧
             createdAt r <= q ∧ q <= p ∧ p <= now ∧
             processStartedAt r = None ∧ completedAt r = None ∧
             is_Some (assignedReplica r)
  | processing | delivering =>
      ∃ q p t, queuedAt r = Some q ∧ processorPickedAt r = Some p ∧
               processStartedAt r = Some t ∧
               createdAt r <= q ∧ q <= p ∧ p <= t ∧ t <= now ∧
               completedAt r = None ∧ is_Some (assignedReplica r)
  | completed =>
      ∃ q p t c, queuedAt r = Some q ∧ processorPickedAt r = Some p ∧
                 processStartedAt r = Some t ∧ completedAt r = Some c ∧
                 createdAt r <= q ∧ q <= p ∧ p <= t ∧ t <= c ∧ c <= now ∧
                 is_Some (assignedReplica r)
  | expired =>
      ∃ q, queuedAt r = Some q ∧ createdAt r <= q ∧ q <= now ∧ completedAt r = None
  | failed | rate_limited | exiting => True
  end.

Definition stampInv (s : Simulation) : Prop :=
  0 < speed s ∧ Forall (stamped (state_tick s)) (requests s).

(** An Advance step with a delta that is not negative, or any other
    operation. *)
Definition forwardTick (o : Op) : Prop :=
  match o with
  | Tick deltaMs => 0 <= deltaMs
  | _ => True
  end.

(** The slots of the replicas and the requests in process account for
    each other: every identity a replica holds is the identity of a
    request that is processing on that replica, every request that is
    processing is held by the replica it is assigned to, no replica holds
    an identity twice, and a replica that is neither ready nor busy holds
    nothing. *)
Definition slotOK (rs : list Request) (ps : list Replica) : Prop :=
  NoDup (req_id <$> rs) ∧ NoDup (rep_id <$> ps) ∧
  (∀ j p id, ps !! j = Some p → id ∈ currentRequestIds p →
     ∃ i r, rs !! i = Some r ∧ req_id r = id ∧ req_state r = processing ∧
            assignedReplica r = Some (rep_id p)) ∧
  (∀ i r, rs !! i = Some r → req_state r = processing →
     ∃ j p, ps !! j = Some p ∧ assignedReplica r = Some (rep_id p) ∧
            req_id r ∈ currentRequestIds p) ∧
  Forall (λ p, NoDup (currentRequestIds p) ∧
               (isActiveReplica p = false → currentRequestIds p = [])) ps.

Definition slotInv (s : Simulation) : Prop :=
  slotOK (requests s) (replicas s) ∧
  rep_id <$> replicas s = seq 0 (nextReplicaId s).

(** Two values of a request with the same identity, state and replica. *)
Definition sameSlot (r r' : Request) : Prop :=
  req_id r' = req_id r ∧ req_state r' = req_state r ∧
  assignedReplica r' = assignedReplica r.

(** Two values of a replica with the same identity and the same
    requests in hand, where a replica that leaves the states ready and
    busy has nothing in hand. *)
Definition sameHold (p p' : Replica) : Prop :=
  rep_id p' = rep_id p ∧
  (currentRequestIds p' = currentRequestIds p ∨
   (currentRequestIds p' = [] ∧ isActiveReplica p = false)) ∧
  (isActiveReplica p = true → isActiveReplica p' = false → currentRequestIds p = []).

(** The replicas that are shown, in the order of their lanes. *)
Definition lanes (s : Simulation) : list Replica :=
  jsSort cmpReplica (notStopped (replicas s)).

(** The distance between two lanes when [count] replicas are shown. *)
Definition laneSpacing (count : nat) : Q :=
  if bool_decide (1 < count)%nat
  then Qmin MAX_REPLICA_SPACING
         (Qmax MIN_REPLICA_SPACING
            ((MODEL_ZONE_BOTTOM - MODEL_ZONE_TOP - 80) / (QofNat count - 1)))
  else 0.

(** The place of a state in the order of the narrator. *)
Definition narrationRank (st : RequestState) : nat :=
  match st with
  | processing => 0
  | delivering => 1
  | waiting_for_model => 2
  | queued => 3
  | validating => 4
  | entering => 5
  | completed => 6
  | failed => 7
  | expired => 8
  | rate_limited => 9
  | exiting => 10
  end.

(** A configuration change that allows no replica, and the queue of two
    requests it leaves waiting: the one of priority 0, added last, is
    served first. *)
Definition noReplicas : PartialConfig :=
  mkPartial None None None None (Some 0%Z) None None None None None None.

Definition priorityQueueRun : list Op :=
  [SetConfig noReplicas; AddRequest 2; AddRequest 0] ++ replicate 33 (Tick 100).

Definition priorityQueue : Simulation :=
  run zeroSin priorityQueueRun (newSimulation DEFAULT_CONFIG).

(** The calls the controls make without a reset: everything but the
    calls that are the renderer's own, and [reset]. *)
Definition controlCall (e : Event) : Prop :=
  match e with
  | Frame _ => True
  | Control (Tick _ | RecordCompleted | RecordFailed | RecordExpired | Reset) => False
  | Control _ => True
  end.

(** All identities the renderer has counted. *)
Definition countedIds (v : Renderer) : list nat :=
  prevCompletedIds v ++ prevFailedIds v ++ prevExpiredIds v.

(** The counters agree with the sets of the renderer, no identity is
    counted twice, and a request that is counted is still in the state
    it was counted in. *)
Definition tallyInv (n : nat) (rs : list Request) (v : Renderer) (m : Metrics) : Prop :=
  m_completed m = length (prevCompletedIds v) ∧
  m_failed m = length (prevFailedIds v) ∧
  m_expired m = length (prevExpiredIds v) ∧
  NoDup (countedIds v) ∧
  Forall (λ id, (id < n)%nat) (countedIds v) ∧
  Forall (λ r, (req_id r ∈ prevCompletedIds v → req_state r = completed) ∧
               (req_id r ∈ prevFailedIds v → req_state r = failed) ∧
               (req_id r ∈ prevExpiredIds v → req_state r = expired)) rs.

Definition sessionInv (st : Renderer * Simulation) : Prop :=
  idInv st.2 ∧ Forall liveState (requests st.2) ∧ prevFailedIds st.1 = [] ∧
  tallyInv (nextId st.2) (requests st.2) st.1 (metrics st.2).

(** Every finished request of [rs] is in the set of its final state. *)
Definition allCounted (v : Renderer) (rs : list Request) : Prop :=
  Forall (λ r, (req_state r = completed → req_id r ∈ prevCompletedIds v) ∧
               (req_state r = failed → req_id r ∈ prevFailedIds v) ∧
               (req_state r = expired → req_id r ∈ prevExpiredIds v)) rs.

(** The sets of [v] are contained in those of [v']. *)
Definition setsGrow (v v' : Renderer) : Prop :=
  prevCompletedIds v ⊆ prevCompletedIds v' ∧
  prevFailedIds v ⊆ prevFailedIds v' ∧
  prevExpiredIds v ⊆ prevExpiredIds v'.

(** * Properties *)

(** Reduction of field reads over field updates, and nothing else. *)
Ltac fsimpl :=
  cbn [req_id req_state priority createdAt queuedAt processorPickedAt
       processStartedAt completedAt assignedReplica x targetX alpha
       with_req_state with_queuedAt with_processorPickedAt with_processStartedAt
       with_completedAt with_assignedReplica with_x with_targetX with_alpha
       rep_id rep_state startingAt stoppingAt currentRequestIds
       with_rep_state with_startingAt with_stoppingAt with_currentRequestIds
       state_tick requests replicas metrics config targetReplicas speed paused
       nextId nextReplicaId lastActivityTick roundRobinIndex
       set_tick set_requests set_replicas set_metrics set_config set_targetReplicas
       set_speed set_paused set_nextId set_nextReplicaId set_lastActivityTick
       set_roundRobinIndex upd_req upd_rep fst snd] in *.

Arguments tick : simpl never.
Arguments updateRequest : simpl never.
Arguments updateRequests : simpl never.
Arguments handleAutoscaling : simpl never.
Arguments reconcileReplicas : simpl never.
Arguments tryAssignToReplicas : simpl never.
Arguments assignToStartingReplicas : simpl never.
Arguments newSimulation : simpl never.
Arguments reset : simpl never.

(** ** Numbers and lists *)

Lemma Qltb_lt (a b : Q) : Qltb a b = true ↔ a < b.
Proof.
  unfold Qltb. rewrite negb_true_iff, <- not_true_iff_false, Qle_bool_iff.
  split; [apply Qnot_le_lt | apply Qlt_not_le].
Qed.

Lemma Qltb_ge (a b : Q) : Qltb a b = false ↔ b <= a.
Proof.
  unfold Qltb. rewrite negb_false_iff. apply Qle_bool_iff.
Qed.

Lemma Qleb_le (a b : Q) : Qleb a b = true ↔ a <= b.
Proof. apply Qle_bool_iff. Qed.

Lemma num_eq (q : Q) : num q == q.
Proof. apply Qred_correct. Qed.

Lemma findIndex_Some {A} (p : A → bool) (l : list A) (j : nat) :
  findIndex p l = Some j →
  ∃ a, l !! j = Some a ∧ p a = true ∧ ∀ k b, l !! k = Some b → (k < j)%nat → p b ≠ true.
Proof.
  unfold findIndex. intros H.
  destruct (list_find _ l) as [[k a]|] eqn:E; [|done].
  injection H as <-. apply list_find_Some in E. naive_solver.
Qed.

Lemma findIndex_None {A} (p : A → bool) (l : list A) :
  findIndex p l = None → Forall (λ a, p a ≠ true) l.
Proof.
  unfold findIndex. intros H.
  destruct (list_find _ l) as [[k a]|] eqn:E; [done|].
  by apply list_find_None in E.
Qed.

Lemma elem_of_sortInsert {A} (cmp : A → A → Q) (a b : A) (l : list A) :
  b ∈ sortInsert cmp a l ↔ b = a ∨ b ∈ l.
Proof.
  induction l as [|c l IH]; simpl.
  - rewrite list_elem_of_singleton, elem_of_nil. naive_solver.
  - destruct (Qleb _ _); rewrite !elem_of_cons; [|rewrite IH]; naive_solver.
Qed.

Lemma elem_of_jsSort {A} (cmp : A → A → Q) (b : A) (l : list A) :
  b ∈ jsSort cmp l ↔ b ∈ l.
Proof.
  unfold jsSort. induction l as [|a l IH]; simpl; [done|].
  rewrite elem_of_sortInsert, IH, elem_of_cons. done.
Qed.

Lemma sortInsert_Permutation {A} (cmp : A → A → Q) (a : A) (l : list A) :
  sortInsert cmp a l ≡ₚ a :: l.
Proof.
  induction l as [|c l IH]; simpl; [done|].
  destruct (Qleb _ _); [done|]. rewrite IH. apply Permutation_swap.
Qed.

Lemma jsSort_Permutation {A} (cmp : A → A → Q) (l : list A) :
  jsSort cmp l ≡ₚ l.
Proof.
  unfold jsSort. induction l as [|a l IH]; simpl; [done|].
  by rewrite sortInsert_Permutation, IH.
Qed.

Lemma length_jsSort {A} (cmp : A → A → Q) (l : list A) :
  length (jsSort cmp l) = length l.
Proof. by rewrite jsSort_Permutation. Qed.

Lemma elem_of_filterIdx {A} (p : A → bool) (l : list A) (i : nat) :
  i ∈ filterIdx p l ↔ ∃ a, l !! i = Some a ∧ p a = true.
Proof.
  unfold filterIdx. rewrite list_elem_of_fmap. split.
  - intros [[k a] [-> H]]. apply list_elem_of_filter in H as [Hp H].
    apply elem_of_lookup_imap in H as (k' & a' & ? & ?). simplify_eq/=. eauto.
  - intros (a & Hl & Hp). exists (i, a). split; [done|].
    apply list_elem_of_filter. split; [done|].
    apply elem_of_lookup_imap. eauto.
Qed.

Lemma filterIdx_app {A} (p : A → bool) (l1 l2 : list A) :
  filterIdx p (l1 ++ l2) = filterIdx p l1 ++ ((λ i, length l1 + i)%nat <$> filterIdx p l2).
Proof.
  unfold filterIdx. rewrite imap_app, filter_app, fmap_app. f_equal.
  generalize (length l1) as n. intros n.
  rewrite <- list_fmap_compose.
  revert n. induction l2 as [|a l2 IH] using rev_ind; intros n; [done|].
  rewrite !imap_app, !filter_app, !fmap_app, IH. f_equal.
  simpl. rewrite !filter_cons. simpl.
  destruct (decide (p a = true)); simpl; [|done].
  rewrite Nat.add_0_r. done.
Qed.

Lemma length_filterIdx {A} (p : A → bool) (l : list A) :
  length (filterIdx p l) = countIf p l.
Proof.
  unfold countIf. induction l as [|a l IH] using rev_ind; [done|].
  rewrite filterIdx_app, filter_app, !length_app, length_fmap, IH. f_equal.
  unfold filterIdx. simpl. rewrite !filter_cons. simpl.
  by destruct (decide (p a = true)).
Qed.

Lemma NoDup_filterIdx {A} (p : A → bool) (l : list A) : NoDup (filterIdx p l).
Proof.
  induction l as [|a l IH] using rev_ind; [constructor|].
  rewrite filterIdx_app. apply NoDup_app. split_and!; [done| |].
  - intros i Hi Hi'. apply elem_of_filterIdx in Hi as (b & Hb & _).
    apply lookup_lt_Some in Hb.
    apply list_elem_of_fmap in Hi' as (k & -> & _). lia.
  - apply NoDup_fmap_2; [intros ???; lia|].
    unfold filterIdx. simpl. rewrite filter_cons. simpl.
    destruct (decide (p a = true)); simpl; [apply NoDup_singleton | constructor].
Qed.

Lemma NoDup_jsSort {A} (cmp : A → A → Q) (l : list A) : NoDup l → NoDup (jsSort cmp l).
Proof. by rewrite jsSort_Permutation. Qed.

(** ** Inductive invariants of a step

    A pair of predicates, one on requests and one on replicas, that is
    closed under every mutation the engine performs at tick [now] under
    configuration [cfg] is preserved by every phase of [tick]. *)

Section Preservation.

Variable Math_sin : Q → Q.
Variable cfg : SimulationConfig.
Variable now : Q.
Variable Preq : Request → Prop.
Variable Prep : Replica → Prop.

Local Abbreviation Inv := (stepInv cfg now Preq Prep).

Hypothesis Preq_x : ∀ r v, Preq r → Preq (with_x v r).
Hypothesis Preq_targetX : ∀ r v, Preq r → Preq (with_targetX v r).
Hypothesis Preq_alpha : ∀ r v, Preq r → Preq (with_alpha v r).
Hypothesis Preq_exiting : ∀ r, Preq r → Preq (with_req_state exiting r).
Hypothesis Preq_validating : ∀ r, Preq r → Preq (with_req_state validating r).
Hypothesis Preq_queued :
  ∀ r, Preq r → Preq (with_queuedAt (Some now) (with_req_state queued r)).
Hypothesis Preq_expired : ∀ r, Preq r → Preq (with_req_state expired r).
Hypothesis P_claim :
  ∀ r p, Preq r → Prep p → req_state r = waiting_for_model → rep_state p = ready →
    Preq (with_processStartedAt (Some now) (with_req_state processing r)) ∧
    Prep (capacityState (concurrencyTarget cfg) (pushRequestId (req_id r) p)).
Hypothesis Prep_remove : ∀ p id, Prep p → Prep (removeRequestId id p).
Hypothesis Prep_release :
  ∀ p id, Prep p → id ∈ currentRequestIds p →
    Prep (capacityState (concurrencyTarget cfg) (removeRequestId id p)).
Hypothesis Preq_delivering :
  ∀ r, Preq r → req_state r = processing →
    modelProcessingTimeMs cfg < now - orZero (processStartedAt r) →
    Preq (with_req_state delivering r).
Hypothesis Preq_completed :
  ∀ r, Preq r → req_state r = delivering →
    webhookTimeMs cfg < now - orZero (processStartedAt r) - modelProcessingTimeMs cfg →
    Preq (with_completedAt (Some now) (with_req_state completed r)).
Hypothesis Prep_ready :
  ∀ p, Prep p → rep_state p = starting → truthy (startingAt p) = true →
    coldStartTimeMs cfg <= now - orZero (startingAt p) →
    Prep (with_startingAt None (with_rep_state ready p)).
Hypothesis Prep_stopped :
  ∀ p, Prep p → rep_state p = stopping →
    Prep (with_stoppingAt None (with_rep_state stopped p)).
Hypothesis Prep_restart :
  ∀ p, Prep p → rep_state p = stopped →
    Prep (with_currentRequestIds []
            (with_startingAt (Some now) (with_rep_state starting p))).
Hypothesis Prep_new : ∀ id, Prep (mkReplica id starting (Some now) None []).
Hypothesis Prep_stop :
  ∀ p, Prep p → rep_state p = ready → length (currentRequestIds p) = 0%nat →
    Prep (with_currentRequestIds []
            (with_startingAt None
               (with_stoppingAt (Some now) (with_rep_state stopping p)))).
Hypothesis P_assign :
  ∀ r p, Preq r → Prep p → isActiveReplica p = true →
    (Z.of_nat (length (currentRequestIds p)) < concurrencyTarget cfg)%Z →
    Preq (with_assignedReplica (Some (rep_id p))
            (with_processorPickedAt (Some now)
               (with_processStartedAt (Some now) (with_req_state processing r)))) ∧
    Prep (capacityState (concurrencyTarget cfg) (pushRequestId (req_id r) p)).
Hypothesis Preq_assign_starting :
  ∀ r id, Preq r →
    Preq (with_assignedReplica (Some id)
            (with_processorPickedAt (Some now) (with_req_state waiting_for_model r))).

Lemma Inv_upd_req (i : nat) (f : Request → Request) (s : Simulation) :
  Inv s → (∀ r, requests s !! i = Some r → Preq r → Preq (f r)) → Inv (upd_req i f s).
Proof.
  intros (? & ? & Hq & ?) Hf. repeat split; simpl; try done.
  apply Forall_alter; done.
Qed.

Lemma Inv_upd_rep (j : nat) (f : Replica → Replica) (s : Simulation) :
  Inv s → (∀ p, replicas s !! j = Some p → Prep p → Prep (f p)) → Inv (upd_rep j f s).
Proof.
  intros (? & ? & ? & Hp) Hf. repeat split; simpl; try done.
  apply Forall_alter; done.
Qed.

Lemma Inv_lookup_req (i : nat) (r : Request) (s : Simulation) :
  Inv s → requests s !! i = Some r → Preq r.
Proof. intros (_ & _ & Hq & _) Hl. eapply Forall_lookup_1; eauto. Qed.

Lemma Inv_lookup_rep (j : nat) (p : Replica) (s : Simulation) :
  Inv s → replicas s !! j = Some p → Prep p.
Proof. intros (_ & _ & _ & Hp) Hl. eapply Forall_lookup_1; eauto. Qed.

Lemma Inv_set_lastActivityTick (v : Q) (s : Simulation) :
  Inv s → Inv (set_lastActivityTick v s).
Proof. by intros (? & ? & ? & ?). Qed.

Lemma Inv_set_roundRobinIndex (v : nat) (s : Simulation) :
  Inv s → Inv (set_roundRobinIndex v s).
Proof. by intros (? & ? & ? & ?). Qed.

Lemma Inv_setTargetReplicas (v : Z) (s : Simulation) :
  Inv s → Inv (setTargetReplicas v s).
Proof. by intros (? & ? & ? & ?). Qed.

Lemma Inv_updateMetrics (s : Simulation) : Inv s → Inv (updateMetrics s).
Proof. by intros (? & ? & ? & ?). Qed.

Lemma foldl_alter_Forall {A B} (P : A → Prop) (f : B → A → A) (g : B → nat)
    (l : list A) (ks : list B) :
  (∀ b a, P a → P (f b a)) → Forall P l →
  Forall P (foldl (λ rs k, alter (f k) (g k) rs) l ks).
Proof.
  intros Hf. revert l. induction ks as [|k ks IH]; intros l Hl; simpl; [done|].
  apply IH. apply Forall_alter; auto.
Qed.

Lemma Inv_repositionQueue (s : Simulation) : Inv s → Inv (repositionQueue s).
Proof.
  intros (? & ? & Hq & ?). repeat split; simpl; try done.
  apply (foldl_alter_Forall Preq (λ ki, with_targetX _) snd); auto.
Qed.

Lemma Inv_updateRequest (i : nat) (s : Simulation) :
  Inv s → Inv (updateRequest Math_sin i s).
Proof.
  intros HI. unfold updateRequest.
  set (s1 := upd_req i _ s).
  assert (H1 : Inv s1) by (apply Inv_upd_req; auto).
  assert (Hc : config s1 = cfg) by apply H1.
  assert (Hn : state_tick s1 = now) by apply H1.
  clearbody s1. clear HI s.
  destruct (requests s1 !! i) as [r|] eqn:Hr; [|done].
  assert (HPr : Preq r) by (eapply Inv_lookup_req; eauto).
  rewrite Hc, Hn.
  destruct (req_state r) eqn:Hst.
  - destruct (Qltb _ _); [|done]. apply Inv_upd_req; auto.
  - apply Inv_set_lastActivityTick, Inv_repositionQueue, Inv_upd_req; auto.
  - destruct (Qltb _ _); [|done]. apply Inv_upd_req; auto.
  - destruct (findIndex _ _) as [j|] eqn:Hj.
    + set (s2 := if bool_decide _ then _ else s1).
      assert (H2 : Inv s2).
      { subst s2. case_bool_decide as Hready; [|done].
        destruct (replicas s1 !! j) as [p|] eqn:Hp; [|done].
        injection Hready as Hready.
        destruct (P_claim r p) as [Hq' Hp']; eauto using Inv_lookup_rep.
        apply Inv_upd_req; auto. apply Inv_upd_rep.
        - apply Inv_upd_req; auto. intros r' Hr' _. by simplify_eq.
        - intros p' Hp'' _. simpl in Hp''. by simplify_eq. }
      clearbody s2.
      destruct (Qltb _ _); [|done].
      apply Inv_upd_rep; auto. apply Inv_upd_req; auto.
    + destruct (Qltb _ _); [|done]. apply Inv_upd_req; auto.
  - destruct (Qltb _ _) eqn:Hg; [|done]. apply Qltb_lt in Hg.
    apply Inv_set_lastActivityTick, Inv_upd_req.
    + destruct (findIndex _ _) as [j|] eqn:Hj; [|done].
      apply findIndex_Some in Hj as (p & Hp & Hin & _).
      apply bool_decide_eq_true in Hin.
      apply Inv_upd_rep; [done|]. intros p' Hp' HP. simplify_eq. auto.
    + intros r' Hr' _. apply Preq_targetX, Preq_delivering.
      * destruct (findIndex _ _); simpl in Hr'; by simplify_eq.
      * destruct (findIndex _ _); simpl in Hr'; by simplify_eq.
      * destruct (findIndex _ _); simpl in Hr'; by simplify_eq.
  - destruct (Qltb _ _); [|done].
    destruct (Qltb _ _) eqn:Hg; [|done]. apply Qltb_lt in Hg.
    apply Inv_upd_req; auto. intros r' Hr' _. simplify_eq. auto.
  - destruct (Qltb _ _); [|done]. apply Inv_upd_req; auto.
    intros r' _ Hr'. unfold fadeOut. destruct (Qleb _ _); auto.
  - destruct (Qltb _ _); [|apply Inv_upd_req; auto].
    apply Inv_upd_req; [apply Inv_upd_req; auto|].
    intros r' _ Hr'. unfold fadeOut. destruct (Qleb _ _); auto.
  - apply Inv_upd_req; auto.
    intros r' _ Hr'. unfold fadeOut. destruct (Qleb _ _); auto.
  - done.
  - done.
Qed.

Lemma Inv_foldl {B} (f : Simulation → B → Simulation) (l : list B) (s : Simulation) :
  (∀ s b, Inv s → Inv (f s b)) → Inv s → Inv (foldl f s l).
Proof.
  intros Hf. revert s. induction l as [|b l IH]; intros s Hs; simpl; auto.
Qed.

Lemma Inv_updateRequests (s : Simulation) : Inv s → Inv (updateRequests Math_sin s).
Proof.
  unfold updateRequests. apply Inv_foldl. intros s' i. apply Inv_updateRequest.
Qed.

Lemma Prep_updateReplica (p : Replica) : Prep p → Prep (updateReplica now cfg p).
Proof.
  intros Hp. unfold updateReplica.
  set (p1 := if bool_decide (rep_state p = starting) && _ then _ else p).
  assert (H1 : Prep p1).
  { subst p1. case_bool_decide as Hst; simpl; [|done].
    destruct (truthy _) eqn:Ht; [|done].
    destruct (Qleb _ _) eqn:Hg; [|done]. apply Qleb_le in Hg. auto. }
  clearbody p1.
  case_bool_decide as Hst; simpl; [|done].
  destruct (truthy _); [|done]. destruct (Qleb _ _); auto.
Qed.

Lemma Inv_updateReplicas (s : Simulation) : Inv s → Inv (updateReplicas s).
Proof.
  intros (Hc & Hn & ? & Hp). repeat split; simpl; try done.
  rewrite Hc, Hn. apply Forall_fmap.
  eapply Forall_impl; [exact Hp|]. intros p. apply Prep_updateReplica.
Qed.

Lemma Inv_removeExited (s : Simulation) : Inv s → Inv (removeExited s).
Proof.
  intros (? & ? & Hq & ?). repeat split; simpl; try done.
  apply Forall_forall. intros r Hr. apply list_elem_of_filter in Hr as [_ Hr].
  eapply Forall_forall in Hq; eauto.
Qed.

Lemma Inv_scaleUpLoop (n active : nat) (s : Simulation) :
  Inv s → Inv (scaleUpLoop n active s).2.
Proof.
  revert active s. induction n as [|n IH]; intros active s HI; simpl; [done|].
  destruct (findIndex _ _) as [j|] eqn:Hj.
  - apply IH. apply findIndex_Some in Hj as (p & Hp & Hst & _).
    apply bool_decide_eq_true in Hst.
    apply Inv_upd_rep; [done|]. intros p' Hp' HP. simplify_eq.
    destruct HI as (_ & -> & _). auto.
  - destruct (_ <? _)%Z; [|done]. apply IH.
    destruct HI as (? & Hn & ? & ?). repeat split; simpl; try done.
    apply Forall_app. split; [done|]. rewrite Hn. repeat constructor. apply Prep_new.
Qed.

Lemma Inv_scaleDownLoop (n active : nat) (s : Simulation) :
  Inv s → Inv (scaleDownLoop n active s).2.
Proof.
  revert active s. induction n as [|n IH]; intros active s HI; simpl; [done|].
  destruct (findIndex _ _) as [j|] eqn:Hj; [|done].
  apply IH. apply findIndex_Some in Hj as (p & Hp & Hst & _).
  apply andb_true_iff in Hst as [Hst Hlen].
  apply bool_decide_eq_true in Hst. apply bool_decide_eq_true in Hlen.
  apply Inv_upd_rep; [done|]. intros p' Hp' HP. simplify_eq.
  destruct HI as (_ & -> & _). auto.
Qed.

Lemma Inv_reconcileReplicas (s : Simulation) : Inv s → Inv (reconcileReplicas s).
Proof.
  intros HI. unfold reconcileReplicas.
  pose proof (Inv_scaleUpLoop
    (Z.to_nat (targetReplicas s - Z.of_nat (length (filter (λ p, rep_state p ≠ stopped) (replicas s)))))
    (length (filter (λ p, rep_state p ≠ stopped) (replicas s))) s HI) as H1.
  destruct (scaleUpLoop _ _ s) as [a1 s1]. simpl in H1.
  apply Inv_scaleDownLoop. done.
Qed.

Lemma Inv_handleAutoscaling (s : Simulation) : Inv s → Inv (handleAutoscaling s).
Proof.
  intros HI. unfold handleAutoscaling.
  apply Inv_reconcileReplicas.
  repeat match goal with
  | |- Inv (if ?b then _ else _) => destruct b
  | |- Inv (match ?o with Some _ => _ | None => _ end) => destruct o
  | |- Inv (setTargetReplicas _ _) => apply Inv_setTargetReplicas
  end; done.
Qed.

Lemma Inv_assignToStartingStep (total : nat) (refs : list nat) (s : Simulation) (ki : nat * nat) :
  Inv s → Inv (assignToStartingStep total refs s ki).
Proof.
  intros HI. destruct ki as [k i]. unfold assignToStartingStep.
  destruct (refs !! _) as [j|]; [|done].
  destruct (replicas s !! j) as [p|]; [|done].
  destruct (_ <? _)%nat; [|done].
  apply Inv_repositionQueue, Inv_upd_req; [done|].
  intros r _ Hr. destruct HI as (_ & -> & _). auto.
Qed.

Lemma Inv_assignToStartingReplicas (refs : list nat) (s : Simulation) :
  Inv s → Inv (assignToStartingReplicas refs s).
Proof.
  intros HI. unfold assignToStartingReplicas.
  case_bool_decide; [done|]. case_bool_decide; [done|].
  apply Inv_foldl; [|done]. intros. by apply Inv_assignToStartingStep.
Qed.

Lemma isActiveReplica_capacityState (ct : Z) (p : Replica) :
  isActiveReplica (capacityState ct p) = true.
Proof.
  unfold isActiveReplica, capacityState. simpl. by destruct (_ <=? _)%Z.
Qed.

Lemma findSlot_Some (refs : list nat) (s : Simulation) (k : nat) :
  findSlot refs s = Some k → ∃ j, refs !! k = Some j ∧ hasCapacity s j = true.
Proof.
  unfold findSlot. intros H.
  destruct (findIndex _ _) as [i|] eqn:Hi; [|done]. injection H as <-.
  apply findIndex_Some in Hi as (i' & Hseq & Hcap & _).
  apply lookup_seq in Hseq as [-> _]. simpl in Hcap.
  destruct (refs !! _) as [j|]; [|done]. eauto.
Qed.

Lemma Inv_assignTo (refs : list nat) (i k : nat) (s : Simulation) :
  Inv s → allActive refs s →
  (∃ j, refs !! k = Some j ∧ hasCapacity s j = true) →
  Inv (assignTo refs i k s) ∧ allActive refs (assignTo refs i k s).
Proof.
  intros HI Hact (j & Hk & Hcap). unfold assignTo. rewrite Hk.
  unfold hasCapacity in Hcap.
  destruct (replicas s !! j) as [p|] eqn:Hp; [|done].
  destruct (requests s !! i) as [r|] eqn:Hr; [|done].
  apply Z.ltb_lt in Hcap.
  destruct (Hact j) as (p' & Hp' & Hactive); [by eapply list_elem_of_lookup_2|].
  simplify_eq.
  pose proof HI as (Hc & Hn & _). rewrite Hc, Hn in *.
  destruct (P_assign r p) as [Hq1 Hp1]; eauto using Inv_lookup_req, Inv_lookup_rep.
  split.
  - apply Inv_repositionQueue, Inv_set_roundRobinIndex, Inv_upd_req; auto.
    apply Inv_upd_rep.
    + apply Inv_upd_req; auto. intros r' Hr' _. by simplify_eq.
    + intros p' Hp'' _. simpl in Hp''. by simplify_eq.
  - intros j' Hj'. simpl. destruct (Hact j' Hj') as (q & Hq & Hqa).
    destruct (decide (j' = j)) as [->|Hne].
    + rewrite list_lookup_alter_eq, Hq. simpl. eexists. split; [done|].
      apply isActiveReplica_capacityState.
    + rewrite list_lookup_alter_ne by done. eauto.
Qed.

Lemma Inv_assignLoop (refs waiting : list nat) (s : Simulation) :
  Inv s → allActive refs s → Inv (assignLoop refs waiting s).
Proof.
  revert s. induction waiting as [|i rest IH]; intros s HI Hact; simpl; [done|].
  destruct (findSlot refs s) as [k|] eqn:Hk; [|done].
  apply findSlot_Some in Hk.
  destruct (Inv_assignTo refs i k s) as [H1 H2]; auto.
Qed.

Lemma allActive_activeRefs (s : Simulation) :
  allActive (jsSort (cmpAt cmpReplica (replicas s))
               (filterIdx isActiveReplica (replicas s))) s.
Proof.
  intros j Hj. apply elem_of_jsSort, elem_of_filterIdx in Hj. done.
Qed.

Lemma Inv_tryAssignToReplicas (s : Simulation) : Inv s → Inv (tryAssignToReplicas s).
Proof.
  intros HI. unfold tryAssignToReplicas.
  case_bool_decide; apply Inv_assignToStartingReplicas; [done|].
  apply Inv_assignLoop; [done|]. apply allActive_activeRefs.
Qed.

Lemma Inv_afterClock (s : Simulation) : Inv s → Inv (afterClock Math_sin s).
Proof.
  intros HI. unfold afterClock.
  apply Inv_updateMetrics, Inv_tryAssignToReplicas, Inv_handleAutoscaling,
    Inv_removeExited, Inv_updateReplicas, Inv_updateRequests, HI.
Qed.

End Preservation.

Arguments afterClock : simpl never.

Lemma tick_unfold Math_sin (deltaMs : Q) (s : Simulation) :
  tick Math_sin deltaMs s =
  if paused s then s
  else afterClock Math_sin (set_tick (num (state_tick s + deltaMs * speed s)) s).
Proof. reflexivity. Qed.

(** ** Frame properties

    What the phases of [tick] leave alone. *)

Lemma fmap_alter_same {A B} (f : A → B) (g : A → A) (i : nat) (l : list A) :
  (∀ a, f (g a) = f a) → f <$> alter g i l = f <$> l.
Proof.
  intros Hg. revert i. induction l as [|a l IH]; intros [|i]; simpl; [done..| |].
  - by rewrite Hg.
  - f_equal. apply IH.
Qed.

Lemma pool_length s s' : pool s s' → length (replicas s') = length (replicas s).
Proof. intros [_ H]. by rewrite <- (length_fmap rep_id), H, length_fmap. Qed.

Lemma frame_refl s : frame s s.
Proof. by repeat split. Qed.

Lemma frame_trans s1 s2 s3 : frame s1 s2 → frame s2 s3 → frame s1 s3.
Proof. unfold frame. intros. destruct_and!. repeat split; congruence. Qed.

Lemma pool_refl s : pool s s.
Proof. by split. Qed.

Lemma pool_trans s1 s2 s3 : pool s1 s2 → pool s2 s3 → pool s1 s3.
Proof. unfold pool. intros. destruct_and!. split; congruence. Qed.

Lemma frame_foldl {B} (f : Simulation → B → Simulation) (l : list B) (s : Simulation) :
  (∀ s b, frame s (f s b)) → frame s (foldl f s l).
Proof.
  intros Hf. revert s. induction l as [|b l IH]; intros s; simpl; [apply frame_refl|].
  eapply frame_trans; [apply Hf | apply IH].
Qed.

Lemma pool_foldl {B} (f : Simulation → B → Simulation) (l : list B) (s : Simulation) :
  (∀ s b, pool s (f s b)) → pool s (foldl f s l).
Proof.
  intros Hf. revert s. induction l as [|b l IH]; intros s; simpl; [apply pool_refl|].
  eapply pool_trans; [apply Hf | apply IH].
Qed.

Ltac frame_cases :=
  repeat case_match; repeat split; simpl;
  rewrite ?length_alter, ?fmap_alter_same by done; try done.

Lemma updateRequest_frame Math_sin i s : frame s (updateRequest Math_sin i s).
Proof. unfold updateRequest. frame_cases. Qed.

Lemma updateRequest_pool Math_sin i s : pool s (updateRequest Math_sin i s).
Proof. unfold updateRequest. frame_cases. Qed.

Lemma updateRequest_roundRobinIndex Math_sin i s :
  roundRobinIndex (updateRequest Math_sin i s) = roundRobinIndex s.
Proof. unfold updateRequest. frame_cases. Qed.

Lemma updateRequests_frame Math_sin s : frame s (updateRequests Math_sin s).
Proof. apply frame_foldl. intros. apply updateRequest_frame. Qed.

Lemma updateRequests_pool Math_sin s : pool s (updateRequests Math_sin s).
Proof. apply pool_foldl. intros. apply updateRequest_pool. Qed.

Lemma updateReplicas_frame s : frame s (updateReplicas s).
Proof. by repeat split. Qed.

Lemma rep_id_updateReplica now cfg p : rep_id (updateReplica now cfg p) = rep_id p.
Proof. unfold updateReplica. by repeat (case_match; simpl). Qed.

Lemma updateReplicas_pool s : pool s (updateReplicas s).
Proof.
  split; simpl; [done|]. rewrite <- list_fmap_compose.
  apply list_fmap_ext. intros _ p _. apply rep_id_updateReplica.
Qed.

Lemma removeExited_frame s : frame s (removeExited s).
Proof. by repeat split. Qed.

Lemma removeExited_pool s : pool s (removeExited s).
Proof. by split. Qed.

Lemma scaleUpLoop_frame n active s :
  frame s (scaleUpLoop n active s).2 ∧
  requests (scaleUpLoop n active s).2 = requests s ∧
  roundRobinIndex (scaleUpLoop n active s).2 = roundRobinIndex s ∧
  lastActivityTick (scaleUpLoop n active s).2 = lastActivityTick s.
Proof.
  revert active s. induction n as [|n IH]; intros active s; simpl.
  - split; [apply frame_refl | done].
  - repeat case_match; try (split; [apply frame_refl | done]).
    + destruct (IH (S active) (upd_rep n0 (λ p, with_currentRequestIds []
                  (with_startingAt (Some (state_tick s)) (with_rep_state starting p))) s))
        as (Hf & ? & ? & ?).
      split; [|done]. eapply frame_trans; [|exact Hf]. by repeat split.
    + match goal with |- context [scaleUpLoop n (S active) ?s'] =>
        destruct (IH (S active) s') as (Hf & ? & ? & ?) end.
      split; [|done]. eapply frame_trans; [|exact Hf]. by repeat split.
Qed.

Lemma scaleDownLoop_frame n active s :
  frame s (scaleDownLoop n active s).2 ∧
  requests (scaleDownLoop n active s).2 = requests s ∧
  roundRobinIndex (scaleDownLoop n active s).2 = roundRobinIndex s ∧
  lastActivityTick (scaleDownLoop n active s).2 = lastActivityTick s.
Proof.
  revert active s. induction n as [|n IH]; intros active s; simpl.
  - split; [apply frame_refl | done].
  - case_match; [|split; [apply frame_refl | done]].
    match goal with |- context [scaleDownLoop n _ ?s'] =>
      destruct (IH (Nat.pred active) s') as (Hf & ? & ? & ?) end.
    split; [|done]. eapply frame_trans; [|exact Hf]. by repeat split.
Qed.

Lemma scaleDownLoop_pool n active s : pool s (scaleDownLoop n active s).2.
Proof.
  revert active s. induction n as [|n IH]; intros active s; simpl; [apply pool_refl|].
  case_match; [|apply pool_refl].
  eapply pool_trans; [|apply IH]. split; simpl; [done|]. by apply fmap_alter_same.
Qed.

Lemma reconcileReplicas_frame s :
  frame s (reconcileReplicas s) ∧
  requests (reconcileReplicas s) = requests s ∧
  roundRobinIndex (reconcileReplicas s) = roundRobinIndex s ∧
  lastActivityTick (reconcileReplicas s) = lastActivityTick s.
Proof.
  unfold reconcileReplicas.
  match goal with |- context [scaleUpLoop ?n ?a s] =>
    pose proof (scaleUpLoop_frame n a s) as (Hf & Hq & Hr & Ha);
    destruct (scaleUpLoop n a s) as [a1 s1] end.
  simpl in *.
  match goal with |- context [scaleDownLoop ?n ?a s1] =>
    pose proof (scaleDownLoop_frame n a s1) as (Hf' & Hq' & Hr' & Ha') end.
  split; [eapply frame_trans; eauto|]. split_and!; congruence.
Qed.

Lemma length_foldl_alter {A B} (f : B → A → A) (g : B → nat) (l : list A) (ks : list B) :
  length (foldl (λ rs k, alter (f k) (g k) rs) l ks) = length l.
Proof.
  revert l. induction ks as [|k ks IH]; intros l; simpl; [done|].
  by rewrite IH, length_alter.
Qed.

Lemma repositionQueue_length s :
  length (requests (repositionQueue s)) = length (requests s).
Proof.
  unfold repositionQueue. simpl.
  apply (length_foldl_alter (λ ki, with_targetX _) snd).
Qed.

Lemma assignToStartingStep_frame total refs s ki :
  frame s (assignToStartingStep total refs s ki) ∧
  replicas (assignToStartingStep total refs s ki) = replicas s ∧
  roundRobinIndex (assignToStartingStep total refs s ki) = roundRobinIndex s ∧
  lastActivityTick (assignToStartingStep total refs s ki) = lastActivityTick s ∧
  nextReplicaId (assignToStartingStep total refs s ki) = nextReplicaId s.
Proof. unfold assignToStartingStep. destruct ki. frame_cases. Qed.

Lemma assignToStarting_foldl_frame total srefs ks s :
  let s' := foldl (assignToStartingStep total srefs) s ks in
  frame s s' ∧ replicas s' = replicas s ∧ roundRobinIndex s' = roundRobinIndex s ∧
  lastActivityTick s' = lastActivityTick s ∧ nextReplicaId s' = nextReplicaId s.
Proof.
  revert s. induction ks as [|k ks IH]; intros s; simpl.
  - split; [apply frame_refl|done].
  - destruct (IH (assignToStartingStep total srefs s k)) as (Hf & Hr & Hi & Ha & Hn).
    destruct (assignToStartingStep_frame total srefs s k) as (Hf' & Hr' & Hi' & Ha' & Hn').
    split; [eapply frame_trans; eauto|]. split_and!; congruence.
Qed.

Lemma assignToStartingReplicas_frame refs s :
  frame s (assignToStartingReplicas refs s) ∧
  replicas (assignToStartingReplicas refs s) = replicas s ∧
  roundRobinIndex (assignToStartingReplicas refs s) = roundRobinIndex s ∧
  lastActivityTick (assignToStartingReplicas refs s) = lastActivityTick s ∧
  nextReplicaId (assignToStartingReplicas refs s) = nextReplicaId s.
Proof.
  unfold assignToStartingReplicas.
  case_bool_decide; [split; [apply frame_refl|done]|].
  case_bool_decide; [split; [apply frame_refl|done]|].
  apply assignToStarting_foldl_frame.
Qed.

Lemma assignTo_frame refs i k s :
  frame s (assignTo refs i k s) ∧ pool s (assignTo refs i k s) ∧
  lastActivityTick (assignTo refs i k s) = lastActivityTick s.
Proof. unfold assignTo, pool. frame_cases. Qed.

Lemma assignLoop_frame refs waiting s :
  frame s (assignLoop refs waiting s) ∧ pool s (assignLoop refs waiting s) ∧
  lastActivityTick (assignLoop refs waiting s) = lastActivityTick s.
Proof.
  revert s. induction waiting as [|i rest IH]; intros s; simpl.
  - split; [apply frame_refl|]. split; [apply pool_refl|done].
  - case_match; [|split; [apply frame_refl|]; split; [apply pool_refl|done]].
    destruct (IH (assignTo refs i n s)) as (Hf & Hp & Ha).
    destruct (assignTo_frame refs i n s) as (Hf' & Hp' & Ha').
    split; [eapply frame_trans; eauto|]. split; [eapply pool_trans; eauto|congruence].
Qed.

Lemma tryAssignToReplicas_frame s :
  frame s (tryAssignToReplicas s) ∧ pool s (tryAssignToReplicas s) ∧
  lastActivityTick (tryAssignToReplicas s) = lastActivityTick s.
Proof.
  unfold tryAssignToReplicas. case_bool_decide.
  - match goal with |- context [assignToStartingReplicas ?l s] =>
      destruct (assignToStartingReplicas_frame l s) as (Hf & Hr & _ & Ha & Hn) end.
    split; [done|]. split; [|done]. split; [done|]. by rewrite Hr.
  - match goal with |- context [assignLoop ?r ?w s] =>
      destruct (assignLoop_frame r w s) as (Hf & Hp & Ha);
      set (s1 := assignLoop r w s) in * end.
    match goal with |- context [assignToStartingReplicas ?l s1] =>
      destruct (assignToStartingReplicas_frame l s1) as (Hf' & Hr' & _ & Ha' & Hn') end.
    split; [eapply frame_trans; eauto|]. split; [|congruence].
    eapply pool_trans; [exact Hp|]. split; [done|]. by rewrite Hr'.
Qed.

Lemma handleAutoscaling_frame s :
  config (handleAutoscaling s) = config s ∧
  state_tick (handleAutoscaling s) = state_tick s ∧
  speed (handleAutoscaling s) = speed s ∧
  paused (handleAutoscaling s) = paused s ∧
  nextId (handleAutoscaling s) = nextId s ∧
  metrics (handleAutoscaling s) = metrics s ∧
  requests (handleAutoscaling s) = requests s ∧
  roundRobinIndex (handleAutoscaling s) = roundRobinIndex s.
Proof.
  unfold handleAutoscaling.
  match goal with |- context [reconcileReplicas ?s3] =>
    destruct (reconcileReplicas_frame s3) as ((-> & -> & -> & -> & -> & -> & _) & -> & -> & _)
  end.
  repeat case_match; done.
Qed.

Lemma updateMetrics_frame s :
  config (updateMetrics s) = config s ∧ state_tick (updateMetrics s) = state_tick s ∧
  speed (updateMetrics s) = speed s ∧ paused (updateMetrics s) = paused s ∧
  nextId (updateMetrics s) = nextId s ∧ requests (updateMetrics s) = requests s ∧
  replicas (updateMetrics s) = replicas s ∧
  targetReplicas (updateMetrics s) = targetReplicas s ∧
  nextReplicaId (updateMetrics s) = nextReplicaId s ∧
  lastActivityTick (updateMetrics s) = lastActivityTick s ∧
  roundRobinIndex (updateMetrics s) = roundRobinIndex s.
Proof. by repeat split. Qed.

(** ** The pool of replicas *)

Lemma poolInv_length cfg s : poolInv cfg s → length (replicas s) = nextReplicaId s.
Proof.
  intros (_ & H & _). by rewrite <- (length_fmap rep_id), H, length_seq.
Qed.

Lemma poolInv_frame_pool cfg s s' :
  config s' = config s → pool s s' → poolInv cfg s → poolInv cfg s'.
Proof.
  intros Hc [Hn Hids] (? & ? & ?). unfold poolInv. rewrite Hc, Hn, Hids. done.
Qed.

Lemma scaleUpLoop_poolInv cfg n active s :
  poolInv cfg s → poolInv cfg (scaleUpLoop n active s).2.
Proof.
  revert active s. induction n as [|n IH]; intros active s HI; simpl; [done|].
  destruct (findIndex _ _) as [j|].
  - apply IH. eapply poolInv_frame_pool; [| |exact HI]; [done|].
    split; simpl; [done|]. by apply fmap_alter_same.
  - destruct (_ <? _)%Z eqn:Hlt; [|done]. apply IH.
    apply Z.ltb_lt in Hlt.
    pose proof (poolInv_length _ _ HI) as Hlen.
    destruct HI as (Hc & Hids & Hb). repeat split; simpl.
    + done.
    + rewrite fmap_app, Hids. change (0%nat :: seq 1 (nextReplicaId s)) with (seq 0 (S (nextReplicaId s))).
      by rewrite seq_S.
    + rewrite Hc in Hlt. lia.
Qed.

Lemma reconcileReplicas_poolInv cfg s : poolInv cfg s → poolInv cfg (reconcileReplicas s).
Proof.
  intros HI. unfold reconcileReplicas.
  match goal with |- context [scaleUpLoop ?n ?a s] =>
    pose proof (scaleUpLoop_poolInv cfg n a s HI) as H1;
    destruct (scaleUpLoop n a s) as [a1 s1] end.
  simpl in H1.
  match goal with |- context [scaleDownLoop ?n ?a s1] =>
    pose proof (scaleDownLoop_frame n a s1) as ((Hc & _) & _);
    pose proof (scaleDownLoop_pool n a s1) as Hp end.
  eapply poolInv_frame_pool; eauto.
Qed.

Lemma handleAutoscaling_poolInv cfg s : poolInv cfg s → poolInv cfg (handleAutoscaling s).
Proof.
  intros HI. unfold handleAutoscaling. apply reconcileReplicas_poolInv.
  repeat case_match; done.
Qed.

Lemma afterClock_poolInv Math_sin cfg s : poolInv cfg s → poolInv cfg (afterClock Math_sin s).
Proof.
  intros HI. unfold afterClock.
  destruct (updateRequests_frame Math_sin s) as (Hc1 & _).
  pose proof (updateRequests_pool Math_sin s) as Hp1.
  set (s2 := updateRequests Math_sin s) in *. clearbody s2.
  assert (H4 : poolInv cfg (removeExited (updateReplicas s2))).
  { eapply poolInv_frame_pool; [| |exact HI]; [exact Hc1|].
    eapply pool_trans; [exact Hp1|]. eapply pool_trans; [apply updateReplicas_pool|].
    apply removeExited_pool. }
  apply handleAutoscaling_poolInv in H4.
  set (s5 := handleAutoscaling _) in *. clearbody s5.
  destruct (tryAssignToReplicas_frame s5) as ((Hc6 & _) & Hp6 & _).
  set (s6 := tryAssignToReplicas s5) in *. clearbody s6.
  eapply poolInv_frame_pool; [| |exact H4]; [exact Hc6|].
  eapply pool_trans; [exact Hp6|]. by split.
Qed.

Lemma tick_poolInv Math_sin cfg deltaMs s :
  poolInv cfg s → poolInv cfg (tick Math_sin deltaMs s).
Proof.
  intros HI. rewrite tick_unfold. destruct (paused s); [done|].
  by apply afterClock_poolInv.
Qed.

Lemma newSimulation_poolInv cfg : poolInv cfg (newSimulation cfg).
Proof.
  unfold newSimulation. case_match; repeat split; simpl; lia.
Qed.

Lemma apply_poolInv Math_sin cfg o s :
  isSetConfig o = false → poolInv cfg s → poolInv cfg (apply Math_sin o s).
Proof.
  intros Ho HI. destruct o; simpl; try done.
  - by apply tick_poolInv.
  - unfold reset. destruct HI as (Hc & _). rewrite Hc.
    case_match; repeat split; simpl; lia.
Qed.

Lemma run_invariant Math_sin (P : Simulation → Prop) (ok : Op → Prop) ops s :
  (∀ o s, ok o → P s → P (apply Math_sin o s)) →
  Forall ok ops → P s → P (run Math_sin ops s).
Proof.
  intros Hstep Hops. revert s. induction Hops as [|o ops Ho _ IH]; intros s Hs; simpl; [done|].
  apply IH, Hstep; done.
Qed.

Lemma scaleUpLoop_no_stopped n active s :
  Forall (λ p, rep_state p ≠ stopped) (replicas s) →
  Forall (λ p, rep_state p ≠ stopped) (replicas (scaleUpLoop n active s).2).
Proof.
  revert active s. induction n as [|n IH]; intros active s Hs; simpl; [done|].
  destruct (findIndex _ _) as [j|] eqn:Hj.
  - apply IH. simpl. apply Forall_alter; [done|]. by intros.
  - destruct (_ <? _)%Z; [|done]. apply IH. simpl.
    apply Forall_app. split; [done|]. by repeat constructor.
Qed.

(** A new identity is created only when no stopped replica is left. *)
Lemma scaleUpLoop_restart_first n active s :
  length (replicas (scaleUpLoop n active s).2) ≠ length (replicas s) →
  Forall (λ p, rep_state p ≠ stopped) (replicas (scaleUpLoop n active s).2).
Proof.
  revert active s. induction n as [|n IH]; intros active s Hlen; simpl in *; [done|].
  destruct (findIndex _ _) as [j|] eqn:Hj.
  - apply IH. intros Heq. apply Hlen. rewrite Heq. simpl. apply length_alter.
  - destruct (_ <? _)%Z; [|done]. apply scaleUpLoop_no_stopped. simpl.
    apply Forall_app. split; [|by repeat constructor].
    apply findIndex_None in Hj. eapply Forall_impl; [exact Hj|].
    intros p Hp Hst. apply Hp. by apply bool_decide_eq_true.
Qed.

Lemma scaleDownLoop_no_stopped n active s :
  Forall (λ p, rep_state p ≠ stopped) (replicas s) →
  Forall (λ p, rep_state p ≠ stopped) (replicas (scaleDownLoop n active s).2).
Proof.
  revert active s. induction n as [|n IH]; intros active s Hs; simpl; [done|].
  destruct (findIndex _ _) as [j|]; [|done].
  apply IH. simpl. apply Forall_alter; [done|]. by intros.
Qed.

Lemma reconcileReplicas_restart_first s :
  length (replicas (reconcileReplicas s)) ≠ length (replicas s) →
  Forall (λ p, rep_state p ≠ stopped) (replicas (reconcileReplicas s)).
Proof.
  unfold reconcileReplicas.
  match goal with |- context [scaleUpLoop ?n ?a s] =>
    pose proof (scaleUpLoop_restart_first n a s) as H1;
    destruct (scaleUpLoop n a s) as [a1 s1] end.
  simpl in H1. intros Hlen. apply scaleDownLoop_no_stopped, H1.
  by rewrite (pool_length _ _ (scaleDownLoop_pool _ _ _)) in Hlen.
Qed.

Lemma countIf_le {A} (p : A → bool) (l : list A) : (countIf p l ≤ length l)%nat.
Proof. apply length_filter. Qed.

(** C9. Under a fixed configuration with [0 <= maxReplicas], every state
    reached from a fresh engine has at most [maxReplicas] replicas that
    are not stopped and at most [maxReplicas] replicas in all; their
    identities are the distinct numbers [0 .. nextReplicaId - 1], all
    below [maxReplicas]; and a reconciliation that creates a new identity
    leaves no stopped replica behind, the stopped ones being restarted
    first. *)
Theorem pool_bound Math_sin (cfg : SimulationConfig) (ops : list Op) :
  (0 ≤ maxReplicas cfg)%Z →
  Forall (λ o, isSetConfig o = false) ops →
  let s := run Math_sin ops (newSimulation cfg) in
  (Z.of_nat (countIf (λ p, negb (bool_decide (rep_state p = stopped))) (replicas s))
     ≤ maxReplicas cfg)%Z ∧
  (Z.of_nat (length (replicas s)) ≤ maxReplicas cfg)%Z ∧
  rep_id <$> replicas s = seq 0 (nextReplicaId s) ∧
  (Z.of_nat (nextReplicaId s) ≤ maxReplicas cfg)%Z ∧
  (length (replicas (reconcileReplicas s)) ≠ length (replicas s) →
   Forall (λ p, rep_state p ≠ stopped) (replicas (reconcileReplicas s))).
Proof.
  intros Hmax Hops s.
  assert (HI : poolInv cfg s).
  { apply (run_invariant Math_sin (poolInv cfg) (λ o, isSetConfig o = false)); auto.
    - intros. by apply apply_poolInv.
    - apply newSimulation_poolInv. }
  pose proof (poolInv_length _ _ HI) as Hlen.
  destruct HI as (_ & Hids & Hb).
  pose proof (countIf_le (λ p, negb (bool_decide (rep_state p = stopped))) (replicas s)).
  split_and!; [lia | lia | done | lia | apply reconcileReplicas_restart_first].
Qed.

Lemma pool_bound_witness :
  (0 ≤ maxReplicas DEFAULT_CONFIG)%Z ∧
  Forall (λ o, isSetConfig o = false) [AddRequest 1; Tick 100; SetTargetReplicas 12; Tick 100] ∧
  (Z.of_nat (length (replicas (run zeroSin [AddRequest 1; Tick 100; SetTargetReplicas 12; Tick 100]
                                 (newSimulation DEFAULT_CONFIG))))
     ≤ maxReplicas DEFAULT_CONFIG)%Z.
Proof.
  split; [discriminate|]. split; [repeat constructor|].
  apply (pool_bound zeroSin DEFAULT_CONFIG
           [AddRequest 1; Tick 100; SetTargetReplicas 12; Tick 100]);
    [discriminate | repeat constructor].
Defined.

(** ** Capacity of a replica *)

Lemma capOK_push ct id p :
  capOK ct p →
  (rep_state p = ready ∨ (Z.of_nat (length (currentRequestIds p)) < ct)%Z) →
  capOK ct (capacityState ct (pushRequestId id p)).
Proof.
  unfold capOK, capacityState, pushRequestId. simpl. rewrite length_app. simpl.
  intros (H1 & H2 & H3) Hfree.
  destruct (_ <=? _)%Z eqn:Hle; simpl.
  - split_and!; [|done..]. destruct Hfree as [Hr|Hlt]; [specialize (H2 Hr)|]; lia.
  - apply Z.leb_gt in Hle. split_and!; [lia|lia|done].
Qed.

Lemma length_filter_ne (id : nat) (l : list nat) :
  (length (filter (λ i, i ≠ id) l) ≤ length l)%nat.
Proof. apply length_filter. Qed.

Lemma capOK_remove ct id p : capOK ct p → capOK ct (removeRequestId id p).
Proof.
  unfold capOK, removeRequestId. simpl.
  pose proof (length_filter_ne id (currentRequestIds p)).
  intros (H1 & H2 & H3). split_and!; [lia| |].
  - intros Hr. specialize (H2 Hr). lia.
  - intros Hr Hb. specialize (H3 Hr Hb). lia.
Qed.

Lemma capOK_release ct id p :
  capOK ct p → capOK ct (capacityState ct (removeRequestId id p)).
Proof.
  unfold capOK, capacityState, removeRequestId. simpl.
  pose proof (length_filter_ne id (currentRequestIds p)).
  intros (H1 & H2 & H3).
  destruct (_ <=? _)%Z eqn:Hle; simpl.
  - split_and!; [lia|done|done].
  - apply Z.leb_gt in Hle. split_and!; [lia|lia|done].
Qed.

Lemma capOK_empty ct id st a b : capOK ct (mkReplica id st a b []).
Proof. unfold capOK. simpl. split_and!; lia. Qed.

Lemma afterClock_capInv Math_sin cfg s :
  capInv cfg s → capInv cfg (afterClock Math_sin s).
Proof.
  intros [Hcfg Hcap].
  assert (HI : stepInv cfg (state_tick s) (λ _, True) (capOK (concurrencyTarget cfg)) s).
  { repeat split; [done| |done]. apply Forall_true. done. }
  apply (Inv_afterClock Math_sin) in HI.
  - destruct HI as (Hc & _ & _ & Hp). done.
  - done.
  - done.
  - done.
  - done.
  - done.
  - done.
  - done.
  - intros r p _ Hp _ Hr. split; [done|]. apply capOK_push; auto.
  - intros p id. apply capOK_remove.
  - intros p id Hp _. by apply capOK_release.
  - done.
  - done.
  - intros p (H1 & H2 & H3) Hst _ _. unfold capOK. simpl.
    rewrite Hst in H3. specialize (H3 ltac:(done) ltac:(done)).
    split_and!; [lia|lia|done].
  - intros p (H1 & H2 & H3) Hst. unfold capOK. simpl.
    rewrite Hst in H3. specialize (H3 ltac:(done) ltac:(done)).
    split_and!; [lia|done|lia].
  - intros p _ _. apply capOK_empty.
  - intros id. apply capOK_empty.
  - intros p _ _ _. apply capOK_empty.
  - intros r p _ Hp _ Hlt. split; [done|]. apply capOK_push; auto.
  - done.
Qed.

Lemma apply_capInv Math_sin cfg o s :
  isSetConfig o = false → capInv cfg s → capInv cfg (apply Math_sin o s).
Proof.
  intros Ho [Hc Hcap]. destruct o; simpl; try done.
  - rewrite tick_unfold. destruct (paused s); [done|].
    apply afterClock_capInv. by split.
  - unfold reset. rewrite Hc. case_match; split; simpl; done.
Qed.

Lemma newSimulation_capInv cfg : capInv cfg (newSimulation cfg).
Proof. unfold newSimulation. case_match; split; simpl; done. Qed.

(** C1 (amended). Under a fixed configuration, every replica of every
    state reached from a fresh engine claims at most [concurrencyTarget]
    requests, and at most one when [concurrencyTarget] is below 1; the
    field [predictConcurrency] plays no part. *)
Theorem capacity_invariant Math_sin (cfg : SimulationConfig) (ops : list Op) :
  Forall (λ o, isSetConfig o = false) ops →
  Forall (λ p, (Z.of_nat (length (currentRequestIds p))
                 ≤ Z.max 1 (concurrencyTarget cfg))%Z)
         (replicas (run Math_sin ops (newSimulation cfg))).
Proof.
  intros Hops.
  assert (HI : capInv cfg (run Math_sin ops (newSimulation cfg))).
  { apply (run_invariant Math_sin (capInv cfg) (λ o, isSetConfig o = false)); auto.
    - intros. by apply apply_capInv.
    - apply newSimulation_capInv. }
  destruct HI as [_ HI]. eapply Forall_impl; [exact HI|].
  intros p (H & _). exact H.
Qed.

Lemma capacity_invariant_witness :
  Forall (λ o, isSetConfig o = false) twoSlotRun ∧
  Forall (λ p, (Z.of_nat (length (currentRequestIds p))
                 ≤ Z.max 1 (concurrencyTarget twoSlotConfig))%Z)
         (replicas (run zeroSin twoSlotRun (newSimulation twoSlotConfig))).
Proof.
  split; [repeat constructor|].
  apply (capacity_invariant zeroSin twoSlotConfig twoSlotRun). repeat constructor.
Defined.

(** C1 as stated fails: a reachable replica claims more requests than
    [predictConcurrency]. *)
Lemma capacity_predictConcurrency_counterexample :
  Forall (λ o, isSetConfig o = false) twoSlotRun ∧
  ¬ Forall (λ p, (Z.of_nat (length (currentRequestIds p))
                    ≤ predictConcurrency twoSlotConfig)%Z)
           (replicas (run zeroSin twoSlotRun (newSimulation twoSlotConfig))).
Proof.
  split; [repeat constructor|].
  assert (Hrun : currentRequestIds <$> replicas (run zeroSin twoSlotRun (newSimulation twoSlotConfig))
                 = [[0; 1]]%nat) by (vm_compute; reflexivity).
  intros H.
  destruct (replicas _) as [|p [|? ?]]; [done| |done].
  injection Hrun as Hp. apply Forall_cons in H as [H _].
  rewrite Hp in H. vm_compute in H. by apply H.
Qed.

(** ** Unreachable request states *)

Lemma afterClock_liveState Math_sin s :
  Forall liveState (requests s) → Forall liveState (requests (afterClock Math_sin s)).
Proof.
  intros Hq.
  assert (HI : stepInv (config s) (state_tick s) liveState (λ _, True) s).
  { repeat split; [done|]. apply Forall_true. done. }
  apply (Inv_afterClock Math_sin) in HI; [by destruct HI as (_ & _ & ? & _)|..];
    try done; intros; split; done.
Qed.

Lemma apply_liveState Math_sin o s :
  Forall liveState (requests s) → Forall liveState (requests (apply Math_sin o s)).
Proof.
  intros Hq. destruct o; simpl; try done.
  - apply Forall_app. split; [done|]. by repeat constructor.
  - rewrite tick_unfold. destruct (paused s); [done|].
    by apply afterClock_liveState.
  - unfold reset. by case_match.
Qed.

(** The only state a delivering request moves to is [completed]. *)
Lemma updateRequest_delivering Math_sin i s r :
  requests s !! i = Some r → req_state r = delivering →
  ∃ r', requests (updateRequest Math_sin i s) !! i = Some r' ∧
        (req_state r' = delivering ∨ req_state r' = completed).
Proof.
  intros Hr Hst. unfold updateRequest.
  set (s1 := upd_req i _ s).
  assert (H1 : requests s1 !! i = Some (with_x (num (x r + (targetX r - x r) * 0.12)) r)).
  { subst s1. fsimpl. by rewrite list_lookup_alter_eq, Hr. }
  rewrite H1. fsimpl. rewrite Hst. clearbody s1.
  repeat case_match; fsimpl; rewrite ?list_lookup_alter_eq, H1;
    eexists; (split; [reflexivity|]); fsimpl; auto.
Qed.

(** C7. No request of a state reached from a fresh engine by any sequence
    of public operations is [failed] or [rate_limited], and the update
    of a delivering request leaves it delivering or makes it completed. *)
Theorem failed_and_rate_limited_unreachable Math_sin (cfg : SimulationConfig) (ops : list Op) :
  Forall (λ r, req_state r ≠ failed ∧ req_state r ≠ rate_limited)
         (requests (run Math_sin ops (newSimulation cfg))) ∧
  ∀ s i r, requests s !! i = Some r → req_state r = delivering →
    ∃ r', requests (updateRequest Math_sin i s) !! i = Some r' ∧
          (req_state r' = delivering ∨ req_state r' = completed).
Proof.
  split; [|intros s i r; apply updateRequest_delivering].
  apply (run_invariant Math_sin (λ s, Forall liveState (requests s)) (λ _, True)).
  - intros o s _. apply apply_liveState.
  - by apply Forall_true.
  - unfold newSimulation. by case_match.
Qed.

(** ** Metrics *)

Lemma afterClock_metrics Math_sin s :
  let s' := afterClock Math_sin s in
  m_queued (metrics s') = countIf isWaiting (requests s') ∧
  m_processing (metrics s') =
    countIf (λ r, bool_decide (req_state r = processing)) (requests s') ∧
  m_replicas (metrics s') =
    countIf (λ p, negb (bool_decide (rep_state p = stopped))) (replicas s') ∧
  m_readyReplicas (metrics s') =
    countIf (λ p, bool_decide (rep_state p = ready)) (replicas s') ∧
  m_completed (metrics s') = m_completed (metrics s) ∧
  m_failed (metrics s') = m_failed (metrics s) ∧
  m_expired (metrics s') = m_expired (metrics s).
Proof.
  unfold afterClock.
  destruct (updateRequests_frame Math_sin s) as (_ & _ & _ & _ & _ & Hm2 & _).
  set (s2 := updateRequests Math_sin s) in *. clearbody s2.
  destruct (handleAutoscaling_frame (removeExited (updateReplicas s2)))
    as (_ & _ & _ & _ & _ & Hm5 & _).
  set (s5 := handleAutoscaling _) in *. clearbody s5.
  destruct (tryAssignToReplicas_frame s5) as ((_ & _ & _ & _ & _ & Hm6 & _) & _).
  set (s6 := tryAssignToReplicas s5) in *. clearbody s6.
  cbn zeta. unfold updateMetrics. fsimpl.
  rewrite Hm6, Hm5.
  change (metrics (removeExited (updateReplicas s2))) with (metrics s2).
  rewrite Hm2. done.
Qed.

(** C2 (amended). An Advance step that is not paused recomputes the
    fields [queued], [processing], [replicas] and [readyReplicas] from the
    request and replica collections it ends with, and leaves [completed],
    [failed] and [expired] as they were; these three are counters that
    only [recordCompleted], [recordFailed] and [recordExpired] increment
    and [reset] clears. No other operation changes any field. *)
Theorem metrics_by_operation Math_sin (o : Op) (s : Simulation) :
  let s' := apply Math_sin o s in
  let m := metrics s in
  match o with
  | Tick _ =>
      if paused s then metrics s' = m
      else
        m_queued (metrics s') = countIf isWaiting (requests s') ∧
        m_processing (metrics s') =
          countIf (λ r, bool_decide (req_state r = processing)) (requests s') ∧
        m_replicas (metrics s') =
          countIf (λ p, negb (bool_decide (rep_state p = stopped))) (replicas s') ∧
        m_readyReplicas (metrics s') =
          countIf (λ p, bool_decide (rep_state p = ready)) (replicas s') ∧
        m_completed (metrics s') = m_completed m ∧
        m_failed (metrics s') = m_failed m ∧
        m_expired (metrics s') = m_expired m
  | RecordCompleted =>
      metrics s' = mkMetrics (m_queued m) (m_processing m) (S (m_completed m)) (m_failed m)
                     (m_expired m) (m_replicas m) (m_readyReplicas m)
  | RecordFailed =>
      metrics s' = mkMetrics (m_queued m) (m_processing m) (m_completed m) (S (m_failed m))
                     (m_expired m) (m_replicas m) (m_readyReplicas m)
  | RecordExpired =>
      metrics s' = mkMetrics (m_queued m) (m_processing m) (m_completed m) (m_failed m)
                     (S (m_expired m)) (m_replicas m) (m_readyReplicas m)
  | Reset => metrics s' = initialMetrics
  | _ => metrics s' = m
  end.
Proof.
  destruct o; cbn zeta; try reflexivity.
  - cbn [apply]. rewrite tick_unfold. destruct (paused s); [done|].
    apply (afterClock_metrics Math_sin (set_tick _ s)).
  - cbn [apply]. unfold reset. by case_match.
Qed.

(** C2 as stated fails: [recordCompleted] mutates a field outside of any
    Advance step, and the following step keeps the value although the
    collections it ends with are those of a run without the call. *)
Lemma metrics_not_derived_counterexample :
  let s0 := newSimulation DEFAULT_CONFIG in
  let s1 := run zeroSin [Tick 100] s0 in
  let s2 := run zeroSin [RecordCompleted; Tick 100] s0 in
  metrics (recordCompleted s0) ≠ metrics s0 ∧
  requests s1 = requests s2 ∧ replicas s1 = replicas s2 ∧
  m_completed (metrics s1) ≠ m_completed (metrics s2).
Proof. vm_compute. split_and!; done. Qed.

(** ** Following one request through a step *)

Lemma eqX_refl r : eqX r r.
Proof. unfold eqX. by destruct r. Qed.

Lemma eqX_trans r1 r2 r3 : eqX r1 r2 → eqX r2 r3 → eqX r1 r3.
Proof. unfold eqX. intros -> ->. by destruct r1. Qed.

Lemma eqX_with_targetX v r : eqX r (with_targetX v r).
Proof. unfold eqX. by destruct r. Qed.

Lemma eqX_fields r r' :
  eqX r r' →
  req_id r' = req_id r ∧ req_state r' = req_state r ∧ priority r' = priority r ∧
  createdAt r' = createdAt r ∧ queuedAt r' = queuedAt r ∧
  processorPickedAt r' = processorPickedAt r ∧
  processStartedAt r' = processStartedAt r ∧ completedAt r' = completedAt r ∧
  assignedReplica r' = assignedReplica r ∧ x r' = x r ∧ alpha r' = alpha r.
Proof. unfold eqX. intros ->. by repeat split. Qed.

Lemma othersEqX_refl L s : othersEqX L s s.
Proof. intros k r _ Hr. eauto using eqX_refl. Qed.

Lemma othersEqX_trans L1 L2 L s1 s2 s3 :
  othersEqX L1 s1 s2 → othersEqX L2 s2 s3 →
  (∀ k, k ∈ L1 ∨ k ∈ L2 → k ∈ L) → othersEqX L s1 s3.
Proof.
  intros H1 H2 HL k r Hk Hr.
  destruct (H1 k r) as (r2 & Hr2 & He2); [naive_solver|done|].
  destruct (H2 k r2) as (r3 & Hr3 & He3); [naive_solver|done|].
  eauto using eqX_trans.
Qed.

Lemma othersEqX_mono L L' s s' :
  othersEqX L s s' → (∀ k, k ∈ L → k ∈ L') → othersEqX L' s s'.
Proof. intros H HL k r Hk. apply H. naive_solver. Qed.

Lemma othersEqX_same_requests L s s' :
  requests s' = requests s → othersEqX L s s'.
Proof. intros Heq k r _ Hr. rewrite Heq. eauto using eqX_refl. Qed.

Lemma othersEqX_upd_req i f s : othersEqX [i] s (upd_req i f s).
Proof.
  intros k r Hk Hr. fsimpl.
  rewrite list_lookup_alter_ne by (intros ->; apply Hk; left).
  eauto using eqX_refl.
Qed.

Lemma foldl_alter_eqX {B} (f : B → Q) (g : B → nat) (l : list Request) (ks : list B) :
  Forall2 eqX l (foldl (λ rs k, alter (with_targetX (f k)) (g k) rs) l ks).
Proof.
  revert l. induction ks as [|k ks IH] using rev_ind; intros l; simpl.
  - apply Forall_Forall2_diag, Forall_true, eqX_refl.
  - rewrite foldl_app. simpl. apply Forall2_alter_r; [apply IH|].
    intros r r' _ _ He. eapply eqX_trans; [exact He|apply eqX_with_targetX].
Qed.

Lemma repositionQueue_eqX s : Forall2 eqX (requests s) (requests (repositionQueue s)).
Proof.
  unfold repositionQueue. fsimpl.
  apply (foldl_alter_eqX (λ ki, STAGE_X.queue + QofNat ki.1 * _) snd).
Qed.

Lemma othersEqX_repositionQueue L s : othersEqX L s (repositionQueue s).
Proof.
  intros k r _ Hr.
  destruct (Forall2_lookup_l _ _ _ _ _ (repositionQueue_eqX s) Hr) as (r' & ? & ?).
  eauto.
Qed.

Lemma repositionQueue_lookup s k r :
  requests s !! k = Some r → ∃ r', requests (repositionQueue s) !! k = Some r' ∧ eqX r r'.
Proof. intros Hr. by apply (othersEqX_repositionQueue [] s k r); [apply not_elem_of_nil|]. Qed.

Lemma othersEqX_step_upd_req L i f s s1 :
  i ∈ L → othersEqX L s s1 → othersEqX L s (upd_req i f s1).
Proof.
  intros Hi H. eapply othersEqX_trans; [exact H|apply (othersEqX_upd_req i f)|].
  intros k [?|Hk]; [done|]. apply list_elem_of_singleton in Hk. by subst.
Qed.

Lemma othersEqX_step_upd_rep L j f s s1 :
  othersEqX L s s1 → othersEqX L s (upd_rep j f s1).
Proof. done. Qed.

Lemma othersEqX_step_repositionQueue L s s1 :
  othersEqX L s s1 → othersEqX L s (repositionQueue s1).
Proof.
  intros H. eapply othersEqX_trans; [exact H|apply (othersEqX_repositionQueue [])|].
  intros k [?|Hk]; [done|]. by apply elem_of_nil in Hk.
Qed.

Lemma othersEqX_step_set_lastActivityTick L v s s1 :
  othersEqX L s s1 → othersEqX L s (set_lastActivityTick v s1).
Proof. done. Qed.

Lemma othersEqX_step_set_roundRobinIndex L v s s1 :
  othersEqX L s s1 → othersEqX L s (set_roundRobinIndex v s1).
Proof. done. Qed.

Ltac othersEqX_steps :=
  repeat first
    [ apply othersEqX_refl
    | apply othersEqX_step_set_lastActivityTick
    | apply othersEqX_step_set_roundRobinIndex
    | apply othersEqX_step_repositionQueue
    | apply othersEqX_step_upd_rep
    | apply othersEqX_step_upd_req; [by left|] ].

Lemma updateRequest_others Math_sin i s : othersEqX [i] s (updateRequest Math_sin i s).
Proof. unfold updateRequest. repeat case_match; othersEqX_steps. Qed.

Lemma othersEqX_foldl {B} (f : Simulation → B → Simulation) (g : B → nat)
    (l : list B) (s : Simulation) :
  (∀ s b, othersEqX [g b] s (f s b)) → othersEqX (g <$> l) s (foldl f s l).
Proof.
  intros Hf. revert s. induction l as [|b l IH]; intros s; simpl; [apply othersEqX_refl|].
  eapply othersEqX_trans; [apply Hf|apply IH|].
  intros k [Hk|Hk]; [apply list_elem_of_singleton in Hk; subst; left|by right].
Qed.

(** *** The idle-activity timestamp *)

Lemma activityTrigger_eqX now cfg r r' :
  eqX r r' → activityTrigger now cfg r' → activityTrigger now cfg r.
Proof.
  intros He. apply eqX_fields in He as (_ & Hst & _ & _ & _ & _ & Hp & _).
  unfold activityTrigger. by rewrite Hst, Hp.
Qed.

Lemma updateRequest_lastActivityTick Math_sin i s :
  lastActivityTick (updateRequest Math_sin i s) = lastActivityTick s ∨
  (lastActivityTick (updateRequest Math_sin i s) = state_tick s ∧
   ∃ r, requests s !! i = Some r ∧ activityTrigger (state_tick s) (config s) r).
Proof.
  unfold updateRequest.
  destruct (requests (upd_req i _ s) !! i) as [r1|] eqn:Hr1; [|by left].
  fsimpl. rewrite list_lookup_alter_eq in Hr1.
  destruct (requests s !! i) as [r|] eqn:Hr; [|done].
  injection Hr1 as <-. fsimpl.
  destruct (req_state r) eqn:Hst; repeat case_match; fsimpl; try (by left).
  - right. split; [done|]. exists r. split; [done|]. by left.
  - right. split; [done|]. exists r. split; [done|]. right. split; [done|].
    by apply Qltb_lt.
  - right. split; [done|]. exists r. split; [done|]. right. split; [done|].
    by apply Qltb_lt.
Qed.

Ltac length_steps :=
  repeat (fsimpl; rewrite ?repositionQueue_length, ?length_alter); try done.

Lemma updateRequest_length Math_sin i s :
  length (requests (updateRequest Math_sin i s)) = length (requests s).
Proof. unfold updateRequest. repeat case_match; length_steps. Qed.

Lemma foldl_updateRequest_length Math_sin l s :
  length (requests (foldl (λ s i, updateRequest Math_sin i s) s l)) = length (requests s).
Proof.
  revert s. induction l as [|i l IH]; intros s; simpl; [done|].
  by rewrite IH, updateRequest_length.
Qed.

Lemma foldl_updateRequest_others Math_sin l s :
  othersEqX l s (foldl (λ s i, updateRequest Math_sin i s) s l).
Proof.
  pose proof (othersEqX_foldl (λ s i, updateRequest Math_sin i s) id l s) as H.
  rewrite list_fmap_id in H. apply H. intros. apply updateRequest_others.
Qed.

Lemma foldl_updateRequest_lastActivityTick Math_sin l s :
  NoDup l →
  let s' := foldl (λ s i, updateRequest Math_sin i s) s l in
  lastActivityTick s' = lastActivityTick s ∨
  (lastActivityTick s' = state_tick s ∧
   ∃ k r, requests s !! k = Some r ∧ activityTrigger (state_tick s) (config s) r).
Proof.
  induction l as [|i l IH] using rev_ind; intros Hnd; cbn zeta; [by left|].
  rewrite foldl_app. cbn [foldl].
  apply NoDup_app in Hnd as (Hnd & Hni & _).
  set (sA := foldl _ s l) in *.
  destruct (frame_foldl (λ s i, updateRequest Math_sin i s) l s
              (λ s i, updateRequest_frame Math_sin i s)) as (Hc & Ht & _).
  fold sA in Hc, Ht.
  destruct (updateRequest_lastActivityTick Math_sin i sA) as [Heq|[Heq (rA & HrA & Htr)]].
  - rewrite Heq. by apply IH.
  - right. rewrite Heq, Ht. split; [done|].
    assert (is_Some (requests s !! i)) as [r Hr].
    { apply lookup_lt_is_Some. apply lookup_lt_Some in HrA.
      unfold sA in HrA. by rewrite foldl_updateRequest_length in HrA. }
    destruct (foldl_updateRequest_others Math_sin l s i r) as (r' & Hr' & He); [|done|].
    { intros Hi. apply (Hni i Hi). left. }
    fold sA in Hr'. simplify_eq. exists i, r. split; [done|].
    rewrite <- Hc, <- Ht. by eapply activityTrigger_eqX.
Qed.

Lemma updateRequests_lastActivityTick Math_sin s :
  lastActivityTick (updateRequests Math_sin s) = lastActivityTick s ∨
  (lastActivityTick (updateRequests Math_sin s) = state_tick s ∧
   ∃ k r, requests s !! k = Some r ∧ activityTrigger (state_tick s) (config s) r).
Proof. apply foldl_updateRequest_lastActivityTick, NoDup_seq. Qed.

Lemma handleAutoscaling_lastActivityTick s :
  lastActivityTick (handleAutoscaling s) = lastActivityTick s ∨
  (lastActivityTick (handleAutoscaling s) = state_tick s ∧
   (scaleUpFires s = true ∨ scaleFromZeroFires s = true ∨ scaleDownFires s = true)).
Proof.
  unfold handleAutoscaling.
  match goal with |- context [reconcileReplicas ?s3] =>
    destruct (reconcileReplicas_frame s3) as (_ & _ & _ & ->) end.
  unfold scaleUpFires, scaleFromZeroFires, scaleDownFires, autoscalerLoad, setTargetReplicas.
  repeat case_match; fsimpl;
    repeat match goal with H : ?b = true |- context [?b] => rewrite H end;
    first [ by left
          | right; split; [done|]; first [by left | by right; left | by right; right] ].
Qed.

Lemma afterClock_lastActivityTick Math_sin s1 :
  let s' := afterClock Math_sin s1 in
  let s4 := removeExited (updateReplicas (updateRequests Math_sin s1)) in
  lastActivityTick s' = lastActivityTick s1 ∨
  (lastActivityTick s' = state_tick s1 ∧
   ((∃ k r, requests s1 !! k = Some r ∧ activityTrigger (state_tick s1) (config s1) r) ∨
    scaleUpFires s4 = true ∨ scaleFromZeroFires s4 = true ∨ scaleDownFires s4 = true)).
Proof.
  cbn zeta. unfold afterClock.
  pose proof (updateRequests_lastActivityTick Math_sin s1) as H2.
  destruct (updateRequests_frame Math_sin s1) as (_ & Ht2 & _).
  set (s2 := updateRequests Math_sin s1) in *. clearbody s2.
  set (s4 := removeExited (updateReplicas s2)).
  assert (Ha4 : lastActivityTick s4 = lastActivityTick s2) by done.
  assert (Ht4 : state_tick s4 = state_tick s1) by done.
  clearbody s4.
  pose proof (handleAutoscaling_lastActivityTick s4) as H5.
  set (s5 := handleAutoscaling s4) in *. clearbody s5.
  destruct (tryAssignToReplicas_frame s5) as (_ & _ & Ha6).
  set (s6 := tryAssignToReplicas s5) in *. clearbody s6.
  change (lastActivityTick (updateMetrics s6)) with (lastActivityTick s6).
  rewrite Ha6.
  destruct H5 as [H5|[H5 Hfires]].
  - rewrite H5, Ha4. destruct H2 as [H2|[H2 Htrig]]; [by left|].
    right. split; [done|]. by left.
  - right. rewrite H5, Ht4. split; [done|]. by right.
Qed.

(** C8 (amended). [lastActivityTick] is written by [addRequest], by
    [setTargetReplicas] and by [reset] (which clears it); an Advance step
    writes it, with the new tick, only if it is not paused and a request
    is admitted to the queue (validating to queued), or a request ends
    its processing phase, or one of the autoscaler's rules (scale up,
    scale from zero, scale down) calls [setTargetReplicas]; every other
    operation leaves it unchanged. *)
Theorem lastActivityTick_writers Math_sin (o : Op) (s : Simulation) :
  let s' := apply Math_sin o s in
  match o with
  | AddRequest _ | SetTargetReplicas _ => lastActivityTick s' = state_tick s
  | Reset => lastActivityTick s' = 0
  | Tick deltaMs =>
      let s1 := set_tick (num (state_tick s + deltaMs * speed s)) s in
      let s4 := removeExited (updateReplicas (updateRequests Math_sin s1)) in
      lastActivityTick s' = lastActivityTick s ∨
      (paused s = false ∧ lastActivityTick s' = state_tick s1 ∧
       ((∃ k r, requests s !! k = Some r ∧
                activityTrigger (state_tick s1) (config s) r) ∨
        scaleUpFires s4 = true ∨ scaleFromZeroFires s4 = true ∨
        scaleDownFires s4 = true))
  | _ => lastActivityTick s' = lastActivityTick s
  end.
Proof.
  destruct o; cbn zeta; try reflexivity.
  - cbn [apply]. rewrite tick_unfold. destruct (paused s); [by left|].
    destruct (afterClock_lastActivityTick Math_sin
                (set_tick (num (state_tick s + deltaMs * speed s)) s)) as [H|H].
    + by left.
    + right. split; [done|]. exact H.
  - cbn [apply]. unfold reset. by case_match.
Qed.

(** C8 as stated fails: an Advance step over an engine without any request
    moves [lastActivityTick] when the autoscaler's scale-down rule calls
    [setTargetReplicas], and [reset] moves it as well. *)
Lemma lastActivityTick_counterexample :
  let s := run zeroSin [SetTargetReplicas 1] (newSimulation DEFAULT_CONFIG) in
  let s' := apply zeroSin (Tick 16000) s in
  requests s = [] ∧ replicas s = [] ∧
  lastActivityTick s' ≠ lastActivityTick s ∧
  lastActivityTick (apply zeroSin Reset s') ≠ lastActivityTick s'.
Proof. vm_compute. split_and!; done. Qed.

(** *** What a step does to one request *)

Lemma lookup_repositionQueue_upd_req i f s r :
  requests s !! i = Some r →
  ∃ r', requests (repositionQueue (upd_req i f s)) !! i = Some r' ∧ eqX (f r) r'.
Proof.
  intros Hr. apply repositionQueue_lookup. fsimpl. by rewrite list_lookup_alter_eq, Hr.
Qed.

Lemma updateRequest_own Math_sin i s r :
  requests s !! i = Some r →
  ∃ r', requests (updateRequest Math_sin i s) !! i = Some r' ∧
        eqX (ownUpdate Math_sin (state_tick s) (config s) (findsReady s r) r) r'.
Proof.
  intros Hr. unfold updateRequest.
  set (s1 := upd_req i _ s).
  assert (H1 : requests s1 !! i = Some (lerpX r)).
  { subst s1. fsimpl. by rewrite list_lookup_alter_eq, Hr. }
  assert (Hrep : replicas s1 = replicas s) by done.
  assert (Hc : config s1 = config s) by done.
  assert (Ht : state_tick s1 = state_tick s) by done.
  clearbody s1. rewrite H1, Hc, Ht, Hrep. unfold ownUpdate, findsReady.
  change (req_state (lerpX r)) with (req_state r).
  change (assignedReplica (lerpX r)) with (assignedReplica r).
  change (req_id (lerpX r)) with (req_id r).
  destruct (req_state r) eqn:Hst.
  - case_match; fsimpl; rewrite ?list_lookup_alter_eq, H1; eauto using eqX_refl.
  - exact (lookup_repositionQueue_upd_req i _ s1 _ H1).
  - case_match; fsimpl; rewrite ?list_lookup_alter_eq, H1; eauto using eqX_refl.
  - destruct (findIndex _ _) as [j|]; [case_bool_decide|]; case_match; fsimpl;
      rewrite ?list_lookup_alter_eq, ?H1; fsimpl;
      rewrite ?list_lookup_alter_eq, ?H1; fsimpl; eauto using eqX_refl.
  - case_match; [|eauto using eqX_refl].
    case_match; fsimpl; rewrite ?list_lookup_alter_eq, H1; eauto using eqX_refl.
  - repeat case_match; fsimpl; rewrite ?list_lookup_alter_eq, H1; eauto using eqX_refl.
  - case_match; fsimpl; rewrite ?list_lookup_alter_eq, H1; eauto using eqX_refl.
  - fsimpl. case_match; fsimpl; rewrite ?list_lookup_alter_eq, ?H1; fsimpl;
      rewrite ?list_lookup_alter_eq, ?H1; eauto using eqX_refl.
  - fsimpl; rewrite ?list_lookup_alter_eq, H1; eauto using eqX_refl.
  - eauto using eqX_refl.
  - eauto using eqX_refl.
Qed.

Lemma updateRequests_at Math_sin s i r :
  requests s !! i = Some r →
  let sA := foldl (λ s i, updateRequest Math_sin i s) s (seq 0 i) in
  ∃ rA r', requests sA !! i = Some rA ∧ eqX r rA ∧
    requests (updateRequests Math_sin s) !! i = Some r' ∧
    eqX (ownUpdate Math_sin (state_tick s) (config s) (findsReady sA rA) rA) r'.
Proof.
  intros Hr sA. unfold updateRequests.
  pose proof (lookup_lt_Some _ _ _ Hr) as Hlt.
  replace (seq 0 (length (requests s)))
    with (seq 0 i ++ [i] ++ seq (S i) (length (requests s) - S i)).
  2:{ replace (length (requests s)) with (i + S (length (requests s) - S i))%nat at 2 by lia.
      by rewrite seq_app. }
  rewrite !foldl_app. fold sA. cbn [foldl].
  destruct (foldl_updateRequest_others Math_sin (seq 0 i) s i r) as (rA & HrA & HeA);
    [rewrite elem_of_seq; lia|done|].
  fold sA in HrA.
  destruct (updateRequest_own Math_sin i sA rA HrA) as (rB & HrB & HeB).
  destruct (foldl_updateRequest_others Math_sin (seq (S i) (length (requests s) - S i))
              (updateRequest Math_sin i sA) i rB) as (r' & Hr' & He');
    [rewrite elem_of_seq; lia|done|].
  destruct (frame_foldl (λ s i, updateRequest Math_sin i s) (seq 0 i) s
              (λ s i, updateRequest_frame Math_sin i s)) as (Hc & Ht & _).
  fold sA in Hc, Ht. rewrite Hc, Ht in HeB.
  exists rA, r'. split_and!; [done|done|done|]. by eapply eqX_trans.
Qed.

Lemma lookup_filter_Some {A} (P : A → Prop) `{!∀ a, Decision (P a)} (l : list A) i a :
  l !! i = Some a → P a → ∃ k, filter P l !! k = Some a.
Proof.
  intros Hl Ha. apply list_elem_of_lookup_1, list_elem_of_filter. split; [done|].
  by eapply list_elem_of_lookup_2.
Qed.

Lemma lookup_removeExited s i r :
  requests s !! i = Some r → req_state r ≠ exiting →
  ∃ k, requests (removeExited s) !! k = Some r.
Proof.
  intros Hr Hst. unfold removeExited. fsimpl.
  eapply lookup_filter_Some; [done|]. by case_bool_decide.
Qed.

(** *** What the dispatcher does to one request *)

Lemma eqX_assignedNow now id r r1 :
  eqX r r1 → eqX (assignedNow now id r) (assignedNow now id r1).
Proof. unfold eqX. intros ->. by destruct r. Qed.

Lemma eqX_reservedNow now id r r1 :
  eqX r r1 → eqX (reservedNow now id r) (reservedNow now id r1).
Proof. unfold eqX. intros ->. by destruct r. Qed.

Lemma eqX_state r r' : eqX r r' → req_state r' = req_state r.
Proof. intros H. by apply eqX_fields in H as (_ & ? & _). Qed.

Lemma assignEffect_trans now r r1 r' :
  assignEffect now r r1 → assignEffect now r1 r' → assignEffect now r r'.
Proof.
  intros [H1|[(Hq & id & H1)|(Hq & id & H1)]] [H2|[(Hq2 & id2 & H2)|(Hq2 & id2 & H2)]];
    try (apply eqX_state in H1; simpl in H1; congruence).
  - left. by eapply eqX_trans.
  - right. left. split; [apply eqX_state in H1; congruence|]. exists id2.
    eapply eqX_trans; [apply eqX_assignedNow|]; done.
  - right. right. split; [apply eqX_state in H1; congruence|]. exists id2.
    eapply eqX_trans; [apply eqX_reservedNow|]; done.
  - right. left. split; [done|]. exists id. by eapply eqX_trans.
  - right. right. split; [done|]. exists id. by eapply eqX_trans.
Qed.

Lemma assignTo_others refs i k s : othersEqX [i] s (assignTo refs i k s).
Proof. unfold assignTo. repeat case_match; othersEqX_steps. Qed.

Lemma assignTo_own refs i k s j p r :
  refs !! k = Some j → replicas s !! j = Some p → requests s !! i = Some r →
  ∃ r', requests (assignTo refs i k s) !! i = Some r' ∧
        eqX (assignedNow (state_tick s) (rep_id p) r) r'.
Proof.
  intros Hk Hp Hr. unfold assignTo. rewrite Hk, Hp, Hr.
  match goal with |- context [repositionQueue ?s'] =>
    destruct (repositionQueue_lookup s' i
                (with_targetX getReplicaX (assignedNow (state_tick s) (rep_id p) r)))
      as (r' & Hr' & He) end.
  { fsimpl. by rewrite !list_lookup_alter_eq, Hr. }
  exists r'. split; [done|]. eapply eqX_trans; [apply eqX_with_targetX|exact He].
Qed.

Lemma allQueued_others i rest s s' :
  NoDup (i :: rest) → othersEqX [i] s s' → allQueued (i :: rest) s → allQueued rest s'.
Proof.
  intros Hnd Ho Hq k Hk. apply NoDup_cons in Hnd as [Hni _].
  destruct (Hq k) as (r & Hr & Hst); [by right|].
  destruct (Ho k r) as (r' & Hr' & He); [|done|].
  { intros Hki. apply list_elem_of_singleton in Hki. by subst. }
  exists r'. split; [done|]. by rewrite (eqX_state _ _ He).
Qed.

Lemma hasCapacity_lookup s j : hasCapacity s j = true → is_Some (replicas s !! j).
Proof. unfold hasCapacity. by destruct (replicas s !! j). Qed.

Lemma assignLoop_effect refs waiting s k r :
  NoDup waiting → allQueued waiting s → requests s !! k = Some r →
  ∃ r', requests (assignLoop refs waiting s) !! k = Some r' ∧
        assignEffect (state_tick s) r r'.
Proof.
  revert s r. induction waiting as [|i rest IH]; intros s r Hnd Hq Hr; simpl.
  { exists r. split; [done|]. left. apply eqX_refl. }
  destruct (findSlot refs s) as [slot|] eqn:Hslot.
  2:{ exists r. split; [done|]. left. apply eqX_refl. }
  apply findSlot_Some in Hslot as (j & Hj & Hcap).
  apply hasCapacity_lookup in Hcap as [p Hp].
  pose proof (assignTo_others refs i slot s) as Ho.
  pose proof (allQueued_others _ _ _ _ Hnd Ho Hq) as Hq1.
  destruct (assignTo_frame refs i slot s) as ((_ & Ht & _) & _).
  destruct (decide (k = i)) as [->|Hne].
  - destruct (Hq i) as (ri & Hri & Hst); [by left|]. simplify_eq.
    destruct (assignTo_own refs i slot s j p r Hj Hp Hr) as (r1 & Hr1 & He1).
    destruct (IH (assignTo refs i slot s) r1) as (r' & Hr' & He');
      [by apply NoDup_cons in Hnd as [_ ?]|done|done|].
    exists r'. split; [done|]. rewrite Ht in He'.
    eapply assignEffect_trans; [|exact He'].
    right. left. split; [done|]. eauto.
  - destruct (Ho k r) as (r1 & Hr1 & He1); [|done|].
    { intros Hki. apply list_elem_of_singleton in Hki. by subst. }
    destruct (IH (assignTo refs i slot s) r1) as (r' & Hr' & He');
      [by apply NoDup_cons in Hnd as [_ ?]|done|done|].
    exists r'. split; [done|]. rewrite Ht in He'.
    eapply assignEffect_trans; [|exact He']. by left.
Qed.

Lemma assignToStartingStep_others total srefs s ki :
  othersEqX [ki.2] s (assignToStartingStep total srefs s ki).
Proof. destruct ki as [k i]. unfold assignToStartingStep. repeat case_match; othersEqX_steps. Qed.

Lemma assignToStartingStep_own total srefs s k i r :
  requests s !! i = Some r →
  ∃ r', requests (assignToStartingStep total srefs s (k, i)) !! i = Some r' ∧
        (eqX r r' ∨ ∃ id, eqX (reservedNow (state_tick s) id r) r').
Proof.
  intros Hr. unfold assignToStartingStep.
  repeat case_match; try (exists r; split; [done|]; left; apply eqX_refl).
  match goal with |- context [repositionQueue (upd_req i ?f s)] =>
    destruct (lookup_repositionQueue_upd_req i f s r Hr) as (r' & Hr' & He) end.
  exists r'. split; [done|]. right. eexists.
  eapply eqX_trans; [apply eqX_with_targetX|exact He].
Qed.

Lemma assignToStarting_foldl_effect total srefs ks s k r :
  NoDup ks.*2 → allQueued ks.*2 s → requests s !! k = Some r →
  ∃ r', requests (foldl (assignToStartingStep total srefs) s ks) !! k = Some r' ∧
        assignEffect (state_tick s) r r'.
Proof.
  revert s r. induction ks as [|[n i] rest IH]; intros s r Hnd Hq Hr; simpl.
  { exists r. split; [done|]. left. apply eqX_refl. }
  simpl in Hnd, Hq.
  pose proof (assignToStartingStep_others total srefs s (n, i)) as Ho. simpl in Ho.
  pose proof (allQueued_others _ _ _ _ Hnd Ho Hq) as Hq1.
  destruct (assignToStartingStep_frame total srefs s (n, i)) as ((_ & Ht & _) & _).
  destruct (decide (k = i)) as [->|Hne].
  - destruct (Hq i) as (ri & Hri & Hst); [by left|]. simplify_eq.
    destruct (assignToStartingStep_own total srefs s n i r Hr) as (r1 & Hr1 & He1).
    destruct (IH (assignToStartingStep total srefs s (n, i)) r1) as (r' & Hr' & He');
      [by apply NoDup_cons in Hnd as [_ ?]|done|done|].
    exists r'. split; [done|]. rewrite Ht in He'.
    eapply assignEffect_trans; [|exact He'].
    destruct He1 as [He1|[id He1]]; [by left|]. right. right. eauto.
  - destruct (Ho k r) as (r1 & Hr1 & He1); [|done|].
    { intros Hki. apply list_elem_of_singleton in Hki. by subst. }
    destruct (IH (assignToStartingStep total srefs s (n, i)) r1) as (r' & Hr' & He');
      [by apply NoDup_cons in Hnd as [_ ?]|done|done|].
    exists r'. split; [done|]. rewrite Ht in He'.
    eapply assignEffect_trans; [|exact He']. by left.
Qed.

Lemma imap_pair_snd {A} (l : list A) : (imap pair l).*2 = l.
Proof.
  rewrite fmap_imap. simpl. induction l as [|a l IH] using rev_ind; [done|].
  rewrite imap_app. simpl. by rewrite IH.
Qed.

Lemma assignToStartingReplicas_effect refs s k r :
  NoDup refs → allQueued refs s → requests s !! k = Some r →
  ∃ r', requests (assignToStartingReplicas refs s) !! k = Some r' ∧
        assignEffect (state_tick s) r r'.
Proof.
  intros Hnd Hq Hr. unfold assignToStartingReplicas.
  case_bool_decide; [exists r; split; [done|]; left; apply eqX_refl|].
  case_bool_decide; [exists r; split; [done|]; left; apply eqX_refl|].
  apply assignToStarting_foldl_effect; rewrite ?imap_pair_snd; done.
Qed.

Lemma allQueued_filterIdx s : allQueued (filterIdx isQueued (requests s)) s.
Proof.
  intros i Hi. apply elem_of_filterIdx in Hi as (r & Hr & Hq).
  exists r. split; [done|]. by apply bool_decide_eq_true in Hq.
Qed.

Lemma allQueued_sortedQueue s : allQueued (sortedQueue (requests s)) s.
Proof. intros i Hi. apply elem_of_jsSort in Hi. by apply allQueued_filterIdx. Qed.

Lemma NoDup_sortedQueue rs : NoDup (sortedQueue rs).
Proof. apply NoDup_jsSort, NoDup_filterIdx. Qed.

Lemma tryAssignToReplicas_effect s k r :
  requests s !! k = Some r →
  ∃ r', requests (tryAssignToReplicas s) !! k = Some r' ∧
        assignEffect (state_tick s) r r'.
Proof.
  intros Hr. unfold tryAssignToReplicas. case_bool_decide.
  - apply assignToStartingReplicas_effect;
      [apply NoDup_sortedQueue|apply allQueued_sortedQueue|done].
  - match goal with |- context [assignLoop ?refs ?w s] =>
      destruct (assignLoop_effect refs w s k r) as (r1 & Hr1 & He1);
        [apply NoDup_sortedQueue|apply allQueued_sortedQueue|done|];
      destruct (assignLoop_frame refs w s) as ((_ & Ht & _) & _);
      set (s1 := assignLoop refs w s) in * end.
    destruct (assignToStartingReplicas_effect (filterIdx isQueued (requests s1)) s1 k r1)
      as (r' & Hr' & He'); [apply NoDup_filterIdx|apply allQueued_filterIdx|done|].
    exists r'. split; [done|]. rewrite Ht in He'. by eapply assignEffect_trans.
Qed.

Lemma lookup_removeExited_kept s i r :
  requests s !! i = Some r → kept r → ∃ k, requests (removeExited s) !! k = Some r.
Proof.
  intros Hr Hk. unfold removeExited. fsimpl.
  eapply (lookup_filter_Some (λ r, _ = true)); done.
Qed.

(** A request that is not queued after the updates and is not pruned keeps
    its value, up to [targetX], through the rest of the step. *)
Lemma tail_persist s2 i r :
  requests s2 !! i = Some r → req_state r ≠ queued → kept r →
  ∃ k r', requests (updateMetrics (tryAssignToReplicas (handleAutoscaling
             (removeExited (updateReplicas s2))))) !! k = Some r' ∧ eqX r r'.
Proof.
  intros Hr Hq Hx.
  destruct (lookup_removeExited_kept (updateReplicas s2) i r) as (k & Hk); [done|done|].
  set (s4 := removeExited (updateReplicas s2)) in *. clearbody s4.
  destruct (handleAutoscaling_frame s4) as (_ & _ & _ & _ & _ & _ & Hreq & _).
  rewrite <- Hreq in Hk.
  destruct (tryAssignToReplicas_effect _ k r Hk) as (r' & Hr' & [He|[[? _]|[? _]]]);
    [|done|done].
  exists k, r'. done.
Qed.

Lemma sameAssignment_trans r1 r2 r3 :
  sameAssignment r1 r2 → sameAssignment r2 r3 → sameAssignment r1 r3.
Proof. unfold sameAssignment. intros. destruct_and!. split_and!; congruence. Qed.

Lemma eqX_sameAssignment r r' : eqX r r' → sameAssignment r r'.
Proof. intros H. apply eqX_fields in H. unfold sameAssignment. naive_solver. Qed.

Lemma fadeOut_fields step r :
  sameAssignment r (fadeOut step r) ∧
  (req_state (fadeOut step r) = req_state r ∨ req_state (fadeOut step r) = exiting).
Proof. unfold fadeOut. case_match; split; auto; done. Qed.

Lemma tick_queued_expires Math_sin deltaMs s i r :
  paused s = false → requests s !! i = Some r → req_state r = queued →
  maxTimeInQueueMs (config s)
    < num (state_tick s + deltaMs * speed s) - orZero (queuedAt r) →
  ∃ k r', requests (tick Math_sin deltaMs s) !! k = Some r' ∧
          req_state r' = expired ∧ sameAssignment r r'.
Proof.
  intros Hp Hr Hst Hlt. rewrite tick_unfold, Hp.
  set (s1 := set_tick _ s).
  destruct (updateRequests_at Math_sin s1 i r Hr) as (rA & r2 & _ & HeA & Hr2 & He2).
  unfold ownUpdate in He2. rewrite (eqX_state _ _ HeA), Hst in He2.
  pose proof (eqX_sameAssignment _ _ HeA) as HsA.
  assert (Hq : queuedAt (lerpX rA) = queuedAt r) by apply HsA.
  rewrite Hq in He2. apply Qltb_lt in Hlt.
  change (state_tick s1) with (num (state_tick s + deltaMs * speed s)) in He2.
  change (config s1) with (config s) in He2. rewrite Hlt in He2.
  destruct (tail_persist (updateRequests Math_sin s1) i r2 Hr2) as (k & r' & Hr' & He').
  { by rewrite (eqX_state _ _ He2). }
  { unfold kept. by rewrite (eqX_state _ _ He2). }
  exists k, r'. split; [exact Hr'|]. split.
  - by rewrite (eqX_state _ _ He'), (eqX_state _ _ He2).
  - eapply sameAssignment_trans; [exact HsA|].
    eapply sameAssignment_trans; [|apply eqX_sameAssignment, He'].
    eapply sameAssignment_trans; [|apply eqX_sameAssignment, He2]. done.
Qed.

Lemma tick_expired_stays Math_sin deltaMs s i r :
  paused s = false → requests s !! i = Some r →
  req_state r = expired ∨ req_state r = exiting →
  ∃ r2, requests (updateRequests Math_sin
                    (set_tick (num (state_tick s + deltaMs * speed s)) s)) !! i = Some r2 ∧
        (req_state r2 = expired ∨ req_state r2 = exiting) ∧ sameAssignment r r2 ∧
        (kept r2 →
         ∃ k r', requests (tick Math_sin deltaMs s) !! k = Some r' ∧ eqX r2 r').
Proof.
  intros Hp Hr Hst. rewrite tick_unfold, Hp.
  set (s1 := set_tick _ s).
  destruct (updateRequests_at Math_sin s1 i r Hr) as (rA & r2 & _ & HeA & Hr2 & He2).
  pose proof (eqX_sameAssignment _ _ HeA) as HsA.
  exists r2. split; [done|].
  assert (Hown : (req_state r2 = expired ∨ req_state r2 = exiting) ∧ sameAssignment rA r2).
  { unfold ownUpdate in He2. rewrite (eqX_state _ _ HeA) in He2.
    destruct Hst as [Hst|Hst]; rewrite Hst in He2; rewrite (eqX_state _ _ He2).
    - destruct (fadeOut_fields 0.01 (lerpX rA)) as [Hf Hs].
      split.
      + destruct Hs as [Hs|Hs]; rewrite Hs; [left|by right].
        change (req_state (lerpX rA)) with (req_state rA).
        by rewrite (eqX_state _ _ HeA).
      + eapply sameAssignment_trans; [|apply eqX_sameAssignment, He2].
        eapply sameAssignment_trans; [|exact Hf]. done.
    - split.
      + right. change (req_state (lerpX rA)) with (req_state rA).
        by rewrite (eqX_state _ _ HeA).
      + eapply sameAssignment_trans; [|apply eqX_sameAssignment, He2]. done. }
  destruct Hown as [Hst2 Hs2]. split; [done|]. split.
  { by eapply sameAssignment_trans. }
  intros Hk. apply (tail_persist _ i r2 Hr2); [|done].
  destruct Hst2 as [-> | ->]; done.
Qed.

(** C6. In an Advance step that is not paused, a request that is queued
    and, at the new tick, has been queued for longer than
    [maxTimeInQueueMs] (from [queuedAt]) ends the step in state [expired]
    with its assignment marks ([assignedReplica], [processorPickedAt],
    [processStartedAt]) untouched; and a request that is expired or
    exiting is expired or exiting after the update phase, with the same
    marks, and unless it is pruned it ends the step with that value (up
    to [targetX]): it is never assigned. *)
Theorem queue_expiry Math_sin (deltaMs : Q) (s : Simulation) (i : nat) (r : Request) :
  paused s = false → requests s !! i = Some r →
  let now := num (state_tick s + deltaMs * speed s) in
  (req_state r = queued →
   maxTimeInQueueMs (config s) < now - orZero (queuedAt r) →
   ∃ k r', requests (tick Math_sin deltaMs s) !! k = Some r' ∧
           req_state r' = expired ∧ sameAssignment r r') ∧
  (req_state r = expired ∨ req_state r = exiting →
   ∃ r2, requests (updateRequests Math_sin (set_tick now s)) !! i = Some r2 ∧
         (req_state r2 = expired ∨ req_state r2 = exiting) ∧ sameAssignment r r2 ∧
         (kept r2 →
          ∃ k r', requests (tick Math_sin deltaMs s) !! k = Some r' ∧ eqX r2 r')).
Proof.
  intros Hp Hr now. split.
  - intros Hst Hlt. by eapply tick_queued_expires.
  - intros Hst. by eapply tick_expired_stays.
Qed.

Lemma queue_expiry_witness :
  paused stuckQueue = false ∧ requests stuckQueue !! 0%nat = Some stuckRequest ∧
  req_state stuckRequest = queued ∧
  maxTimeInQueueMs (config stuckQueue)
    < num (state_tick stuckQueue + 100 * speed stuckQueue) - orZero (queuedAt stuckRequest) ∧
  ∃ k r', requests (tick zeroSin 100 stuckQueue) !! k = Some r' ∧
          req_state r' = expired ∧ sameAssignment stuckRequest r'.
Proof.
  split; [reflexivity|]. split; [reflexivity|]. split; [reflexivity|].
  split; [reflexivity|].
  apply (queue_expiry zeroSin 100 stuckQueue 0 stuckRequest); reflexivity.
Defined.

(** ** Expiry of a request whose replica has just become ready *)

Lemma not_elem_of_filter_ne (id : nat) (l : list nat) : id ∉ filter (λ i, i ≠ id) l.
Proof. intros H. by apply list_elem_of_filter in H as [? _]. Qed.

Lemma claim_release_ids ct id p :
  currentRequestIds (removeRequestId id (capacityState ct (pushRequestId id p)))
  = filter (λ i, i ≠ id) (currentRequestIds p).
Proof.
  unfold removeRequestId, capacityState, pushRequestId. simpl.
  rewrite filter_app, filter_cons, decide_False by (intros H; by apply H).
  by rewrite filter_nil, app_nil_r.
Qed.

Lemma updateRequest_claim_then_expire Math_sin s i r j p :
  requests s !! i = Some r → req_state r = waiting_for_model →
  findIndex (λ p, bool_decide (Some (rep_id p) = assignedReplica r)) (replicas s) = Some j →
  replicas s !! j = Some p → rep_state p = ready →
  maxTimeInQueueMs (config s) < state_tick s - orZero (processorPickedAt r) →
  let s' := updateRequest Math_sin i s in
  ∃ r' p', requests s' !! i = Some r' ∧ replicas s' !! j = Some p' ∧
    req_state r' = expired ∧ processStartedAt r' = Some (state_tick s) ∧
    sameAssignment (with_processStartedAt (Some (state_tick s)) r) r' ∧
    (req_id r ∉ currentRequestIds p') ∧
    currentRequestIds p' = filter (λ id, id ≠ req_id r) (currentRequestIds p).
Proof.
  intros Hr Hst Hj Hp Hready Hlt. cbn zeta. unfold updateRequest.
  set (s1 := upd_req i _ s).
  assert (H1 : requests s1 !! i = Some (lerpX r)).
  { subst s1. fsimpl. by rewrite list_lookup_alter_eq, Hr. }
  assert (Hj' : findIndex (λ p, bool_decide (Some (rep_id p) = assignedReplica (lerpX r)))
                  (replicas s1) = Some j) by exact Hj.
  assert (Hp' : replicas s1 !! j = Some p) by exact Hp.
  assert (Hc : config s1 = config s) by done.
  assert (Ht : state_tick s1 = state_tick s) by done.
  clearbody s1. rewrite H1.
  change (req_state (lerpX r)) with (req_state r). rewrite Hst, Hj', Hp'.
  rewrite bool_decide_eq_true_2 by (simpl; by rewrite Hready).
  change (processorPickedAt (lerpX r)) with (processorPickedAt r).
  apply Qltb_lt in Hlt. rewrite Hc, Ht, Hlt. fsimpl.
  rewrite !list_lookup_alter_eq, H1, Hp'. fsimpl.
  eexists _, _. split; [reflexivity|]. split; [reflexivity|].
  change (req_id (lerpX r)) with (req_id r). cbn beta.
  rewrite claim_release_ids. fsimpl.
  split_and!; try done. apply not_elem_of_filter_ne.
Qed.

Lemma tick_claim_then_expire Math_sin deltaMs s0 i r j p :
  paused s0 = false →
  let s1 := set_tick (num (state_tick s0 + deltaMs * speed s0)) s0 in
  let s := foldl (λ s i, updateRequest Math_sin i s) s1 (seq 0 i) in
  requests s !! i = Some r → req_state r = waiting_for_model →
  findIndex (λ p, bool_decide (Some (rep_id p) = assignedReplica r)) (replicas s) = Some j →
  replicas s !! j = Some p → rep_state p = ready →
  maxTimeInQueueMs (config s) < state_tick s - orZero (processorPickedAt r) →
  ∃ k r', requests (tick Math_sin deltaMs s0) !! k = Some r' ∧
    req_state r' = expired ∧
    sameAssignment (with_processStartedAt (Some (state_tick s)) r) r'.
Proof.
  intros Hpa s1 s Hr Hst Hj Hp Hready Hlt. rewrite tick_unfold, Hpa. fold s1.
  assert (is_Some (requests s1 !! i)) as [r0 Hr0].
  { apply lookup_lt_is_Some. apply lookup_lt_Some in Hr.
    unfold s in Hr. by rewrite foldl_updateRequest_length in Hr. }
  destruct (updateRequests_at Math_sin s1 i r0 Hr0) as (rA & r2 & HrA & _ & Hr2 & He2).
  fold s in HrA, He2. rewrite Hr in HrA. injection HrA as <-.
  destruct (frame_foldl (λ s i, updateRequest Math_sin i s) (seq 0 i) s1
              (λ s i, updateRequest_frame Math_sin i s)) as (Hc & Ht & _).
  fold s in Hc, Ht. rewrite <- Hc, <- Ht in He2.
  unfold ownUpdate, findsReady in He2. rewrite Hst, Hj, Hp in He2.
  rewrite bool_decide_eq_true_2 in He2 by (simpl; by rewrite Hready).
  change (processorPickedAt (lerpX r)) with (processorPickedAt r) in He2.
  apply Qltb_lt in Hlt. rewrite Hlt in He2.
  destruct (tail_persist (updateRequests Math_sin s1) i r2 Hr2) as (k & r' & Hr' & He').
  { by rewrite (eqX_state _ _ He2). }
  { unfold kept. by rewrite (eqX_state _ _ He2). }
  exists k, r'. split; [exact Hr'|]. split.
  - by rewrite (eqX_state _ _ He'), (eqX_state _ _ He2).
  - eapply sameAssignment_trans; [|apply eqX_sameAssignment, He'].
    eapply sameAssignment_trans; [|apply eqX_sameAssignment, He2]. done.
Qed.

(** C10. When [updateRequest] runs on a request that waits for its
    replica, finds that replica ready, and has waited longer than
    [maxTimeInQueueMs] since [processorPickedAt], the claim is made first
    and the expiry check second: the request is left expired, with
    [processStartedAt] set to the current tick, and its id is filtered
    out of the replica's list. When this happens at the request's turn in
    an Advance step, the request ends that step expired, with
    [processStartedAt] set. *)
Theorem claim_then_expire Math_sin (s : Simulation) (i j : nat) (r : Request) (p : Replica) :
  requests s !! i = Some r → req_state r = waiting_for_model →
  findIndex (λ p, bool_decide (Some (rep_id p) = assignedReplica r)) (replicas s) = Some j →
  replicas s !! j = Some p → rep_state p = ready →
  maxTimeInQueueMs (config s) < state_tick s - orZero (processorPickedAt r) →
  (∃ r' p',
     requests (updateRequest Math_sin i s) !! i = Some r' ∧
     replicas (updateRequest Math_sin i s) !! j = Some p' ∧
     req_state r' = expired ∧ processStartedAt r' = Some (state_tick s) ∧
     sameAssignment (with_processStartedAt (Some (state_tick s)) r) r' ∧
     (req_id r ∉ currentRequestIds p') ∧
     currentRequestIds p' = filter (λ id, id ≠ req_id r) (currentRequestIds p)) ∧
  (∀ s0 deltaMs,
     paused s0 = false →
     s = foldl (λ s i, updateRequest Math_sin i s)
           (set_tick (num (state_tick s0 + deltaMs * speed s0)) s0) (seq 0 i) →
     ∃ k r', requests (tick Math_sin deltaMs s0) !! k = Some r' ∧
       req_state r' = expired ∧
       sameAssignment (with_processStartedAt (Some (state_tick s)) r) r').
Proof.
  intros Hr Hst Hj Hp Hready Hlt. split.
  - by apply updateRequest_claim_then_expire.
  - intros s0 deltaMs Hpa ->. by eapply tick_claim_then_expire.
Qed.

Lemma claim_then_expire_witness :
  requests lateClaim !! 0%nat = Some lateRequest ∧
  req_state lateRequest = waiting_for_model ∧
  findIndex (λ p, bool_decide (Some (rep_id p) = assignedReplica lateRequest))
            (replicas lateClaim) = Some 0%nat ∧
  replicas lateClaim !! 0%nat = Some warmReplica ∧
  rep_state warmReplica = ready ∧
  maxTimeInQueueMs (config lateClaim)
    < state_tick lateClaim - orZero (processorPickedAt lateRequest) ∧
  ∃ r' p',
    requests (updateRequest zeroSin 0 lateClaim) !! 0%nat = Some r' ∧
    replicas (updateRequest zeroSin 0 lateClaim) !! 0%nat = Some p' ∧
    req_state r' = expired ∧ processStartedAt r' = Some (state_tick lateClaim) ∧
    sameAssignment (with_processStartedAt (Some (state_tick lateClaim)) lateRequest) r' ∧
    (req_id lateRequest ∉ currentRequestIds p') ∧
    currentRequestIds p' = filter (λ id, id ≠ req_id lateRequest) (currentRequestIds warmReplica).
Proof.
  split; [reflexivity|]. split; [reflexivity|]. split; [reflexivity|].
  split; [reflexivity|]. split; [reflexivity|]. split; [reflexivity|].
  apply (claim_then_expire zeroSin lateClaim 0 0 lateRequest warmReplica); reflexivity.
Defined.

(** ** Round robin over two replicas *)

Lemma assignTo_length refs i k s :
  length (requests (assignTo refs i k s)) = length (requests s).
Proof. unfold assignTo. repeat case_match; length_steps. Qed.

Lemma assignTo_replicas refs i k s j p r :
  refs !! k = Some j → replicas s !! j = Some p → requests s !! i = Some r →
  replicas (assignTo refs i k s)
  = alter (λ p, capacityState (concurrencyTarget (config s)) (pushRequestId (req_id r) p))
          j (replicas s) ∧
  roundRobinIndex (assignTo refs i k s) = ((k + 1) `mod` length refs)%nat ∧
  config (assignTo refs i k s) = config s.
Proof. intros Hk Hp Hr. unfold assignTo. by rewrite Hk, Hp, Hr. Qed.

Lemma twoLoads_hasCapacity a b s la lb c :
  twoLoads a b s la lb c →
  hasCapacity s a = (la <? 2)%nat ∧ hasCapacity s b = (lb <? 2)%nat.
Proof.
  intros ((pa & Ha & Hla) & (pb & Hb & Hlb) & _ & Hct).
  unfold hasCapacity. rewrite Ha, Hb, Hct, Hla, Hlb.
  split; [destruct (Nat.ltb_spec la 2)|destruct (Nat.ltb_spec lb 2)]; lia.
Qed.

Lemma findSlot_two a b s la lb c :
  twoLoads a b s la lb c →
  findSlot [a; b] s =
  match c with
  | O => if (la <? 2)%nat then Some 0%nat else if (lb <? 2)%nat then Some 1%nat else None
  | _ => if (lb <? 2)%nat then Some 1%nat else if (la <? 2)%nat then Some 0%nat else None
  end.
Proof.
  intros H. destruct (twoLoads_hasCapacity _ _ _ _ _ _ H) as [Hca Hcb].
  destruct H as (_ & _ & Hc & _).
  unfold findSlot, findIndex. cbn [length seq list_find].
  rewrite Nat.add_0_r.
  assert (Hc1 : ((roundRobinIndex s + 1) `mod` 2 = 1 - c)%nat).
  { rewrite <- Hc. pose proof (Nat.mod_upper_bound (roundRobinIndex s) 2).
    rewrite Nat.Div0.add_mod by lia.
    destruct (roundRobinIndex s `mod` 2)%nat as [|[|?]] eqn:E; simpl; lia. }
  assert (Hlt : (c < 2)%nat) by (rewrite <- Hc; apply Nat.mod_upper_bound; lia).
  rewrite Hc, Hc1.
  destruct c as [|[|?]]; [| |lia]; cbn [lookup list_lookup Nat.sub];
    rewrite ?Hca, ?Hcb;
    destruct (la <? 2)%nat, (lb <? 2)%nat;
    do 2 (rewrite ?decide_True, ?decide_False by done; cbn -[Nat.modulo]);
    rewrite ?Nat.add_0_r, ?Hc, ?Hc1; done.
Qed.

Lemma assignTo_twoLoads_first a b s la lb c i :
  a ≠ b → twoLoads a b s la lb c → (i < length (requests s))%nat →
  twoLoads a b (assignTo [a; b] i 0 s) (S la) lb 1.
Proof.
  intros Hab ((pa & Ha & Hla) & (pb & Hb & Hlb) & Hc & Hct) Hi.
  apply lookup_lt_is_Some in Hi as [r Hr].
  destruct (assignTo_replicas [a; b] i 0 s a pa r) as (Hrep & Hrr & Hcfg); [done..|].
  unfold twoLoads. rewrite Hrep, Hrr, Hcfg.
  split_and!; [| |done|done].
  - rewrite list_lookup_alter_eq, Ha. eexists. split; [reflexivity|].
    simpl. rewrite length_app. simpl. lia.
  - rewrite list_lookup_alter_ne by done. eauto.
Qed.

Lemma assignTo_twoLoads_second a b s la lb c i :
  a ≠ b → twoLoads a b s la lb c → (i < length (requests s))%nat →
  twoLoads a b (assignTo [a; b] i 1 s) la (S lb) 0.
Proof.
  intros Hab ((pa & Ha & Hla) & (pb & Hb & Hlb) & Hc & Hct) Hi.
  apply lookup_lt_is_Some in Hi as [r Hr].
  destruct (assignTo_replicas [a; b] i 1 s b pb r) as (Hrep & Hrr & Hcfg); [done..|].
  unfold twoLoads. rewrite Hrep, Hrr, Hcfg.
  split_and!; [| |done|done].
  - rewrite list_lookup_alter_ne by done. eauto.
  - rewrite list_lookup_alter_eq, Hb. eexists. split; [reflexivity|].
    simpl. rewrite length_app. simpl. lia.
Qed.

Lemma assignLoop_four a b s c i0 i1 i2 i3 :
  a ≠ b → twoLoads a b s 0 0 c →
  (i0 < length (requests s))%nat → (i1 < length (requests s))%nat →
  (i2 < length (requests s))%nat → (i3 < length (requests s))%nat →
  ∃ c', twoLoads a b (assignLoop [a; b] [i0; i1; i2; i3] s) 2 2 c'.
Proof.
  intros Hab H0 Hi0 Hi1 Hi2 Hi3.
  assert (Hc : (c < 2)%nat).
  { destruct H0 as (_ & _ & <- & _). apply Nat.mod_upper_bound. lia. }
  cbn [assignLoop].
  destruct c as [|[|?]]; [| |lia].
  - rewrite (findSlot_two _ _ _ _ _ _ H0). cbn [Nat.ltb Nat.leb].
    pose proof (assignTo_twoLoads_first a b s 0 0 0 i0 Hab H0 Hi0) as H1.
    rewrite <- (assignTo_length [a; b] i0 0 s) in Hi1, Hi2, Hi3.
    set (s1 := assignTo [a; b] i0 0 s) in *. clearbody s1.
    rewrite (findSlot_two _ _ _ _ _ _ H1). cbn [Nat.ltb Nat.leb].
    pose proof (assignTo_twoLoads_second a b s1 _ _ _ i1 Hab H1 Hi1) as H2.
    rewrite <- (assignTo_length [a; b] i1 1 s1) in Hi2, Hi3.
    set (s2 := assignTo [a; b] i1 1 s1) in *. clearbody s2.
    rewrite (findSlot_two _ _ _ _ _ _ H2). cbn [Nat.ltb Nat.leb].
    pose proof (assignTo_twoLoads_first a b s2 _ _ _ i2 Hab H2 Hi2) as H3.
    rewrite <- (assignTo_length [a; b] i2 0 s2) in Hi3.
    set (s3 := assignTo [a; b] i2 0 s2) in *. clearbody s3.
    rewrite (findSlot_two _ _ _ _ _ _ H3). cbn [Nat.ltb Nat.leb].
    pose proof (assignTo_twoLoads_second a b s3 _ _ _ i3 Hab H3 Hi3) as H4.
    eauto.
  - rewrite (findSlot_two _ _ _ _ _ _ H0). cbn [Nat.ltb Nat.leb].
    pose proof (assignTo_twoLoads_second a b s 0 0 1 i0 Hab H0 Hi0) as H1.
    rewrite <- (assignTo_length [a; b] i0 1 s) in Hi1, Hi2, Hi3.
    set (s1 := assignTo [a; b] i0 1 s) in *. clearbody s1.
    rewrite (findSlot_two _ _ _ _ _ _ H1). cbn [Nat.ltb Nat.leb].
    pose proof (assignTo_twoLoads_first a b s1 _ _ _ i1 Hab H1 Hi1) as H2.
    rewrite <- (assignTo_length [a; b] i1 0 s1) in Hi2, Hi3.
    set (s2 := assignTo [a; b] i1 0 s1) in *. clearbody s2.
    rewrite (findSlot_two _ _ _ _ _ _ H2). cbn [Nat.ltb Nat.leb].
    pose proof (assignTo_twoLoads_second a b s2 _ _ _ i2 Hab H2 Hi2) as H3.
    rewrite <- (assignTo_length [a; b] i2 1 s2) in Hi3.
    set (s3 := assignTo [a; b] i2 1 s2) in *. clearbody s3.
    rewrite (findSlot_two _ _ _ _ _ _ H3). cbn [Nat.ltb Nat.leb].
    pose proof (assignTo_twoLoads_first a b s3 _ _ _ i3 Hab H3 Hi3) as H4.
    eauto.
Qed.

Lemma twoLoads_swap a b s la lb c :
  twoLoads a b s la lb c → twoLoads b a s lb la c.
Proof. unfold twoLoads. naive_solver. Qed.

(** C5. With [concurrencyTarget = 2], two ready replicas without claimed
    requests as the only ready or busy ones, and four queued requests,
    the dispatch pass leaves each of the two replicas with exactly two
    claimed requests, wherever the round-robin cursor stands. *)
Theorem round_robin_fairness (s : Simulation) (a b : nat) (pa pb : Replica) :
  concurrencyTarget (config s) = 2%Z →
  filterIdx isActiveReplica (replicas s) = [a; b] →
  replicas s !! a = Some pa → replicas s !! b = Some pb →
  rep_state pa = ready → rep_state pb = ready →
  currentRequestIds pa = [] → currentRequestIds pb = [] →
  countIf isQueued (requests s) = 4%nat →
  ∃ pa' pb',
    replicas (tryAssignToReplicas s) !! a = Some pa' ∧
    replicas (tryAssignToReplicas s) !! b = Some pb' ∧
    length (currentRequestIds pa') = 2%nat ∧ length (currentRequestIds pb') = 2%nat.
Proof.
  intros Hct Hrefs Ha Hb _ _ Hea Heb Hcount.
  assert (Hab : a ≠ b).
  { pose proof (NoDup_filterIdx isActiveReplica (replicas s)) as Hnd.
    rewrite Hrefs in Hnd. apply NoDup_cons in Hnd as [Hni _].
    intros ->. apply Hni. left. }
  assert (H0 : twoLoads a b s 0 0 (roundRobinIndex s `mod` 2)).
  { split_and!; [exists pa; by rewrite Hea|exists pb; by rewrite Heb|done|done]. }
  pose proof (allQueued_sortedQueue s) as Hq.
  assert (Hlen : length (sortedQueue (requests s)) = 4%nat).
  { unfold sortedQueue. by rewrite length_jsSort, length_filterIdx. }
  unfold tryAssignToReplicas. rewrite Hrefs.
  destruct (sortedQueue (requests s)) as [|i0 [|i1 [|i2 [|i3 [|? ?]]]]]; try done.
  assert (Hvalid : ∀ i, i ∈ [i0; i1; i2; i3] → (i < length (requests s))%nat).
  { intros i Hi. destruct (Hq i Hi) as (r & Hr & _). by eapply lookup_lt_Some. }
  assert (Hloop : ∀ refs, refs = [a; b] ∨ refs = [b; a] →
            ∃ pa' pb', replicas (assignLoop refs [i0; i1; i2; i3] s) !! a = Some pa' ∧
              replicas (assignLoop refs [i0; i1; i2; i3] s) !! b = Some pb' ∧
              length (currentRequestIds pa') = 2%nat ∧
              length (currentRequestIds pb') = 2%nat).
  { intros refs [-> | ->].
    - destruct (assignLoop_four a b s _ i0 i1 i2 i3 Hab H0)
        as (c' & (pa' & Hpa' & Hla) & (pb' & Hpb' & Hlb) & _);
        [apply Hvalid; rewrite !elem_of_cons; tauto..|]. eauto 10.
    - destruct (assignLoop_four b a s _ i0 i1 i2 i3 (not_eq_sym Hab) (twoLoads_swap _ _ _ _ _ _ H0))
        as (c' & (pb' & Hpb' & Hlb) & (pa' & Hpa' & Hla) & _);
        [apply Hvalid; rewrite !elem_of_cons; tauto..|]. eauto 10. }
  unfold jsSort. cbn [foldr sortInsert].
  match goal with |- context [if ?c then [a; b] else [b; a]] =>
    destruct (Hloop (if c then [a; b] else [b; a])) as (pa' & pb' & Hpa' & Hpb' & Hla & Hlb);
      [destruct c; auto|];
    set (refs := if c then [a; b] else [b; a]) in *;
    assert (Hrl : length refs ≠ 0%nat) by (subst refs; by destruct c)
  end.
  clearbody refs. rewrite bool_decide_eq_false_2 by done.
  match goal with |- context [assignToStartingReplicas ?l ?s1] =>
    destruct (assignToStartingReplicas_frame l s1) as (_ & -> & _) end.
  eauto 10.
Qed.

Lemma round_robin_fairness_witness :
  concurrencyTarget (config fourQueued) = 2%Z ∧
  filterIdx isActiveReplica (replicas fourQueued) = [0; 1]%nat ∧
  replicas fourQueued !! 0%nat = Some (mkReplica 0 ready None None []) ∧
  replicas fourQueued !! 1%nat = Some (mkReplica 1 ready None None []) ∧
  countIf isQueued (requests fourQueued) = 4%nat ∧
  ∃ pa' pb',
    replicas (tryAssignToReplicas fourQueued) !! 0%nat = Some pa' ∧
    replicas (tryAssignToReplicas fourQueued) !! 1%nat = Some pb' ∧
    length (currentRequestIds pa') = 2%nat ∧ length (currentRequestIds pb') = 2%nat.
Proof.
  split; [reflexivity|]. split; [reflexivity|]. split; [reflexivity|].
  split; [reflexivity|]. split; [reflexivity|].
  apply (round_robin_fairness fourQueued 0 1
           (mkReplica 0 ready None None []) (mkReplica 1 ready None None []));
    reflexivity.
Defined.

(** The same scenario as a run of the engine: two replicas are kept
    warm, four requests are admitted together, and the step that queues
    them hands requests 0 and 2 to one replica and 1 and 3 to the other. *)
Example round_robin_run :
  let cfg := mergeConfig DEFAULT_CONFIG
               (mkPartial None None None (Some 2%Z) None (Some 2%Z) None None None None None) in
  let ops := [Tick 100; Tick 3000; AddRequest 1; AddRequest 1; AddRequest 1; AddRequest 1]
             ++ replicate 33 (Tick 100) in
  (λ p, (rep_state p, currentRequestIds p)) <$> replicas (run zeroSin ops (newSimulation cfg))
  = [(busy, [0; 2]); (busy, [1; 3])]%nat.
Proof. vm_compute. reflexivity. Qed.

(** ** Order of the queue *)














(** ** The ready-capacity pass *)









(** The tie arises in a run: one replica is kept warm, it is the only
    one allowed, and two requests are admitted at the same tick. *)
Example tie_run :
  let cfg := mergeConfig DEFAULT_CONFIG
               (mkPartial None None None (Some 1%Z) (Some 1%Z) None None None None None None) in
  let ops := [Tick 100; Tick 3000; AddRequest 1; AddRequest 1] ++ replicate 33 (Tick 100) in
  (λ r, (req_id r, req_state r, priority r, createdAt r))
    <$> requests (run zeroSin ops (newSimulation cfg))
  = [(0%nat, processing, 1%Z, 3100); (1%nat, queued, 1%Z, 3100)].
Proof. vm_compute. reflexivity. Qed.

(** ** Earliest ticks of the lifecycle *)

Lemma warmedUp_mono cfg now now' p : now <= now' → warmedUp cfg now p → warmedUp cfg now' p.
Proof.
  intros Hle (H1 & H2 & H3). split_and!; [|done|done].
  intros Ha. specialize (H1 Ha). lra.
Qed.

Lemma onSchedule_mono cfg now now' r :
  now <= now' → onSchedule cfg now r → onSchedule cfg now' r.
Proof.
  intros Hle. unfold onSchedule. destruct (req_state r); try done;
    intros (t & Ht & Hc & Hlt); exists t; split_and!; try done; lra.
Qed.

Lemma warmedUp_active cfg now ct p :
  coldStartTimeMs cfg <= now → (∀ t, startingAt p = Some t → 0 <= t) →
  warmedUp cfg now (capacityState ct p).
Proof.
  intros Hc Ht. split_and!; [done| |done].
  by rewrite isActiveReplica_capacityState.
Qed.

Lemma afterClock_speed Math_sin s : speed (afterClock Math_sin s) = speed s.
Proof.
  unfold afterClock.
  destruct (updateRequests_frame Math_sin s) as (_ & _ & Hs2 & _).
  set (s2 := updateRequests Math_sin s) in *. clearbody s2.
  destruct (handleAutoscaling_frame (removeExited (updateReplicas s2)))
    as (_ & _ & Hs5 & _).
  set (s5 := handleAutoscaling _) in *. clearbody s5.
  destruct (tryAssignToReplicas_frame s5) as ((_ & _ & Hs6 & _) & _).
  set (s6 := tryAssignToReplicas s5) in *. clearbody s6.
  change (speed (updateMetrics s6)) with (speed s6). rewrite Hs6, Hs5.
  change (speed (removeExited (updateReplicas s2))) with (speed s2). by rewrite Hs2.
Qed.

Lemma afterClock_timeInv Math_sin cfg s :
  timeInv cfg s → timeInv cfg (afterClock Math_sin s).
Proof.
  intros (Hcfg & Hnow & Hspeed & Hq & Hp).
  assert (HI : stepInv cfg (state_tick s) (onSchedule cfg (state_tick s))
                 (warmedUp cfg (state_tick s)) s) by done.
  apply (Inv_afterClock Math_sin) in HI.
  - destruct HI as (Hc' & Ht' & Hq' & Hp').
    split_and!; [exact Hc'| | | |].
    + by rewrite Ht'.
    + by rewrite afterClock_speed.
    + by rewrite Ht'.
    + by rewrite Ht'.
  - done.
  - done.
  - done.
  - done.
  - done.
  - done.
  - done.
  - intros r p Hr (Hp1 & Hp2 & Hp3) Hst Hready.
    assert (Hcold : coldStartTimeMs cfg <= state_tick s).
    { apply Hp1. unfold isActiveReplica. by rewrite Hready. }
    split.
    + unfold onSchedule. simpl. exists (state_tick s). split_and!; [done|done|lra].
    + by apply warmedUp_active.
  - intros p id (Hp1 & Hp2 & Hp3). split_and!; [done| |done].
    intros Ha. simpl. by rewrite (Hp2 Ha).
  - intros p id (Hp1 & Hp2 & Hp3) Hin. apply warmedUp_active; [|done].
    apply Hp1. destruct (isActiveReplica p) eqn:Ha; [done|].
    rewrite (Hp2 eq_refl) in Hin. by apply elem_of_nil in Hin.
  - intros r Hr Hst Hlt. unfold onSchedule in *. rewrite Hst in Hr. simpl.
    destruct Hr as (t & Ht & Hc & _). exists t. rewrite Ht in Hlt. simpl in Hlt.
    split_and!; [done|done|lra].
  - intros r Hr Hst Hlt. unfold onSchedule in *. rewrite Hst in Hr. simpl.
    destruct Hr as (t & Ht & Hc & _). exists t. rewrite Ht in Hlt. simpl in Hlt.
    split_and!; [done|done|lra].
  - intros p (Hp1 & Hp2 & Hp3) Hst Htruthy Hle.
    split_and!; [|intros H; by vm_compute in H|done].
    intros _. destruct (startingAt p) as [t|] eqn:Hs; [|done].
    specialize (Hp3 t eq_refl). simpl in Hle. lra.
  - intros p (Hp1 & Hp2 & Hp3) Hst. split_and!; [done| |done].
    intros _. simpl. apply Hp2. unfold isActiveReplica. by rewrite Hst.
  - intros p (Hp1 & Hp2 & Hp3) Hst. split_and!; [done|done|].
    intros t Ht. simpl in Ht. by simplify_eq.
  - intros id. split_and!; [done|done|]. intros t Ht. simpl in Ht. by simplify_eq.
  - intros p (Hp1 & Hp2 & Hp3) Hst Hlen. split_and!; done.
  - intros r p Hr (Hp1 & Hp2 & Hp3) Ha Hlt.
    specialize (Hp1 Ha). split.
    + unfold onSchedule. simpl. exists (state_tick s). split_and!; [done|done|lra].
    + by apply warmedUp_active.
  - done.
Qed.

Lemma tick_timeInv Math_sin cfg deltaMs s :
  0 <= deltaMs → timeInv cfg s → timeInv cfg (tick Math_sin deltaMs s).
Proof.
  intros Hd HI. rewrite tick_unfold. destruct (paused s); [done|].
  apply afterClock_timeInv.
  destruct HI as (Hcfg & Hnow & Hspeed & Hq & Hp).
  assert (Hstep : 0 <= deltaMs * speed s) by (apply Qmult_le_0_compat; lra).
  pose proof (num_eq (state_tick s + deltaMs * speed s)) as Hnum.
  split_and!; fsimpl; [done|lra|done| |].
  - eapply Forall_impl; [exact Hq|]. intros r. apply onSchedule_mono. lra.
  - eapply Forall_impl; [exact Hp|]. intros p. apply warmedUp_mono. lra.
Qed.

Lemma apply_timeInv Math_sin cfg o s :
  steadyOp o → timeInv cfg s → timeInv cfg (apply Math_sin o s).
Proof.
  intros Ho HI. destruct o; cbn [apply]; try done.
  - destruct HI as (Hcfg & Hnow & Hspeed & Hq & Hp).
    split_and!; try done. fsimpl. unfold addRequest. fsimpl.
    apply Forall_app. split; [done|]. by repeat constructor.
  - by apply tick_timeInv.
  - destruct HI as (Hcfg & Hnow & Hspeed & Hq & Hp). split_and!; try done.
    unfold setSpeed. fsimpl. pose proof (Q.le_max_l 0.1 (Qmin 10 v)). lra.
  - destruct HI as (Hcfg & Hnow & Hspeed & Hq & Hp). unfold reset. rewrite Hcfg.
    case_match; split_and!; fsimpl; try done.
Qed.

Lemma newSimulation_timeInv cfg : timeInv cfg (newSimulation cfg).
Proof. unfold newSimulation. case_match; split_and!; fsimpl; done. Qed.

(** C3 (amended). With the default configuration and a single
    [addRequest(1)] at tick 0, the request is entering and no replica
    exists at tick 0. Under Advance steps of 100 ms it is validating at
    tick 3200; the step to tick 3300 admits it to the queue, creates a
    starting replica and reserves the request for it (waiting_for_model);
    the replica is ready at tick 6300 and the request enters processing
    in the next step, at tick 6400; it is delivering at tick 8500 and
    completed at tick 11600. In every state reached from a fresh engine
    with the default configuration by operations that keep the
    configuration and advance by non-negative deltas, a replica is ready
    or busy only at a tick >= 3000, and a request is processing only at
    a tick >= 3000, delivering only at a tick >= 5000 and completed only
    at a tick >= 5500. *)
Theorem cold_start_schedule Math_sin (ops : list Op) :
  Forall steadyOp ops →
  let s := run Math_sin ops (newSimulation DEFAULT_CONFIG) in
  (observe <$> (coldStart Math_sin <$> [0; 31; 32; 33; 62; 63; 64; 84; 85; 115; 116]%nat)
   = [ (0, [entering], []);
       (3100, [entering], []);
       (3200, [validating], []);
       (3300, [waiting_for_model], [starting]);
       (6200, [waiting_for_model], [starting]);
       (6300, [waiting_for_model], [ready]);
       (6400, [processing], [busy]);
       (8400, [processing], [busy]);
       (8500, [delivering], [ready]);
       (11500, [delivering], [ready]);
       (11600, [completed], [ready]) ]) ∧
  Forall (λ p, isActiveReplica p = true → 3000 <= state_tick s) (replicas s) ∧
  Forall (λ r, (req_state r = processing → 3000 <= state_tick s) ∧
               (req_state r = delivering → 5000 <= state_tick s) ∧
               (req_state r = completed → 5500 <= state_tick s)) (requests s).
Proof.
  intros Hops s. split; [vm_compute; reflexivity|].
  assert (HI : timeInv DEFAULT_CONFIG s).
  { apply (run_invariant Math_sin (timeInv DEFAULT_CONFIG) steadyOp); auto.
    - intros. by apply apply_timeInv.
    - apply newSimulation_timeInv. }
  destruct HI as (_ & _ & _ & Hq & Hp). split.
  - eapply Forall_impl; [exact Hp|]. intros p (H & _). exact H.
  - eapply Forall_impl; [exact Hq|]. intros r Hr. unfold onSchedule in Hr.
    split_and!; intros Hst; rewrite Hst in Hr; destruct Hr as (t & _ & Hc & Ht);
      simpl in Hc, Ht; lra.
Qed.

Lemma cold_start_schedule_witness :
  Forall steadyOp (AddRequest 1 :: replicate 64 (Tick 100)) ∧
  Forall (λ r, (req_state r = processing → 3000 <= state_tick (coldStart zeroSin 64)) ∧
               (req_state r = delivering → 5000 <= state_tick (coldStart zeroSin 64)) ∧
               (req_state r = completed → 5500 <= state_tick (coldStart zeroSin 64)))
         (requests (coldStart zeroSin 64)).
Proof.
  assert (H : Forall steadyOp (AddRequest 1 :: replicate 64 (Tick 100))).
  { constructor; [exact I|]. apply Forall_replicate. discriminate. }
  split; [exact H|].
  apply (cold_start_schedule zeroSin (AddRequest 1 :: replicate 64 (Tick 100)) H).
Defined.

(** C3 as stated fails. Under steps of 100 ms the request is entering,
    not queued, at tick 0 and no replica exists then; the replica is ready
    at tick 6300 while the request still waits, and the request is
    processing one step later. When the steps of the arrival phase leave
    the clock at 0, the request is reserved (not queued) at tick 0 for a
    replica starting at tick 0, and that replica is still starting at
    tick 6000. *)
Lemma cold_start_counterexample :
  observe (coldStart zeroSin 0) = (0, [entering], []) ∧
  observe (coldStart zeroSin 63) = (6300, [waiting_for_model], [ready]) ∧
  observe (coldStart zeroSin 64) = (6400, [processing], [busy]) ∧
  observe (run zeroSin (AddRequest 1 :: replicate 33 (Tick 0))
             (newSimulation DEFAULT_CONFIG))
  = (0, [waiting_for_model], [starting]) ∧
  observe (run zeroSin (AddRequest 1 :: replicate 33 (Tick 0) ++ replicate 6 (Tick 1000))
             (newSimulation DEFAULT_CONFIG))
  = (6000, [waiting_for_model], [starting]).
Proof. vm_compute. split_and!; reflexivity. Qed.

(** * Further properties *)

(** ** What a step leaves alone *)

Lemma afterClock_fields Math_sin s :
  config (afterClock Math_sin s) = config s ∧
  state_tick (afterClock Math_sin s) = state_tick s ∧
  speed (afterClock Math_sin s) = speed s ∧
  paused (afterClock Math_sin s) = paused s ∧
  nextId (afterClock Math_sin s) = nextId s.
Proof.
  unfold afterClock.
  destruct (updateRequests_frame Math_sin s) as (Hc2 & Ht2 & Hs2 & Hp2 & Hn2 & _).
  set (s2 := updateRequests Math_sin s) in *. clearbody s2.
  destruct (handleAutoscaling_frame (removeExited (updateReplicas s2)))
    as (Hc5 & Ht5 & Hs5 & Hp5 & Hn5 & _).
  set (s5 := handleAutoscaling _) in *. clearbody s5.
  destruct (tryAssignToReplicas_frame s5) as ((Hc6 & Ht6 & Hs6 & Hp6 & Hn6 & _) & _).
  set (s6 := tryAssignToReplicas s5) in *. clearbody s6.
  unfold updateMetrics. fsimpl.
  rewrite Hc6, Ht6, Hs6, Hp6, Hn6, Hc5, Ht5, Hs5, Hp5, Hn5.
  unfold removeExited, updateReplicas. fsimpl.
  by rewrite Hc2, Ht2, Hs2, Hp2, Hn2.
Qed.

(** ** The target of the autoscaler *)

Lemma setTargetReplicas_targetInv cfg v s :
  (0 ≤ maxReplicas cfg)%Z → config s = cfg → targetInv cfg (setTargetReplicas v s).
Proof. intros Hm Hc. split; [done|]. simpl. rewrite Hc. lia. Qed.

Lemma handleAutoscaling_targetInv cfg s :
  (0 ≤ maxReplicas cfg)%Z → targetInv cfg s → targetInv cfg (handleAutoscaling s).
Proof.
  intros Hm HI. unfold handleAutoscaling.
  match goal with |- context [reconcileReplicas ?s3] =>
    assert (H3 : targetInv cfg s3); [|
      destruct (reconcileReplicas_frame s3) as ((Hc & _ & _ & _ & _ & _ & Ht) & _);
      destruct H3 as [? ?]; split; [congruence | by rewrite Ht] ]
  end.
  destruct HI as [Hc Hb].
  repeat match goal with
  | |- targetInv _ (if ?b then _ else _) => destruct b
  | |- targetInv _ (match ?o with Some _ => _ | None => _ end) => destruct o
  | |- targetInv _ (setTargetReplicas _ _) => apply setTargetReplicas_targetInv; [done|]
  end; try done; repeat case_match; done.
Qed.

Lemma afterClock_targetInv Math_sin cfg s :
  (0 ≤ maxReplicas cfg)%Z → targetInv cfg s → targetInv cfg (afterClock Math_sin s).
Proof.
  intros Hm [Hc Hb]. unfold afterClock.
  destruct (updateRequests_frame Math_sin s) as (Hc2 & _ & _ & _ & _ & _ & Hg2).
  set (s2 := updateRequests Math_sin s) in *. clearbody s2.
  set (s4 := removeExited (updateReplicas s2)).
  assert (Hc4 : config s4 = config s2) by done.
  assert (Hg4 : targetReplicas s4 = targetReplicas s2) by done.
  clearbody s4.
  assert (H4 : targetInv cfg s4) by (split; [congruence | by rewrite Hg4, Hg2]).
  apply handleAutoscaling_targetInv in H4; [|done].
  set (s5 := handleAutoscaling s4) in *. clearbody s5.
  destruct (tryAssignToReplicas_frame s5) as ((Hc6 & _ & _ & _ & _ & _ & Hg6) & _).
  set (s6 := tryAssignToReplicas s5) in *. clearbody s6.
  destruct H4 as [Hc5 Hb5]. split.
  - change (config (updateMetrics s6)) with (config s6). congruence.
  - change (targetReplicas (updateMetrics s6)) with (targetReplicas s6). by rewrite Hg6.
Qed.

Lemma newSimulation_targetInv cfg :
  (0 ≤ minReplicas cfg ≤ maxReplicas cfg)%Z → targetInv cfg (newSimulation cfg).
Proof.
  intros Hm. unfold newSimulation. case_match; split; simpl; try done; lia.
Qed.

Lemma apply_targetInv Math_sin cfg o s :
  (0 ≤ minReplicas cfg ≤ maxReplicas cfg)%Z →
  isSetConfig o = false → targetInv cfg s → targetInv cfg (apply Math_sin o s).
Proof.
  intros Hm Ho HI. destruct o; simpl; try done.
  - rewrite tick_unfold. destruct (paused s); [done|].
    apply afterClock_targetInv; [lia|]. exact HI.
  - apply setTargetReplicas_targetInv; [lia | apply HI].
  - unfold reset. destruct HI as [Hc _]. rewrite Hc.
    case_match; split; simpl; try done; lia.
Qed.

(** X1. Under a fixed configuration with [0 <= minReplicas <= maxReplicas],
    the target of the autoscaler stays within [0, maxReplicas] in every
    state reached from a fresh engine: the constructor and [reset] start
    from [minReplicas], and every later write goes through the clamp of
    [setTargetReplicas]. *)
Theorem target_bound Math_sin (cfg : SimulationConfig) (ops : list Op) :
  (0 ≤ minReplicas cfg ≤ maxReplicas cfg)%Z →
  Forall (λ o, isSetConfig o = false) ops →
  let s := run Math_sin ops (newSimulation cfg) in
  (0 ≤ targetReplicas s ≤ maxReplicas (config s))%Z.
Proof.
  intros Hm Hops s.
  assert (HI : targetInv cfg s).
  { apply (run_invariant Math_sin (targetInv cfg) (λ o, isSetConfig o = false)); auto.
    - intros. by apply apply_targetInv.
    - by apply newSimulation_targetInv. }
  destruct HI as [-> ?]. done.
Qed.

Lemma target_bound_witness :
  (0 ≤ minReplicas DEFAULT_CONFIG ≤ maxReplicas DEFAULT_CONFIG)%Z ∧
  Forall (λ o, isSetConfig o = false) [SetTargetReplicas 12; AddRequest 1; Tick 100] ∧
  (0 ≤ targetReplicas (run zeroSin [SetTargetReplicas 12; AddRequest 1; Tick 100]
                        (newSimulation DEFAULT_CONFIG))
     ≤ maxReplicas (config (run zeroSin [SetTargetReplicas 12; AddRequest 1; Tick 100]
                              (newSimulation DEFAULT_CONFIG))))%Z.
Proof.
  split; [split; discriminate|]. split; [repeat constructor|].
  apply (target_bound zeroSin DEFAULT_CONFIG [SetTargetReplicas 12; AddRequest 1; Tick 100]);
    [split; discriminate | repeat constructor].
Defined.

(** ** Reset *)

(** X2. [reset] rebuilds the state the constructor builds from the current
    configuration; the speed and the pause flag, which the constructor
    initialises and [reset] does not touch, are kept. A second [reset]
    changes nothing. *)
Theorem reset_fresh (s : Simulation) :
  reset s = set_paused (paused s) (set_speed (speed s) (newSimulation (config s))) ∧
  reset (reset s) = reset s.
Proof.
  unfold reset, newSimulation, setTargetReplicas.
  destruct (0 <? minReplicas (config s))%Z eqn:Hm; fsimpl; rewrite ?Hm; done.
Qed.

(** ** The clock *)

Lemma speedInv_apply Math_sin o s : speedInv s → speedInv (apply Math_sin o s).
Proof.
  intros HI. destruct o; simpl; try done.
  - rewrite tick_unfold. destruct (paused s); [done|].
    unfold speedInv. destruct (afterClock_fields Math_sin
      (set_tick (num (state_tick s + deltaMs * speed s)) s)) as (_ & _ & -> & _). exact HI.
  - unfold speedInv, setSpeed. fsimpl. split.
    + apply Q.le_max_l.
    + apply Q.max_lub; [done|]. apply Q.le_min_l.
  - unfold reset. by case_match.
Qed.

(** X3. The speed multiplier stays within [0.1, 10] in every state reached
    from a fresh engine, whatever values [setSpeed] is called with. *)
Theorem speed_bound Math_sin (cfg : SimulationConfig) (ops : list Op) :
  let s := run Math_sin ops (newSimulation cfg) in
  0.1 <= speed s ∧ speed s <= 10.
Proof.
  intros s.
  apply (run_invariant Math_sin speedInv (λ _, True)).
  - intros. by apply speedInv_apply.
  - by apply Forall_true.
  - unfold newSimulation. by case_match.
Qed.

Lemma apply_clock Math_sin o s :
  speedInv s → forwardOp o → state_tick s <= state_tick (apply Math_sin o s).
Proof.
  intros [Hs _] Ho. destruct o; simpl in *; try apply Qle_refl; [|done].
  rewrite tick_unfold. destruct (paused s); [apply Qle_refl|].
  destruct (afterClock_fields Math_sin
    (set_tick (num (state_tick s + deltaMs * speed s)) s)) as (_ & -> & _).
  fsimpl. rewrite num_eq.
  assert (0 <= deltaMs * speed s); [|lra].
  apply Qmult_le_0_compat; [done|]. lra.
Qed.

(** X4. An Advance step that is paused changes nothing; one that is not
    paused moves the clock by [deltaMs * speed], and no later phase of the
    step touches the clock. Along a run without [reset] and without
    negative deltas the clock never goes back. *)
Theorem clock_advance Math_sin (cfg : SimulationConfig) (ops more : list Op) (deltaMs : Q) :
  Forall forwardOp more →
  let s := run Math_sin ops (newSimulation cfg) in
  (paused s = true → tick Math_sin deltaMs s = s) ∧
  (paused s = false →
   state_tick (tick Math_sin deltaMs s) == state_tick s + deltaMs * speed s) ∧
  state_tick s <= state_tick (run Math_sin more s).
Proof.
  intros Hmore s. split_and!.
  - intros Hp. by rewrite tick_unfold, Hp.
  - intros Hp. rewrite tick_unfold, Hp.
    destruct (afterClock_fields Math_sin
      (set_tick (num (state_tick s + deltaMs * speed s)) s)) as (_ & -> & _).
    fsimpl. apply num_eq.
  - assert (Hs : speedInv s).
    { apply (run_invariant Math_sin speedInv (λ _, True)).
      - intros. by apply speedInv_apply.
      - by apply Forall_true.
      - unfold newSimulation. by case_match. }
    clearbody s. revert s Hs.
    induction Hmore as [|o more Ho _ IH]; intros s Hs; simpl; [apply Qle_refl|].
    eapply Qle_trans; [apply (apply_clock Math_sin o s Hs Ho)|].
    apply IH. by apply speedInv_apply.
Qed.

Lemma clock_advance_witness :
  Forall forwardOp [Tick 100; SetSpeed 4; Tick 16] ∧
  state_tick (run zeroSin [AddRequest 1] (newSimulation DEFAULT_CONFIG))
    <= state_tick (run zeroSin [Tick 100; SetSpeed 4; Tick 16]
                     (run zeroSin [AddRequest 1] (newSimulation DEFAULT_CONFIG))).
Proof.
  split; [repeat constructor; discriminate|].
  apply (clock_advance zeroSin DEFAULT_CONFIG [AddRequest 1] [Tick 100; SetSpeed 4; Tick 16] 0).
  repeat constructor; discriminate.
Defined.

(** ** Reconciliation of the pool *)

Lemma length_filter_alter {A} (P : A → Prop) `{!∀ a, Decision (P a)}
    (f : A → A) (j : nat) (l : list A) (a : A) :
  l !! j = Some a →
  (length (filter P (alter f j l)) + (if decide (P a) then 1 else 0)
   = length (filter P l) + (if decide (P (f a)) then 1 else 0))%nat.
Proof.
  revert j. induction l as [|b l IH]; intros [|j] Hl; simplify_eq/=.
  - rewrite !filter_cons. repeat case_decide; simpl; lia.
  - rewrite !filter_cons. specialize (IH j Hl). repeat case_decide; simpl in *; lia.
Qed.

Lemma nonStopped_alter f j l p :
  l !! j = Some p → rep_state p = stopped → rep_state (f p) ≠ stopped →
  nonStopped (alter f j l) = S (nonStopped l).
Proof.
  intros Hl Hp Hf. unfold nonStopped.
  pose proof (length_filter_alter (λ p, rep_state p ≠ stopped) f j l p Hl) as H.
  rewrite decide_False, decide_True in H by auto. lia.
Qed.

Lemma nonStopped_alter_same f j l p :
  l !! j = Some p → rep_state p ≠ stopped → rep_state (f p) ≠ stopped →
  nonStopped (alter f j l) = nonStopped l.
Proof.
  intros Hl Hp Hf. unfold nonStopped.
  pose proof (length_filter_alter (λ p, rep_state p ≠ stopped) f j l p Hl) as H.
  rewrite !decide_True in H by auto. lia.
Qed.

Lemma nonStopped_all l :
  Forall (λ p, rep_state p ≠ stopped) l → nonStopped l = length l.
Proof.
  intros H. unfold nonStopped. induction H as [|p l Hp _ IH]; [done|].
  rewrite filter_cons, decide_True by done. simpl. by rewrite IH.
Qed.

Lemma findIndex_stopped_None l :
  findIndex (λ p, bool_decide (rep_state p = stopped)) l = None →
  Forall (λ p, rep_state p ≠ stopped) l.
Proof.
  intros H. apply findIndex_None in H. eapply Forall_impl; [exact H|].
  intros p Hp Hst. apply Hp. by apply bool_decide_eq_true.
Qed.

(** The first loop keeps its counter equal to the number of replicas that
    are not stopped, and stops short of [n] rounds only when the pool is
    full and nothing is left to restart. *)
Lemma scaleUpLoop_count n s :
  let r := scaleUpLoop n (nonStopped (replicas s)) s in
  r.1 = nonStopped (replicas r.2) ∧
  (r.1 = (nonStopped (replicas s) + n)%nat ∨
   (Forall (λ p, rep_state p ≠ stopped) (replicas r.2) ∧
    (maxReplicas (config s) ≤ Z.of_nat (length (replicas r.2)))%Z)).
Proof.
  revert s. induction n as [|n IH]; intros s; simpl.
  { split; [done|]. left. lia. }
  destruct (findIndex _ _) as [j|] eqn:Hj.
  - apply findIndex_Some in Hj as (p & Hp & Hst & _). apply bool_decide_eq_true in Hst.
    match goal with |- context [scaleUpLoop n _ ?s1] =>
      specialize (IH s1); set (s' := s1) in * end.
    assert (Hn : nonStopped (replicas s') = S (nonStopped (replicas s))).
    { subst s'. fsimpl. eapply nonStopped_alter; eauto. }
    rewrite Hn in IH. cbn zeta in IH. destruct IH as [IH1 IH2].
    split; [done|]. destruct IH2 as [IH2|IH2]; [left; lia|right; exact IH2].
  - destruct (_ <? _)%Z eqn:Hlt.
    + match goal with |- context [scaleUpLoop n _ ?s1] =>
        specialize (IH s1); set (s' := s1) in * end.
      assert (Hn : nonStopped (replicas s') = S (nonStopped (replicas s))).
      { subst s'. fsimpl. unfold nonStopped. rewrite filter_app, length_app.
        rewrite filter_cons, decide_True by done. simpl. lia. }
      rewrite Hn in IH. cbn zeta in IH. destruct IH as [IH1 IH2].
      split; [done|]. destruct IH2 as [IH2|IH2]; [left; lia|right; exact IH2].
    + simpl. split; [done|]. right. apply Z.ltb_ge in Hlt.
      split; [by apply findIndex_stopped_None | done].
Qed.

Lemma scaleDownLoop_nonStopped n active s :
  nonStopped (replicas (scaleDownLoop n active s).2) = nonStopped (replicas s).
Proof.
  revert active s. induction n as [|n IH]; intros active s; simpl; [done|].
  destruct (findIndex _ _) as [j|] eqn:Hj; [|done].
  apply findIndex_Some in Hj as (p & Hp & Hst & _).
  apply andb_true_iff in Hst as [Hst _]. apply bool_decide_eq_true in Hst.
  rewrite IH. fsimpl. eapply nonStopped_alter_same; eauto; simpl; congruence.
Qed.

Lemma scaleDownLoop_config n active s :
  config (scaleDownLoop n active s).2 = config s ∧
  targetReplicas (scaleDownLoop n active s).2 = targetReplicas s.
Proof.
  destruct (scaleDownLoop_frame n active s) as ((? & _ & _ & _ & _ & _ & ?) & _). done.
Qed.

(** X5. Scale-up is immediate: when the target does not exceed
    [maxReplicas], [reconcileReplicas] leaves at least [targetReplicas]
    replicas that are not stopped, restarting stopped ones and creating
    new ones as needed. *)
Theorem reconcile_reaches_target (s : Simulation) :
  (targetReplicas s ≤ maxReplicas (config s))%Z →
  (targetReplicas s ≤ Z.of_nat (nonStopped (replicas (reconcileReplicas s))))%Z.
Proof.
  intros Hmax. unfold reconcileReplicas. fold (nonStopped (replicas s)).
  pose proof (scaleUpLoop_count
    (Z.to_nat (targetReplicas s - Z.of_nat (nonStopped (replicas s)))) s) as H.
  cbn zeta in H.
  destruct (scaleUpLoop _ _ s) as [a1 s1]. simpl in H.
  rewrite scaleDownLoop_nonStopped.
  destruct H as [H1 [H2|[H2 H3]]].
  - lia.
  - rewrite nonStopped_all by done. lia.
Qed.

Lemma reconcile_reaches_target_witness :
  (targetReplicas mixedPool ≤ maxReplicas (config mixedPool))%Z ∧
  (targetReplicas mixedPool
     ≤ Z.of_nat (nonStopped (replicas (reconcileReplicas mixedPool))))%Z.
Proof.
  split; [discriminate|].
  apply (reconcile_reaches_target mixedPool). discriminate.
Defined.

Lemma scaleUpLoop_spares n active s j p :
  replicas s !! j = Some p → rep_state p ≠ stopped →
  replicas (scaleUpLoop n active s).2 !! j = Some p.
Proof.
  revert active s. induction n as [|n IH]; intros active s Hp Hst; simpl; [done|].
  destruct (findIndex _ _) as [k|] eqn:Hk.
  - apply IH; [|done]. fsimpl.
    apply findIndex_Some in Hk as (q & Hq & Hqs & _). apply bool_decide_eq_true in Hqs.
    rewrite list_lookup_alter_ne; [done|]. intros ->. congruence.
  - destruct (_ <? _)%Z; [|done]. apply IH; [|done]. fsimpl.
    by apply lookup_app_l_Some.
Qed.

Lemma scaleDownLoop_spares n active s j p :
  replicas s !! j = Some p → ¬ isIdleReady p →
  replicas (scaleDownLoop n active s).2 !! j = Some p.
Proof.
  revert active s. induction n as [|n IH]; intros active s Hp Hst; simpl; [done|].
  destruct (findIndex _ _) as [k|] eqn:Hk; [|done].
  apply IH; [|done]. fsimpl.
  apply findIndex_Some in Hk as (q & Hq & Hqs & _).
  apply andb_true_iff in Hqs as [H1 H2].
  apply bool_decide_eq_true in H1. apply bool_decide_eq_true in H2.
  rewrite list_lookup_alter_ne; [done|]. intros ->. simplify_eq. by apply Hst.
Qed.

(** X6. [reconcileReplicas] restarts stopped replicas and stops ready
    replicas that hold no request, and nothing else: a replica that is
    busy, starting or stopping, or ready with a request in hand, is left
    exactly as it is, and so are the requests and the target. *)
Theorem reconcile_spares (s : Simulation) (j : nat) (p : Replica) :
  replicas s !! j = Some p →
  rep_state p ≠ stopped →
  ¬ (rep_state p = ready ∧ length (currentRequestIds p) = 0%nat) →
  replicas (reconcileReplicas s) !! j = Some p ∧
  requests (reconcileReplicas s) = requests s ∧
  targetReplicas (reconcileReplicas s) = targetReplicas s.
Proof.
  intros Hp Hst Hidle. split.
  - unfold reconcileReplicas.
    match goal with |- context [scaleUpLoop ?n ?a s] =>
      pose proof (scaleUpLoop_spares n a s j p Hp Hst) as H1;
      destruct (scaleUpLoop n a s) as [a1 s1] end.
    simpl in H1. by apply scaleDownLoop_spares.
  - destruct (reconcileReplicas_frame s) as ((_ & _ & _ & _ & _ & _ & Ht) & Hr & _). done.
Qed.

Lemma reconcile_spares_witness :
  replicas mixedPool !! 0%nat = Some (mkReplica 0 busy None None [7%nat]) ∧
  replicas (reconcileReplicas mixedPool) !! 0%nat = Some (mkReplica 0 busy None None [7%nat]).
Proof.
  split; [reflexivity|].
  apply (reconcile_spares mixedPool 0 (mkReplica 0 busy None None [7%nat]));
    [reflexivity | discriminate | intros [? _]; discriminate].
Defined.

Lemma scaleDownLoop_count n active s :
  length (filter isStopping (replicas (scaleDownLoop n active s).2))
  = (length (filter isStopping (replicas s))
     + Nat.min n (length (filter isIdleReady (replicas s))))%nat.
Proof.
  revert active s. induction n as [|n IH]; intros active s; cbn [scaleDownLoop]; [fsimpl; lia|].
  destruct (findIndex _ _) as [k|] eqn:Hk.
  - apply findIndex_Some in Hk as (q & Hq & Hqs & _).
    apply andb_true_iff in Hqs as [H1 H2].
    apply bool_decide_eq_true in H1. apply bool_decide_eq_true in H2.
    rewrite IH. fsimpl.
    match goal with |- context [alter ?f k _] =>
      pose proof (length_filter_alter isStopping f k _ q Hq) as Hs;
      pose proof (length_filter_alter isIdleReady f k _ q Hq) as Hi end.
    rewrite (decide_False (P := isStopping q)) in Hs by (unfold isStopping; congruence).
    rewrite (decide_True (P := isStopping _)) in Hs by done.
    rewrite (decide_True (P := isIdleReady q)) in Hi by done.
    rewrite (decide_False (P := isIdleReady _)) in Hi by (intros [? _]; done).
    lia.
  - apply findIndex_None in Hk.
    assert (Hz : length (filter isIdleReady (replicas s)) = 0%nat).
    { induction Hk as [|q l Hq _ IHl]; [done|].
      rewrite filter_cons, decide_False; [done|].
      intros [H1 H2]. apply Hq. apply andb_true_iff. by rewrite !bool_decide_eq_true. }
    fsimpl. rewrite Hz. lia.
Qed.

(** X7. Scale-down counts the replicas that are already stopping among the
    active ones: when more than [targetReplicas] replicas are not
    stopped, [reconcileReplicas] moves idle ready replicas to stopping,
    as many as the excess or as there are, whatever the number of
    replicas that are stopping already. *)
Theorem reconcile_scale_down (s : Simulation) :
  (targetReplicas s < Z.of_nat (nonStopped (replicas s)))%Z →
  length (filter isStopping (replicas (reconcileReplicas s)))
  = (length (filter isStopping (replicas s))
     + Nat.min (Z.to_nat (Z.of_nat (nonStopped (replicas s)) - targetReplicas s))
               (length (filter isIdleReady (replicas s))))%nat.
Proof.
  intros Hlt. unfold reconcileReplicas. fold (nonStopped (replicas s)).
  replace (Z.to_nat (targetReplicas s - Z.of_nat (nonStopped (replicas s)))) with 0%nat by lia.
  simpl. apply scaleDownLoop_count.
Qed.

Lemma reconcile_scale_down_witness :
  let s := set_targetReplicas 1 mixedPool in
  (targetReplicas s < Z.of_nat (nonStopped (replicas s)))%Z ∧
  length (filter isStopping (replicas (reconcileReplicas s))) = 2%nat.
Proof.
  split; [reflexivity|].
  apply (reconcile_scale_down (set_targetReplicas 1 mixedPool)). reflexivity.
Defined.

(** ** The rules of the autoscaler *)

Lemma countIf_0 {A} (p : A → bool) (l : list A) :
  countIf p l = 0%nat → Forall (λ a, p a = false) l.
Proof.
  unfold countIf. induction l as [|a l IH]; [done|].
  rewrite filter_cons. destruct (decide (p a = true)) as [Hp|Hp]; simpl; [done|].
  intros H. constructor; [by destruct (p a)|auto].
Qed.

Lemma countIf_impl {A} (p q : A → bool) (l : list A) :
  (∀ a, p a = true → q a = true) → (countIf p l ≤ countIf q l)%nat.
Proof.
  intros Hpq. unfold countIf. induction l as [|a l IH]; [done|].
  rewrite !filter_cons. destruct (decide (p a = true)) as [Hp|Hp].
  - rewrite decide_True by auto. simpl. lia.
  - case_decide; simpl; lia.
Qed.

Lemma demand_inFlight s :
  (0 < autoscalerDemand s)%Z → countIf isInFlight (requests s) ≠ 0%nat.
Proof.
  unfold autoscalerDemand, autoscalerLoad. intros H.
  pose proof (countIf_impl isWaiting isInFlight (requests s)) as H1.
  pose proof (countIf_impl (λ r, bool_decide (req_state r = processing)) isInFlight
                (requests s)) as H2.
  assert ((countIf isWaiting (requests s) ≤ countIf isInFlight (requests s))%nat).
  { apply H1. intros r. unfold isWaiting, isInFlight.
    rewrite orb_true_iff, !bool_decide_eq_true. intros [-> | ->]; done. }
  assert ((countIf (λ r, bool_decide (req_state r = processing)) (requests s)
           ≤ countIf isInFlight (requests s))%nat).
  { apply H2. intros r. unfold isInFlight. rewrite !bool_decide_eq_true. intros ->. done. }
  lia.
Qed.

Lemma scaleUpLoop_starts n active s :
  (0 < n)%nat →
  (¬ Forall (λ p, rep_state p ≠ stopped) (replicas s) ∨
   (Z.of_nat (length (replicas s)) < maxReplicas (config s))%Z) →
  ∃ j p, replicas (scaleUpLoop n active s).2 !! j = Some p ∧
         rep_state p = starting ∧ startingAt p = Some (state_tick s).
Proof.
  intros Hn Hroom. destruct n as [|n]; [lia|]. simpl.
  destruct (findIndex _ _) as [k|] eqn:Hk.
  - apply findIndex_Some in Hk as (q & Hq & _).
    match goal with |- context [scaleUpLoop n _ (upd_rep k ?f s)] =>
      exists k, (f q); split; [|done];
      apply scaleUpLoop_spares; [|done] end.
    fsimpl. by rewrite list_lookup_alter_eq, Hq.
  - apply findIndex_stopped_None in Hk. destruct Hroom as [Hroom|Hroom]; [done|].
    apply Z.ltb_lt in Hroom. rewrite Hroom.
    exists (length (replicas s)), (mkReplica (nextReplicaId s) starting (Some (state_tick s)) None []).
    split; [|done]. apply scaleUpLoop_spares; [|done]. fsimpl.
    rewrite lookup_app_r by lia. by rewrite Nat.sub_diag.
Qed.

(** X8. Scale from zero. When a request is waiting or processing and no
    replica is ready, busy or starting, [handleAutoscaling] sets the
    target to [max(1, minReplicas)] clamped to [0, maxReplicas], whatever
    the size of the load and whatever the scale-up rule computed before,
    and records the step as activity. If moreover no replica is stopping
    and [maxReplicas] is at least 1, a replica is starting afterwards,
    with the current tick as [startingAt]. *)
Theorem scale_from_zero (s : Simulation) :
  (0 < autoscalerDemand s)%Z → autoscalerReplicas s = 0%Z →
  let s' := handleAutoscaling s in
  targetReplicas s'
    = Z.max 0 (Z.min (Z.max 1 (minReplicas (config s))) (maxReplicas (config s))) ∧
  lastActivityTick s' = state_tick s ∧
  (Forall (λ p, rep_state p ≠ stopping) (replicas s) → (1 ≤ maxReplicas (config s))%Z →
   ∃ j p, replicas s' !! j = Some p ∧
          rep_state p = starting ∧ startingAt p = Some (state_tick s)).
Proof.
  intros Hd Hz s'. subst s'.
  pose proof (demand_inFlight s Hd) as Hfl.
  unfold autoscalerDemand, autoscalerReplicas, autoscalerLoad in Hd, Hz.
  unfold handleAutoscaling.
  set (w := countIf isWaiting (requests s)) in *.
  set (pc := countIf (λ r, bool_decide (req_state r = processing)) (requests s)) in *.
  set (tot := (countIf isActiveReplica (replicas s)
               + countIf (λ p, bool_decide (rep_state p = starting)) (replicas s))%nat) in *.
  set (s1 := if (_ <? _)%Z && (_ <? _)%Z then _ else s).
  assert (H1 : config s1 = config s ∧ state_tick s1 = state_tick s ∧
               requests s1 = requests s ∧ replicas s1 = replicas s).
  { subst s1. repeat case_match; done. }
  destruct H1 as (Hc1 & Ht1 & Hq1 & Hp1). clearbody s1.
  assert (Hcond : (bool_decide (0 < w)%nat || bool_decide (0 < pc)%nat)
                  && bool_decide (tot = 0%nat) = true).
  { apply andb_true_iff. split.
    - apply orb_true_iff. rewrite !bool_decide_eq_true. lia.
    - apply bool_decide_eq_true. lia. }
  rewrite Hcond.
  set (s2 := setTargetReplicas _ s1).
  assert (Hno : bool_decide (countIf isInFlight (requests s2) = 0%nat) = false).
  { apply bool_decide_eq_false. subst s2. unfold setTargetReplicas. fsimpl. by rewrite Hq1. }
  rewrite Hno, andb_false_r. cbn [andb].
  destruct (reconcileReplicas_frame s2) as ((_ & _ & _ & _ & _ & _ & Hg) & _ & _ & Ha).
  rewrite Hg, Ha. split; [|split].
  - subst s2. unfold setTargetReplicas. fsimpl. by rewrite Hc1.
  - subst s2. unfold setTargetReplicas. fsimpl. done.
  - intros Hns Hmax.
    assert (Hall : Forall (λ p, rep_state p = stopped) (replicas s)).
    { assert (Ha0 : countIf isActiveReplica (replicas s) = 0%nat) by lia.
      assert (Hs0 : countIf (λ p, bool_decide (rep_state p = starting)) (replicas s) = 0%nat)
        by lia.
      apply countIf_0 in Ha0. apply countIf_0 in Hs0.
      rewrite Forall_forall in Ha0, Hs0, Hns. apply Forall_forall. intros p Hp.
      specialize (Ha0 p Hp). specialize (Hs0 p Hp). specialize (Hns p Hp).
      unfold isActiveReplica in Ha0. apply orb_false_iff in Ha0 as [Hr Hb].
      apply bool_decide_eq_false in Hr. apply bool_decide_eq_false in Hb.
      apply bool_decide_eq_false in Hs0. by destruct (rep_state p). }
    assert (Hn0 : nonStopped (replicas s) = 0%nat).
    { unfold nonStopped. clear -Hall. induction Hall as [|p l Hp _ IH]; [done|].
      by rewrite filter_cons, decide_False by (intros H; by apply H). }
    unfold reconcileReplicas. fold (nonStopped (replicas s2)).
    assert (Hr2 : replicas s2 = replicas s) by (subst s2; unfold setTargetReplicas; fsimpl; done).
    assert (Ht2 : state_tick s2 = state_tick s) by (subst s2; unfold setTargetReplicas; fsimpl; done).
    assert (Hc2 : config s2 = config s) by (subst s2; unfold setTargetReplicas; fsimpl; done).
    assert (Hg2 : (1 ≤ targetReplicas s2)%Z).
    { subst s2. unfold setTargetReplicas. fsimpl. rewrite Hc1. lia. }
    rewrite Hr2, Hn0.
    destruct (scaleUpLoop_starts (Z.to_nat (targetReplicas s2 - Z.of_nat 0)) 0 s2)
      as (j & p & Hp & Hst & Hat); [lia| |].
    { rewrite Hr2, Hc2. destruct (replicas s) as [|q l] eqn:Hl.
      - right. simpl. lia.
      - left. intros Hf. apply Forall_cons in Hf as [Hf _].
        apply Forall_cons in Hall as [Hq _]. done. }
    destruct (scaleUpLoop _ _ s2) as [a1 s3]. simpl in *.
    exists j, p. split; [|by rewrite <- Ht2].
    apply scaleDownLoop_spares; [done|]. intros [? _]. congruence.
Qed.

Lemma scale_from_zero_witness :
  (0 < autoscalerDemand stuckQueue)%Z ∧ autoscalerReplicas stuckQueue = 0%Z ∧
  targetReplicas (handleAutoscaling stuckQueue) = 1%Z.
Proof.
  split; [reflexivity|]. split; [reflexivity|].
  destruct (scale_from_zero stuckQueue) as (H & _); [reflexivity|reflexivity|].
  exact H.
Defined.

Lemma ceil_div_spec (load ct : Z) :
  (0 < ct)%Z →
  (load ≤ - (- load / ct) * ct ∧ (- (- load / ct) - 1) * ct < load)%Z.
Proof.
  intros Hct.
  pose proof (Z.div_mod (- load) ct) as H1.
  pose proof (Z.mod_pos_bound (- load) ct Hct) as H2.
  nia.
Qed.

(** X9. Scale up. With [concurrencyTarget >= 1] and at least one replica
    ready, busy or starting, when the load (waiting plus processing)
    exceeds [replicas * concurrencyTarget] and the pool is not full,
    [handleAutoscaling] never lowers the target; the target it leaves
    covers the load at [concurrencyTarget] requests per replica, or is
    [maxReplicas]; and when it raises the target it raises it to the
    least such number. *)
Theorem scale_up_magnitude (s : Simulation) :
  let load := autoscalerDemand s in
  let total := autoscalerReplicas s in
  let ct := concurrencyTarget (config s) in
  let mx := maxReplicas (config s) in
  (1 ≤ ct)%Z → (1 ≤ total)%Z → (total * ct < load)%Z → (total < mx)%Z →
  let T := targetReplicas (handleAutoscaling s) in
  (targetReplicas s ≤ T)%Z ∧
  (load ≤ T * ct ∨ mx ≤ T)%Z ∧
  (targetReplicas s < T → (T - 1) * ct < load ∧ T ≤ mx)%Z.
Proof.
  intros load total ct mx Hct Htot Hload Hmx T. subst T.
  assert (Hd : (0 < autoscalerDemand s)%Z) by (subst load total; nia).
  pose proof (demand_inFlight s Hd) as Hfl.
  subst load total. unfold autoscalerDemand, autoscalerReplicas, autoscalerLoad in *.
  unfold handleAutoscaling.
  set (w := countIf isWaiting (requests s)) in *.
  set (pc := countIf (λ r, bool_decide (req_state r = processing)) (requests s)) in *.
  set (tot := (countIf isActiveReplica (replicas s)
               + countIf (λ p, bool_decide (rep_state p = starting)) (replicas s))%nat) in *.
  fold ct mx.
  assert (Hc1 : (Z.of_nat tot * ct <? Z.of_nat (w + pc))%Z && (Z.of_nat tot <? mx)%Z = true).
  { apply andb_true_iff. split; by apply Z.ltb_lt. }
  rewrite Hc1. unfold scaleUpTarget.
  assert (Hct0 : (ct =? 0)%Z = false) by (apply Z.eqb_neq; lia).
  rewrite Hct0.
  destruct (ceil_div_spec (Z.of_nat (w + pc)) ct) as [Hn1 Hn2]; [lia|].
  set (needed := (- (- Z.of_nat (w + pc) / ct))%Z) in *.
  assert (Hc2 : (bool_decide (0 < w)%nat || bool_decide (0 < pc)%nat)
                && bool_decide (tot = 0%nat) = false).
  { apply andb_false_iff. right. apply bool_decide_eq_false. lia. }
  set (s1 := if (targetReplicas s <? _)%Z then _ else s).
  assert (H1 : requests s1 = requests s ∧
               (targetReplicas s1 = targetReplicas s ∧ (Z.min needed mx ≤ targetReplicas s)%Z ∨
                targetReplicas s1 = Z.min needed mx ∧ (targetReplicas s < Z.min needed mx)%Z)).
  { subst s1. destruct (targetReplicas s <? _)%Z eqn:Hlt.
    - apply Z.ltb_lt in Hlt. split; [done|]. right. split; [|done].
      unfold setTargetReplicas. fsimpl. fold mx. nia.
    - apply Z.ltb_ge in Hlt. split; [done|]. by left. }
  destruct H1 as [Hq1 Hg1]. clearbody s1. rewrite Hc2.
  assert (Hno : bool_decide (countIf isInFlight (requests s1) = 0%nat) = false).
  { apply bool_decide_eq_false. by rewrite Hq1. }
  rewrite Hno, andb_false_r. cbn [andb].
  destruct (reconcileReplicas_frame s1) as ((_ & _ & _ & _ & _ & _ & Hg) & _).
  rewrite Hg. destruct Hg1 as [[-> Hle]|[-> Hlt]].
  - split; [lia|]. split; [|lia].
    destruct (Z.min_spec needed mx) as [[_ Hm]|[_ Hm]]; rewrite Hm in Hle; [left|right]; nia.
  - split; [lia|]. split.
    + destruct (Z.min_spec needed mx) as [[_ ->]|[_ ->]]; [left|right]; lia.
    + intros _. split; [|lia].
      destruct (Z.min_spec needed mx) as [[Hle ->]|[Hle ->]]; [lia|].
      assert ((mx - 1) * ct ≤ (needed - 1) * ct)%Z by (apply Z.mul_le_mono_nonneg_r; lia).
      lia.
Qed.

Lemma scale_up_magnitude_witness :
  (1 ≤ concurrencyTarget (config burstQueue))%Z ∧ (1 ≤ autoscalerReplicas burstQueue)%Z ∧
  (autoscalerReplicas burstQueue * concurrencyTarget (config burstQueue)
     < autoscalerDemand burstQueue)%Z ∧
  (autoscalerReplicas burstQueue < maxReplicas (config burstQueue))%Z ∧
  (targetReplicas burstQueue ≤ targetReplicas (handleAutoscaling burstQueue))%Z.
Proof.
  split; [discriminate|]. split; [discriminate|]. split; [reflexivity|]. split; [reflexivity|].
  destruct (scale_up_magnitude burstQueue) as (H & _);
    [discriminate | discriminate | reflexivity | reflexivity |].
  exact H.
Defined.

(** ** What a step does to the requests *)

Lemma updateRequests_length Math_sin s :
  length (requests (updateRequests Math_sin s)) = length (requests s).
Proof. unfold updateRequests. apply foldl_updateRequest_length. Qed.

Lemma updateRequests_updated Math_sin s :
  Forall2 (updated Math_sin (state_tick s) (config s))
    (requests s) (requests (updateRequests Math_sin s)).
Proof.
  apply Forall2_same_length_lookup_2; [by rewrite updateRequests_length|].
  intros i r r2 Hr Hr2.
  destruct (updateRequests_at Math_sin s i r Hr) as (rA & r2' & _ & HeA & Hr2' & He2).
  simplify_eq. exists rA. eauto.
Qed.

Lemma assignLoop_length refs waiting s :
  length (requests (assignLoop refs waiting s)) = length (requests s).
Proof.
  revert s. induction waiting as [|i rest IH]; intros s; simpl; [done|].
  case_match; [|done]. by rewrite IH, assignTo_length.
Qed.

Lemma assignToStartingStep_length total srefs s ki :
  length (requests (assignToStartingStep total srefs s ki)) = length (requests s).
Proof.
  destruct ki as [k i]. unfold assignToStartingStep. repeat case_match; try done.
  rewrite repositionQueue_length. fsimpl. by rewrite length_alter.
Qed.

Lemma foldl_assignToStartingStep_length total srefs ks s :
  length (requests (foldl (assignToStartingStep total srefs) s ks)) = length (requests s).
Proof.
  revert s. induction ks as [|k ks IH]; intros s; simpl; [done|].
  by rewrite IH, assignToStartingStep_length.
Qed.

Lemma assignToStartingReplicas_length refs s :
  length (requests (assignToStartingReplicas refs s)) = length (requests s).
Proof.
  unfold assignToStartingReplicas. repeat case_bool_decide; try done.
  apply foldl_assignToStartingStep_length.
Qed.

Lemma tryAssignToReplicas_length s :
  length (requests (tryAssignToReplicas s)) = length (requests s).
Proof.
  unfold tryAssignToReplicas. case_bool_decide.
  - apply assignToStartingReplicas_length.
  - by rewrite assignToStartingReplicas_length, assignLoop_length.
Qed.

Lemma tryAssignToReplicas_assigned s :
  Forall2 (assignEffect (state_tick s)) (requests s) (requests (tryAssignToReplicas s)).
Proof.
  apply Forall2_same_length_lookup_2; [by rewrite tryAssignToReplicas_length|].
  intros k r r' Hr Hr'.
  destruct (tryAssignToReplicas_effect s k r Hr) as (r1 & Hr1 & He). by simplify_eq.
Qed.

(** The requests after the phases that follow the clock: the updated
    requests that pass the pruning test, each as the dispatcher leaves
    it. *)
Lemma afterClock_requests Math_sin s :
  ∃ l2, Forall2 (updated Math_sin (state_tick s) (config s)) (requests s) l2 ∧
        Forall2 (assignEffect (state_tick s))
          (filter (λ r, negb (bool_decide (req_state r = exiting)) || Qltb 0.01 (alpha r) = true) l2)
          (requests (afterClock Math_sin s)).
Proof.
  exists (requests (updateRequests Math_sin s)). split; [apply updateRequests_updated|].
  unfold afterClock.
  destruct (updateRequests_frame Math_sin s) as (_ & Ht2 & _).
  set (s2 := updateRequests Math_sin s) in *. clearbody s2.
  set (s4 := removeExited (updateReplicas s2)).
  assert (Hq4 : requests s4
    = filter (λ r, negb (bool_decide (req_state r = exiting)) || Qltb 0.01 (alpha r) = true)
        (requests s2)) by done.
  assert (Ht4 : state_tick s4 = state_tick s2) by done.
  clearbody s4. rewrite <- Hq4.
  destruct (handleAutoscaling_frame s4) as (_ & Ht5 & _ & _ & _ & _ & Hq5 & _).
  pose proof (tryAssignToReplicas_assigned (handleAutoscaling s4)) as H6.
  set (s5 := handleAutoscaling s4) in *. clearbody s5.
  set (s6 := tryAssignToReplicas s5) in *. clearbody s6.
  change (requests (updateMetrics s6)) with (requests s6).
  by rewrite <- Hq5, <- Ht2, <- Ht4, <- Ht5.
Qed.

Lemma evolves_lookup Math_sin s k r' :
  requests (afterClock Math_sin s) !! k = Some r' →
  ∃ i r, requests s !! i = Some r ∧ evolves Math_sin (state_tick s) (config s) r r'.
Proof.
  intros Hk. destruct (afterClock_requests Math_sin s) as (l2 & H2 & H6).
  destruct (Forall2_lookup_r _ _ _ _ _ H6 Hk) as (r2 & Hr2 & He).
  apply list_elem_of_lookup_2, list_elem_of_filter in Hr2 as [Hkept Hin].
  apply list_elem_of_lookup_1 in Hin as [i Hi].
  destruct (Forall2_lookup_r _ _ _ _ _ H2 Hi) as (r & Hr & Hu).
  exists i, r. split; [done|]. exists r2. done.
Qed.

(** ** Identities of the requests *)

Lemma ownUpdate_req_id Math_sin now cfg claims r :
  req_id (ownUpdate Math_sin now cfg claims r) = req_id r.
Proof.
  unfold ownUpdate, fadeOut, claimedNow, expiredNow.
  destruct (req_state r); repeat case_match; done.
Qed.

Lemma eqX_req_id r r' : eqX r r' → req_id r' = req_id r.
Proof. intros H. by apply eqX_fields in H as (? & _). Qed.

Lemma updated_req_id Math_sin now cfg r r2 :
  updated Math_sin now cfg r r2 → req_id r2 = req_id r.
Proof.
  intros (rA & claims & HeA & He2).
  by rewrite (eqX_req_id _ _ He2), ownUpdate_req_id, (eqX_req_id _ _ HeA).
Qed.

Lemma assignEffect_req_id now r r' : assignEffect now r r' → req_id r' = req_id r.
Proof.
  intros [H|[(_ & id & H)|(_ & id & H)]]; by rewrite (eqX_req_id _ _ H).
Qed.

Lemma evolves_req_id Math_sin now cfg r r' :
  evolves Math_sin now cfg r r' → req_id r' = req_id r.
Proof.
  intros (r2 & Hu & _ & Ha).
  by rewrite (assignEffect_req_id _ _ _ Ha), (updated_req_id _ _ _ _ _ Hu).
Qed.

Lemma Forall2_fmap_eq {A B} (f : A → B) (l k : list A) :
  Forall2 (λ a b, f b = f a) l k → f <$> k = f <$> l.
Proof. induction 1 as [|a b l k Hab _ IH]; csimpl; [done|]. by rewrite Hab, IH. Qed.

Lemma afterClock_ids Math_sin s :
  req_id <$> requests (afterClock Math_sin s) `sublist_of` req_id <$> requests s.
Proof.
  destruct (afterClock_requests Math_sin s) as (l2 & H2 & H6).
  rewrite (Forall2_fmap_eq req_id _ _
             (Forall2_impl _ _ _ _ H6 (assignEffect_req_id _))).
  rewrite <- (Forall2_fmap_eq req_id _ _
             (Forall2_impl _ _ _ _ H2 (updated_req_id _ _ _))).
  apply fmap_sublist, sublist_filter.
Qed.

Lemma afterClock_idInv Math_sin s : idInv s → idInv (afterClock Math_sin s).
Proof.
  intros [Hnd Hlt]. pose proof (afterClock_ids Math_sin s) as Hsub. split.
  - eapply sublist_NoDup; eauto.
  - destruct (afterClock_fields Math_sin s) as (_ & _ & _ & _ & ->).
    apply Forall_forall. intros r' Hr'.
    assert (Hin : req_id r' ∈ req_id <$> requests s).
    { eapply elem_of_sublist; [|exact Hsub]. by apply list_elem_of_fmap_2. }
    apply list_elem_of_fmap in Hin as (r & -> & Hr).
    rewrite Forall_forall in Hlt. auto.
Qed.

Lemma apply_idInv Math_sin o s : idInv s → idInv (apply Math_sin o s).
Proof.
  intros HI. destruct o; simpl; try done.
  - destruct HI as [Hnd Hlt]. unfold addRequest. split; fsimpl.
    + rewrite fmap_app. apply NoDup_app. split; [done|]. split; [|apply NoDup_singleton].
      intros id Hid Hid'. apply list_elem_of_singleton in Hid'. subst.
      apply list_elem_of_fmap in Hid as (r & Hr1 & Hr). rewrite Forall_forall in Hlt.
      specialize (Hlt r Hr). simpl in Hr1. lia.
    + apply Forall_app. split; [|repeat constructor; simpl; lia].
      eapply Forall_impl; [exact Hlt|]. simpl. intros. lia.
  - rewrite tick_unfold. destruct (paused s); [done|].
    apply afterClock_idInv. exact HI.
  - unfold reset. case_match; split; simpl; constructor.
Qed.

(** X10. In every state reached from a fresh engine, by any operations, the
    identities of the requests are pairwise distinct and below the
    counter [nextId], so that the identity [addRequest] hands out next is
    new. *)
Theorem request_ids_unique Math_sin (cfg : SimulationConfig) (ops : list Op) :
  let s := run Math_sin ops (newSimulation cfg) in
  NoDup (req_id <$> requests s) ∧
  Forall (λ r, (req_id r < nextId s)%nat) (requests s) ∧
  nextId s ∉ req_id <$> requests s.
Proof.
  intros s.
  assert (HI : idInv s).
  { apply (run_invariant Math_sin idInv (λ _, True)).
    - intros. by apply apply_idInv.
    - by apply Forall_true.
    - unfold newSimulation. case_match; split; simpl; constructor. }
  destruct HI as [Hnd Hlt]. split_and!; [done|done|].
  intros Hin. apply list_elem_of_fmap in Hin as (r & Hr1 & Hr).
  rewrite Forall_forall in Hlt. specialize (Hlt r Hr). lia.
Qed.

(** ** The life cycle of a request *)

Lemma fadeOut_exiting step r :
  req_state (fadeOut step r) = req_state r ∨
  (req_state (fadeOut step r) = exiting ∧ alpha (fadeOut step r) <= 0.01).
Proof.
  unfold fadeOut. destruct (Qleb _ _) eqn:Hle; [|by left].
  right. split; [done|]. by apply Qleb_le in Hle.
Qed.

Lemma ownUpdate_state Math_sin now cfg claims r :
  let r2 := ownUpdate Math_sin now cfg claims r in
  mayUpdateTo (req_state r) (req_state r2) = true ∧
  (req_state r2 = exiting → req_state r ≠ exiting → alpha r2 <= 0.01).
Proof.
  unfold ownUpdate. destruct (req_state r) eqn:Hst; cbn zeta;
    repeat match goal with
    | |- context [fadeOut ?st ?r0] =>
        destruct (fadeOut_exiting st r0) as [->|[-> Ha]]
    | |- context [if ?b then _ else _] => destruct b
    end;
    unfold lerpX, claimedNow, expiredNow in *; fsimpl; rewrite ?Hst; done.
Qed.

Lemma updated_state Math_sin now cfg r r2 :
  updated Math_sin now cfg r r2 →
  mayUpdateTo (req_state r) (req_state r2) = true ∧
  (req_state r2 = exiting → req_state r ≠ exiting → alpha r2 <= 0.01).
Proof.
  intros (rA & claims & HeA & He2).
  destruct (ownUpdate_state Math_sin now cfg claims rA) as [H1 H2].
  apply eqX_fields in HeA as (_ & HsA & _).
  apply eqX_fields in He2 as (_ & Hs2 & _ & _ & _ & _ & _ & _ & _ & _ & Ha2).
  rewrite Hs2, Ha2, <- HsA. done.
Qed.

Lemma kept_exiting r : kept r → req_state r = exiting → ¬ alpha r <= 0.01.
Proof.
  unfold kept. intros Hk Hst. rewrite Hst in Hk. simpl in Hk.
  apply Qltb_lt in Hk. by apply Qlt_not_le.
Qed.

Lemma evolves_state Math_sin now cfg r r' :
  evolves Math_sin now cfg r r' → mayBecome (req_state r) (req_state r') = true.
Proof.
  intros (r2 & Hu & Hk & Ha).
  destruct (updated_state _ _ _ _ _ Hu) as [H1 H2].
  assert (Hx : req_state r2 = exiting → req_state r = exiting).
  { intros Hst. destruct (decide (req_state r = exiting)) as [|Hne]; [done|].
    destruct (kept_exiting r2 Hk Hst). auto. }
  destruct Ha as [He|[(Hq & id & He)|(Hq & id & He)]];
    apply eqX_state in He; rewrite He; simpl.
  - destruct (req_state r), (req_state r2); try done; by specialize (Hx eq_refl).
  - rewrite Hq in H1. by destruct (req_state r).
  - rewrite Hq in H1. by destruct (req_state r).
Qed.

Lemma evolves_fields Math_sin now cfg r r' :
  evolves Math_sin now cfg r r' →
  priority r' = priority r ∧ createdAt r' = createdAt r.
Proof.
  intros (r2 & (rA & claims & HeA & He2) & _ & Ha).
  assert (Ho : priority (ownUpdate Math_sin now cfg claims rA) = priority rA ∧
               createdAt (ownUpdate Math_sin now cfg claims rA) = createdAt rA).
  { unfold ownUpdate, fadeOut, claimedNow, expiredNow.
    destruct (req_state rA); repeat case_match; done. }
  apply eqX_fields in HeA as (_ & _ & HpA & HcA & _).
  apply eqX_fields in He2 as (_ & _ & Hp2 & Hc2 & _).
  assert (Hf : priority r' = priority r2 ∧ createdAt r' = createdAt r2).
  { destruct Ha as [He|[(_ & id & He)|(_ & id & He)]];
      apply eqX_fields in He as (_ & _ & Hp & Hc & _); done. }
  destruct Ho, Hf. split; congruence.
Qed.

(** X11. Every request that is present after an Advance step was present
    before it, with the same identity, priority and creation time, and
    its state has moved along the life cycle only: from entering to
    validating, from validating or queued to a replica (processing, or
    waiting for a starting one) or to expired, from processing to
    delivering, from delivering to completed. No request goes back, and
    none is revived after it has completed or expired. *)
Theorem lifecycle_step Math_sin (deltaMs : Q) (s : Simulation) (k : nat) (r' : Request) :
  paused s = false →
  requests (tick Math_sin deltaMs s) !! k = Some r' →
  ∃ i r, requests s !! i = Some r ∧
         req_id r' = req_id r ∧ priority r' = priority r ∧ createdAt r' = createdAt r ∧
         mayBecome (req_state r) (req_state r') = true.
Proof.
  intros Hp. rewrite tick_unfold, Hp.
  intros Hk. apply evolves_lookup in Hk as (i & r & Hr & He).
  exists i, r. split; [done|].
  destruct (evolves_fields _ _ _ _ _ He).
  split_and!; eauto using evolves_req_id, evolves_state.
Qed.

Lemma lifecycle_step_witness :
  paused stuckQueue = false ∧
  ∃ r', requests (tick zeroSin 100 stuckQueue) !! 0%nat = Some r' ∧
        ∃ i r, requests stuckQueue !! i = Some r ∧
               req_id r' = req_id r ∧ priority r' = priority r ∧
               createdAt r' = createdAt r ∧
               mayBecome (req_state r) (req_state r') = true.
Proof.
  split; [reflexivity|]. eexists. split; [vm_compute; reflexivity|].
  apply (lifecycle_step zeroSin 100 stuckQueue 0); [reflexivity | vm_compute; reflexivity].
Defined.

(** ** The state exiting *)

Lemma afterClock_noExiting Math_sin s :
  Forall (λ r, req_state r ≠ exiting) (requests s) →
  Forall (λ r, req_state r ≠ exiting) (requests (afterClock Math_sin s)).
Proof.
  intros Hs. apply Forall_lookup_2. intros k r' Hk.
  apply evolves_lookup in Hk as (i & r & Hr & He).
  apply evolves_state in He. apply (Forall_lookup_1 _ _ _ _ Hs) in Hr.
  intros Hx. rewrite Hx in He. by destruct (req_state r).
Qed.

Lemma apply_noExiting Math_sin o s :
  Forall (λ r, req_state r ≠ exiting) (requests s) →
  Forall (λ r, req_state r ≠ exiting) (requests (apply Math_sin o s)).
Proof.
  intros HI. destruct o; simpl; try done.
  - unfold addRequest. fsimpl. apply Forall_app. split; [done|]. by repeat constructor.
  - rewrite tick_unfold. destruct (paused s); [done|]. by apply afterClock_noExiting.
  - unfold reset. case_match; constructor.
Qed.

(** X12. The state exiting is never observed: a request that fades out is
    marked exiting by the update phase and pruned by the same step, so
    that in every state reached from a fresh engine no request is in
    state exiting. *)
Theorem exiting_never_observed Math_sin (cfg : SimulationConfig) (ops : list Op) :
  Forall (λ r, req_state r ≠ exiting) (requests (run Math_sin ops (newSimulation cfg))).
Proof.
  apply (run_invariant Math_sin
           (λ s, Forall (λ r, req_state r ≠ exiting) (requests s)) (λ _, True)).
  - intros. by apply apply_noExiting.
  - by apply Forall_true.
  - unfold newSimulation. case_match; constructor.
Qed.

(** ** Opacity *)

Lemma fadeOut_alpha step r :
  0 <= alpha (fadeOut step r) ∧ (0 <= step → 0 <= alpha r → alpha (fadeOut step r) <= alpha r).
Proof.
  assert (H : 0 <= num (Qmax 0 (alpha r - step)) ∧
              (0 <= step → 0 <= alpha r → num (Qmax 0 (alpha r - step)) <= alpha r)).
  { rewrite num_eq. split; [apply Q.le_max_l|].
    intros Hs Ha. apply Q.max_lub; [done|]. lra. }
  unfold fadeOut. by destruct (Qleb _ _).
Qed.

Lemma ownUpdate_alpha Math_sin now cfg claims r :
  let r2 := ownUpdate Math_sin now cfg claims r in
  (isTerminal (req_state r) = false → alpha r2 = alpha r) ∧
  (0 <= alpha r → 0 <= alpha r2 ∧ alpha r2 <= alpha r).
Proof.
  unfold ownUpdate. destruct (req_state r) eqn:Hst; cbn zeta;
    repeat match goal with
    | |- context [fadeOut ?st ?r0] =>
        pose proof (fadeOut_alpha st r0) as [Hf1 Hf2];
        specialize (Hf2 ltac:(done));
        generalize dependent (fadeOut st r0); intros
    | |- context [if ?b then _ else _] => destruct b
    end;
    unfold lerpX, claimedNow, expiredNow in *; fsimpl;
    (split; [try done | intros Ha; split; try done; try apply Qle_refl; auto]).
Qed.

Lemma isTerminal_mayUpdateTo st st' :
  mayUpdateTo st st' = true → isTerminal st = true → isTerminal st' = true.
Proof. by destruct st, st'. Qed.

Lemma updated_opacityOK Math_sin now cfg r r2 :
  updated Math_sin now cfg r r2 → opacityOK r → opacityOK r2.
Proof.
  intros Hu (H0 & H1 & Ht).
  destruct (updated_state _ _ _ _ _ Hu) as [Hm _].
  destruct Hu as (rA & claims & HeA & He2).
  destruct (ownUpdate_alpha Math_sin now cfg claims rA) as [Ha1 Ha2].
  cbn zeta in *.
  apply eqX_fields in HeA as (_ & HsA & _ & _ & _ & _ & _ & _ & _ & _ & HaA).
  apply eqX_fields in He2 as (_ & Hs2 & _ & _ & _ & _ & _ & _ & _ & _ & Ha2').
  rewrite HsA, HaA in *. unfold opacityOK. rewrite Ha2'.
  destruct (Ha2 H0) as [Hge Hle]. split_and!; [done|by eapply Qle_trans|].
  intros Hnt. rewrite Hs2 in Hnt.
  destruct (isTerminal (req_state r)) eqn:Hr.
  - pose proof (isTerminal_mayUpdateTo _ _ Hm Hr). congruence.
  - rewrite Ha1 by done. auto.
Qed.

Lemma assignEffect_opacityOK now r r' :
  assignEffect now r r' → opacityOK r → opacityOK r'.
Proof.
  intros Ha (H0 & H1 & Ht). unfold opacityOK.
  destruct Ha as [He|[(Hq & id & He)|(Hq & id & He)]];
    apply eqX_fields in He as (_ & Hs & _ & _ & _ & _ & _ & _ & _ & _ & Hal);
    rewrite Hs, Hal; simpl; rewrite ?Hq in Ht; auto.
Qed.

Lemma afterClock_opacityOK Math_sin s :
  Forall opacityOK (requests s) → Forall opacityOK (requests (afterClock Math_sin s)).
Proof.
  intros Hs. apply Forall_lookup_2. intros k r' Hk.
  apply evolves_lookup in Hk as (i & r & Hr & r2 & Hu & _ & Ha).
  apply (Forall_lookup_1 _ _ _ _ Hs) in Hr.
  eauto using updated_opacityOK, assignEffect_opacityOK.
Qed.

Lemma apply_opacityOK Math_sin o s :
  Forall opacityOK (requests s) → Forall opacityOK (requests (apply Math_sin o s)).
Proof.
  intros HI. destruct o; simpl; try done.
  - unfold addRequest. fsimpl. apply Forall_app. split; [done|]. by repeat constructor.
  - rewrite tick_unfold. destruct (paused s); [done|]. by apply afterClock_opacityOK.
  - unfold reset. case_match; constructor.
Qed.

(** X13. In every state reached from a fresh engine the opacity of a request
    is within [0, 1], and it is exactly 1 until the request is completed,
    failed or expired: only requests in a terminal state fade. *)
Theorem request_opacity Math_sin (cfg : SimulationConfig) (ops : list Op) :
  Forall (λ r, 0 <= alpha r ∧ alpha r <= 1 ∧ (isTerminal (req_state r) = false → alpha r = 1))
    (requests (run Math_sin ops (newSimulation cfg))).
Proof.
  apply (run_invariant Math_sin (λ s, Forall opacityOK (requests s)) (λ _, True)).
  - intros. by apply apply_opacityOK.
  - by apply Forall_true.
  - unfold newSimulation. case_match; constructor.
Qed.

(** ** Time marks *)

Ltac stamp_open :=
  repeat match goal with
  | H : ∃ _, _ |- _ => destruct H
  | H : is_Some _ |- _ => destruct H
  | H : _ ∧ _ |- _ => destruct H
  end.

Ltac stamp_close :=
  repeat eexists; split_and?; try eassumption; try reflexivity; try done;
  try apply Qle_refl; try (eapply Qle_trans; eassumption).

Lemma stamped_mono now now' r : now <= now' → stamped now r → stamped now' r.
Proof.
  intros Hle [Hc H]. split; [by eapply Qle_trans|].
  destruct (req_state r); try done; stamp_open; stamp_close.
Qed.

Lemma stamped_eqX now r r' : eqX r r' → stamped now r → stamped now r'.
Proof.
  intros He. apply eqX_fields in He as (_ & Hs & _ & Hc & Hq & Hp & Ht & Hd & Ha & _).
  unfold stamped. by rewrite Hs, Hc, Hq, Hp, Ht, Hd, Ha.
Qed.

Lemma stamped_fadeOut now step r :
  isTerminal (req_state r) = true → stamped now r → stamped now (fadeOut step r).
Proof.
  intros Ht [Hc H]. unfold fadeOut. destruct (Qleb _ _); [by split|].
  split; [done|]. fsimpl. by destruct (req_state r).
Qed.

Lemma stamped_ownUpdate Math_sin now cfg claims r :
  stamped now r → stamped now (ownUpdate Math_sin now cfg claims r).
Proof.
  intros Hs.
  assert (Hl : stamped now (lerpX r)) by done.
  unfold ownUpdate. destruct (req_state r) eqn:Hst; cbn zeta;
    repeat match goal with
    | |- stamped _ (fadeOut _ _) =>
        apply stamped_fadeOut; [unfold lerpX; fsimpl; by rewrite ?Hst|]
    | |- context [if ?b then _ else _] => destruct b
    end; try exact Hl;
    destruct Hs as [Hc H]; rewrite Hst in H;
    (split; [exact Hc|]);
    unfold expiredNow, claimedNow, lerpX; fsimpl; rewrite ?Hst;
    stamp_open; stamp_close.
Qed.

Lemma stamped_assigned now id r :
  stamped now r → req_state r = queued →
  stamped now (assignedNow now id r) ∧ stamped now (reservedNow now id r).
Proof.
  intros [Hc H] Hst. rewrite Hst in H.
  split; (split; [done|]); unfold assignedNow, reservedNow; fsimpl;
    stamp_open; stamp_close.
Qed.

Lemma evolves_stamped Math_sin now cfg r r' :
  evolves Math_sin now cfg r r' → stamped now r → stamped now r'.
Proof.
  intros (r2 & (rA & claims & HeA & He2) & _ & Ha) Hs.
  assert (H2 : stamped now r2).
  { eapply stamped_eqX; [exact He2|]. apply stamped_ownUpdate.
    eapply stamped_eqX; eauto. }
  destruct Ha as [He|[(Hq & id & He)|(Hq & id & He)]].
  - eapply stamped_eqX; eauto.
  - eapply stamped_eqX; [exact He|]. by apply stamped_assigned.
  - eapply stamped_eqX; [exact He|]. by apply stamped_assigned.
Qed.

Lemma apply_stampInv Math_sin o s :
  forwardTick o → stampInv s → stampInv (apply Math_sin o s).
Proof.
  intros Ho [Hsp HI]. destruct o; simpl in *; try done.
  - split; [done|]. unfold addRequest. fsimpl. apply Forall_app. split; [done|].
    repeat constructor; simpl; try done. apply Qle_refl.
  - rewrite tick_unfold. destruct (paused s); [done|].
    set (s1 := set_tick _ s).
    destruct (afterClock_fields Math_sin s1) as (_ & Ht & Hs & _).
    split; [by rewrite Hs|]. rewrite Ht.
    apply Forall_lookup_2. intros k r' Hk.
    apply evolves_lookup in Hk as (i & r & Hr & He).
    eapply evolves_stamped; [exact He|].
    apply (Forall_lookup_1 _ _ _ _ HI) in Hr.
    eapply stamped_mono; [|exact Hr]. subst s1. fsimpl. rewrite num_eq.
    assert (0 <= deltaMs * speed s); [|lra].
    apply Qmult_le_0_compat; [done|]. lra.
  - split; [|done]. unfold setSpeed. fsimpl.
    eapply Qlt_le_trans; [|apply Q.le_max_l]. done.
  - unfold reset. case_match; split; try done; constructor.
Qed.

(** X14. Along a run without negative deltas, the time marks of every request
    are those of its state and are ordered: a queued request has
    [queuedAt] and no later mark; a request waiting for a replica has
    [processorPickedAt] and a replica; a request that is processing or
    delivering has [processStartedAt] as well; a completed one has
    [completedAt]; and [createdAt <= queuedAt <= processorPickedAt <=
    processStartedAt <= completedAt <= tick]. *)
Theorem time_marks_ordered Math_sin (cfg : SimulationConfig) (ops : list Op) :
  Forall forwardTick ops →
  let s := run Math_sin ops (newSimulation cfg) in
  Forall (stamped (state_tick s)) (requests s).
Proof.
  intros Hops s.
  apply (run_invariant Math_sin stampInv forwardTick); auto.
  - intros. by apply apply_stampInv.
  - unfold newSimulation. case_match; split; try done; constructor.
Qed.

Lemma time_marks_ordered_witness :
  Forall forwardTick (AddRequest 1 :: replicate 40 (Tick 100)) ∧
  Forall (stamped (state_tick (coldStart zeroSin 40))) (requests (coldStart zeroSin 40)).
Proof.
  split; [repeat constructor; discriminate|].
  apply (time_marks_ordered zeroSin DEFAULT_CONFIG (AddRequest 1 :: replicate 40 (Tick 100))).
  repeat constructor; discriminate.
Defined.

(** ** Slots and requests in process *)

Lemma slotOK_sameSlot rs rs' ps :
  Forall2 sameSlot rs rs' → slotOK rs ps → slotOK rs' ps.
Proof.
  intros H2 (Hnd & Hnp & Hc & Hd & Hf). split_and!; try done.
  - rewrite (Forall2_fmap_eq req_id rs rs'); [done|].
    eapply Forall2_impl; [exact H2|]. by intros ?? (? & _).
  - intros j p id Hp Hid. destruct (Hc j p id Hp Hid) as (i & r & Hr & ? & ? & ?).
    destruct (Forall2_lookup_l _ _ _ _ _ H2 Hr) as (r' & Hr' & (? & ? & ?)).
    exists i, r'. split_and!; congruence.
  - intros i r' Hr' Hst.
    destruct (Forall2_lookup_r _ _ _ _ _ H2 Hr') as (r & Hr & (Hi & Hs & Ha)).
    destruct (Hd i r Hr) as (j & p & ? & ? & ?); [congruence|].
    exists j, p. split_and!; congruence.
Qed.

Lemma slotOK_sameHold rs ps ps' :
  Forall2 sameHold ps ps' → slotOK rs ps → slotOK rs ps'.
Proof.
  intros H2 (Hnd & Hnp & Hc & Hd & Hf).
  assert (Hids : ∀ j p p', ps !! j = Some p → ps' !! j = Some p' →
                 rep_id p' = rep_id p ∧ currentRequestIds p' = currentRequestIds p).
  { intros j p p' Hp Hp'.
    destruct (Forall2_lookup_lr _ _ _ _ _ _ H2 Hp Hp') as (Hi & Hh & _).
    split; [done|]. destruct Hh as [Hh|[Hh Hna]]; [done|].
    apply (Forall_lookup_1 _ _ _ _ Hf) in Hp as [_ Hp]. by rewrite Hh, Hp. }
  split_and!; try done.
  - rewrite (Forall2_fmap_eq rep_id ps ps'); [done|].
    eapply Forall2_impl; [exact H2|]. by intros ?? (? & _).
  - intros j p' id Hp' Hid.
    destruct (Forall2_lookup_r _ _ _ _ _ H2 Hp') as (p & Hp & _).
    destruct (Hids j p p' Hp Hp') as [Hi Hh]. rewrite Hh in Hid.
    destruct (Hc j p id Hp Hid) as (i & r & ? & ? & ? & ?).
    exists i, r. split_and!; congruence.
  - intros i r Hr Hst. destruct (Hd i r Hr Hst) as (j & p & Hp & ? & ?).
    destruct (Forall2_lookup_l _ _ _ _ _ H2 Hp) as (p' & Hp' & _).
    destruct (Hids j p p' Hp Hp') as [Hi Hh].
    exists j, p'. split_and!; congruence.
  - apply Forall_lookup_2. intros j p' Hp'.
    destruct (Forall2_lookup_r _ _ _ _ _ H2 Hp') as (p & Hp & (_ & _ & Hact)).
    destruct (Hids j p p' Hp Hp') as [Hi Hh]. rewrite Hh.
    pose proof (Forall_lookup_1 _ _ _ _ Hf Hp) as [Hn Hna]. split; [done|].
    intros Hp'a. destruct (isActiveReplica p) eqn:Hpa; auto.
Qed.

Lemma Forall2_alter_refl {A} (R : A → A → Prop) (f : A → A) i (l : list A) :
  (∀ a, R a a) → (∀ a, l !! i = Some a → R a (f a)) → Forall2 R l (alter f i l).
Proof.
  intros Hr Hf. apply Forall2_same_length_lookup_2; [by rewrite length_alter|].
  intros k a b Ha Hb. destruct (decide (k = i)) as [->|Hne].
  - rewrite list_lookup_alter_eq, Ha in Hb. simplify_eq/=. auto.
  - rewrite list_lookup_alter_ne in Hb by done. simplify_eq. auto.
Qed.

Lemma sameSlot_refl r : sameSlot r r.
Proof. done. Qed.

Lemma sameHold_refl p : sameHold p p.
Proof. split_and!; auto. intros. congruence. Qed.

Lemma eqX_sameSlot r r' : eqX r r' → sameSlot r r'.
Proof. intros H. apply eqX_fields in H. unfold sameSlot. naive_solver. Qed.

(** No replica holds the identity of a request that is not processing. *)
Lemma slotOK_not_held rs ps i r j p :
  slotOK rs ps → rs !! i = Some r → req_state r ≠ processing →
  ps !! j = Some p → req_id r ∉ currentRequestIds p.
Proof.
  intros (Hnd & _ & Hc & _) Hr Hst Hp Hin.
  destruct (Hc j p _ Hp Hin) as (i' & r' & Hr' & Hid & Hst' & _).
  assert (i' = i).
  { eapply NoDup_lookup; [exact Hnd| |]; rewrite list_lookup_fmap.
    - by rewrite Hr'.
    - rewrite Hr. simpl. by rewrite Hid. }
  subst. congruence.
Qed.

(** The replica that holds a request in process is the only one. *)
Lemma slotOK_holder rs ps i r j p j' p' :
  slotOK rs ps → rs !! i = Some r →
  ps !! j = Some p → req_id r ∈ currentRequestIds p →
  ps !! j' = Some p' → req_id r ∈ currentRequestIds p' → j' = j.
Proof.
  intros (Hnd & Hnp & Hc & _) Hr Hp Hin Hp' Hin'.
  destruct (Hc j p _ Hp Hin) as (i1 & r1 & Hr1 & Hid1 & _ & Ha1).
  destruct (Hc j' p' _ Hp' Hin') as (i2 & r2 & Hr2 & Hid2 & _ & Ha2).
  assert (i1 = i2).
  { eapply NoDup_lookup; [exact Hnd| |]; rewrite list_lookup_fmap.
    - by rewrite Hr1.
    - rewrite Hr2. simpl. congruence. }
  subst. simplify_eq.
  eapply NoDup_lookup; [exact Hnp| |]; rewrite list_lookup_fmap.
  - by rewrite Hp'.
  - rewrite Hp. simpl. congruence.
Qed.

Lemma lookup_alter_Some {A} (f : A → A) i k (l : list A) b :
  alter f i l !! k = Some b →
  (k = i ∧ ∃ a, l !! i = Some a ∧ b = f a) ∨ (k ≠ i ∧ l !! k = Some b).
Proof.
  intros H. destruct (decide (k = i)) as [->|Hne].
  - left. split; [done|]. rewrite list_lookup_alter_eq in H.
    destruct (l !! i) as [a|]; simplify_eq/=. eauto.
  - right. by rewrite list_lookup_alter_ne in H.
Qed.

Lemma fmap_alter_id {A B} (g : A → B) (f : A → A) i (l : list A) a :
  l !! i = Some a → g (f a) = g a → g <$> alter f i l = g <$> l.
Proof.
  intros Ha Hg. apply list_eq. intros k. rewrite !list_lookup_fmap.
  destruct (decide (k = i)) as [->|Hne].
  - rewrite list_lookup_alter_eq, Ha. simpl. by rewrite Hg.
  - by rewrite list_lookup_alter_ne.
Qed.

(** A request that is not processing changes to a value that is not
    processing. *)
Lemma slotOK_nonproc rs ps i r (f : Request → Request) :
  slotOK rs ps → rs !! i = Some r →
  req_state r ≠ processing → req_state (f r) ≠ processing → req_id (f r) = req_id r →
  slotOK (alter f i rs) ps.
Proof.
  intros HI Hr Hst Hst' Hid. pose proof HI as (Hnd & Hnp & Hc & Hd & Hf).
  split_and!; try done.
  - by rewrite (fmap_alter_id req_id f i rs r).
  - intros j p id Hp Hin. destruct (Hc j p id Hp Hin) as (i' & r' & Hr' & ? & ? & ?).
    exists i', r'. split; [|done]. rewrite list_lookup_alter_ne; [done|].
    intros ->. simplify_eq.
  - intros k r' Hr' Hs'. apply lookup_alter_Some in Hr' as [(-> & a & Ha & ->)|[Hne Hr']].
    + simplify_eq.
    + eauto.
Qed.

(** A request that is not processing starts processing on a replica,
    which takes its identity. *)
Lemma slotOK_claim rs ps i r j p (f : Request → Request) (g : Replica → Replica) :
  slotOK rs ps → rs !! i = Some r → ps !! j = Some p →
  req_state r ≠ processing →
  req_id (f r) = req_id r → req_state (f r) = processing →
  assignedReplica (f r) = Some (rep_id p) →
  rep_id (g p) = rep_id p →
  currentRequestIds (g p) = currentRequestIds p ++ [req_id r] →
  isActiveReplica (g p) = true →
  slotOK (alter f i rs) (alter g j ps).
Proof.
  intros HI Hr Hp Hst Hid Hst' Has Hgi Hgh Hga.
  pose proof HI as (Hnd & Hnp & Hc & Hd & Hf).
  pose proof (slotOK_not_held _ _ _ _ _ _ HI Hr Hst Hp) as Hfresh.
  split_and!.
  - by rewrite (fmap_alter_id req_id f i rs r).
  - by rewrite (fmap_alter_id rep_id g j ps p).
  - intros j' p' id Hp' Hin.
    apply lookup_alter_Some in Hp' as [(-> & a & Ha & ->)|[Hne Hp']].
    + simplify_eq. rewrite Hgh in Hin. apply elem_of_app in Hin as [Hin|Hin].
      * destruct (Hc j p id Hp Hin) as (i' & r' & Hr' & ? & ? & ?).
        exists i', r'. split; [|split_and!; congruence].
        rewrite list_lookup_alter_ne; [done|]. intros ->. simplify_eq.
      * apply list_elem_of_singleton in Hin as ->.
        exists i, (f r). split; [|split_and!; congruence].
        by rewrite list_lookup_alter_eq, Hr.
    + destruct (Hc j' p' id Hp' Hin) as (i' & r' & Hr' & ? & ? & ?).
      exists i', r'. split; [|done].
      rewrite list_lookup_alter_ne; [done|]. intros ->. simplify_eq.
  - intros k r' Hr' Hs'. apply lookup_alter_Some in Hr' as [(-> & a & Ha & ->)|[Hne Hr']].
    + simplify_eq. exists j, (g p). split; [by rewrite list_lookup_alter_eq, Hp|].
      split; [congruence|]. rewrite Hgh, Hid. apply elem_of_app. right. by left.
    + destruct (Hd k r' Hr' Hs') as (j' & p' & Hp' & ? & ?).
      destruct (decide (j' = j)) as [->|Hnj].
      * simplify_eq. exists j, (g p). split; [by rewrite list_lookup_alter_eq, Hp|].
        split; [congruence|]. rewrite Hgh. apply elem_of_app. by left.
      * exists j', p'. split; [|done]. by rewrite list_lookup_alter_ne.
  - apply Forall_lookup_2. intros j' p' Hp'.
    apply lookup_alter_Some in Hp' as [(-> & a & Ha & ->)|[Hne Hp']].
    + simplify_eq. split; [|congruence]. rewrite Hgh.
      pose proof (Forall_lookup_1 _ _ _ _ Hf Hp) as [Hn _].
      apply NoDup_app. split; [done|]. split; [|apply NoDup_singleton].
      intros id Hin Hin'. apply list_elem_of_singleton in Hin'. by subst.
    + by apply (Forall_lookup_1 _ _ _ _ Hf Hp').
Qed.

(** A request stops processing, or was not processing, and a replica
    drops its identity. *)
Lemma slotOK_release rs ps i r j p (f : Request → Request) (g : Replica → Replica) :
  slotOK rs ps → rs !! i = Some r → ps !! j = Some p →
  (req_state r = processing → req_id r ∈ currentRequestIds p) →
  req_id (f r) = req_id r → req_state (f r) ≠ processing →
  rep_id (g p) = rep_id p →
  currentRequestIds (g p) = filter (λ id, id ≠ req_id r) (currentRequestIds p) →
  (isActiveReplica (g p) = false → isActiveReplica p = false) →
  slotOK (alter f i rs) (alter g j ps).
Proof.
  intros HI Hr Hp Hheld Hid Hst' Hgi Hgh Hga.
  pose proof HI as (Hnd & Hnp & Hc & Hd & Hf).
  assert (Hother : ∀ i' r', rs !! i' = Some r' → req_id r' = req_id r → i' = i).
  { intros i' r' Hr' Hidr. eapply NoDup_lookup; [exact Hnd| |]; rewrite list_lookup_fmap.
    - by rewrite Hr'.
    - rewrite Hr. simpl. congruence. }
  assert (Hgone : ∀ j' p', ps !! j' = Some p' → j' ≠ j →
                  req_id r ∉ currentRequestIds p').
  { intros j' p' Hp' Hne Hin.
    destruct (decide (req_state r = processing)) as [Hpr|Hnp'].
    - apply Hne. eapply (slotOK_holder rs ps i r j p j' p'); eauto.
    - by eapply (slotOK_not_held rs ps i r j' p'). }
  split_and!.
  - by rewrite (fmap_alter_id req_id f i rs r).
  - by rewrite (fmap_alter_id rep_id g j ps p).
  - intros j' p' id Hp' Hin.
    apply lookup_alter_Some in Hp' as [(-> & a & Ha & ->)|[Hne Hp']].
    + simplify_eq. rewrite Hgh in Hin. apply list_elem_of_filter in Hin as [Hneq Hin].
      destruct (Hc j p id Hp Hin) as (i' & r' & Hr' & ? & ? & ?).
      exists i', r'. split; [|split_and!; congruence].
      rewrite list_lookup_alter_ne; [done|]. intros ->. simplify_eq.
    + destruct (Hc j' p' id Hp' Hin) as (i' & r' & Hr' & ? & ? & ?).
      exists i', r'. split; [|done].
      rewrite list_lookup_alter_ne; [done|]. intros ->. simplify_eq.
      by apply (Hgone j' p' Hp' Hne).
  - intros k r' Hr' Hs'. apply lookup_alter_Some in Hr' as [(-> & a & Ha & ->)|[Hne Hr']].
    + simplify_eq.
    + destruct (Hd k r' Hr' Hs') as (j' & p' & Hp' & ? & ?).
      destruct (decide (j' = j)) as [->|Hnj].
      * simplify_eq. exists j, (g p). split; [by rewrite list_lookup_alter_eq, Hp|].
        split; [congruence|]. rewrite Hgh. apply list_elem_of_filter. split; [|done].
        intros Heq. apply Hne. by apply (Hother k r').
      * exists j', p'. split; [|done]. by rewrite list_lookup_alter_ne.
  - apply Forall_lookup_2. intros j' p' Hp'.
    apply lookup_alter_Some in Hp' as [(-> & a & Ha & ->)|[Hne Hp']].
    + simplify_eq. pose proof (Forall_lookup_1 _ _ _ _ Hf Hp) as [Hn Hna].
      rewrite Hgh. split; [by apply NoDup_filter|].
      intros Hg. rewrite Hna by auto. done.
    + by apply (Forall_lookup_1 _ _ _ _ Hf Hp').
Qed.

Lemma slotOK_filter rs ps (P : Request → Prop) `{!∀ r, Decision (P r)} :
  slotOK rs ps → (∀ r, req_state r = processing → P r) → slotOK (filter P rs) ps.
Proof.
  intros (Hnd & Hnp & Hc & Hd & Hf) HP. split_and!; try done.
  - eapply sublist_NoDup; [exact Hnd|]. apply fmap_sublist, sublist_filter.
  - intros j p id Hp Hin. destruct (Hc j p id Hp Hin) as (i & r & Hr & ? & Hst & ?).
    destruct (lookup_filter_Some P rs i r Hr (HP r Hst)) as [k Hk].
    exists k, r. done.
  - intros k r Hr Hst.
    apply list_elem_of_lookup_2, list_elem_of_filter in Hr as [_ Hr].
    apply list_elem_of_lookup_1 in Hr as [i Hi]. eauto.
Qed.

Lemma slotOK_app_request rs ps r :
  slotOK rs ps → req_id r ∉ req_id <$> rs → req_state r ≠ processing →
  slotOK (rs ++ [r]) ps.
Proof.
  intros (Hnd & Hnp & Hc & Hd & Hf) Hfresh Hst. split_and!; try done.
  - rewrite fmap_app. apply NoDup_app. split; [done|]. split; [|apply NoDup_singleton].
    intros id Hin Hin'. apply list_elem_of_singleton in Hin'. by subst.
  - intros j p id Hp Hin. destruct (Hc j p id Hp Hin) as (i & r' & Hr & ?).
    exists i, r'. split; [|done]. by apply lookup_app_l_Some.
  - intros i r' Hr' Hs'. apply lookup_app_Some in Hr' as [Hr'|[_ Hr']]; [eauto|].
    apply list_lookup_singleton_Some in Hr' as [_ <-]. done.
Qed.

Lemma slotOK_app_replica rs ps p :
  slotOK rs ps → rep_id p ∉ rep_id <$> ps → currentRequestIds p = [] →
  slotOK rs (ps ++ [p]).
Proof.
  intros (Hnd & Hnp & Hc & Hd & Hf) Hfresh Hemp. split_and!; try done.
  - rewrite fmap_app. apply NoDup_app. split; [done|]. split; [|apply NoDup_singleton].
    intros id Hin Hin'. apply list_elem_of_singleton in Hin'. by subst.
  - intros j p' id Hp' Hin. apply lookup_app_Some in Hp' as [Hp'|[_ Hp']]; [eauto|].
    apply list_lookup_singleton_Some in Hp' as [_ <-]. rewrite Hemp in Hin.
    by apply elem_of_nil in Hin.
  - intros i r Hr Hst. destruct (Hd i r Hr Hst) as (j & p' & Hp' & ?).
    exists j, p'. split; [|done]. by apply lookup_app_l_Some.
  - apply Forall_app. split; [done|]. repeat constructor; rewrite Hemp; [constructor|done].
Qed.

(** *** The phases of a step *)

Lemma alter_alter {A} (f g : A → A) i (l : list A) :
  alter f i (alter g i l) = alter (λ a, f (g a)) i l.
Proof.
  apply list_eq. intros k. destruct (decide (k = i)) as [->|Hne].
  - rewrite !list_lookup_alter_eq. by destruct (l !! i).
  - by rewrite !list_lookup_alter_ne.
Qed.

Lemma repositionQueue_replicas s : replicas (repositionQueue s) = replicas s.
Proof. done. Qed.

Lemma slotOK_repositionQueue s :
  slotOK (requests s) (replicas s) →
  slotOK (requests (repositionQueue s)) (replicas (repositionQueue s)).
Proof.
  intros HI. rewrite repositionQueue_replicas.
  eapply slotOK_sameSlot; [|exact HI].
  eapply Forall2_impl; [apply repositionQueue_eqX|]. apply eqX_sameSlot.
Qed.

Lemma slotOK_upd_req_same i f s :
  (∀ r, sameSlot r (f r)) →
  slotOK (requests s) (replicas s) →
  slotOK (requests (upd_req i f s)) (replicas (upd_req i f s)).
Proof.
  intros Hf HI. fsimpl. eapply slotOK_sameSlot; [|exact HI].
  apply Forall2_alter_refl; [apply sameSlot_refl|auto].
Qed.

Lemma findIndex_held rs ps i r :
  slotOK rs ps → rs !! i = Some r → req_state r = processing →
  findIndex (λ p, bool_decide (req_id r ∈ currentRequestIds p)) ps ≠ None.
Proof.
  intros (_ & _ & _ & Hd & _) Hr Hst Hnone.
  destruct (Hd i r Hr Hst) as (j & p & Hp & _ & Hin).
  apply findIndex_None in Hnone. apply (Forall_lookup_1 _ _ _ _ Hnone) in Hp.
  apply Hp. by apply bool_decide_eq_true.
Qed.

Ltac slot_side :=
  first [ done | simpl; congruence | intros; congruence
        | apply claim_release_ids | apply isActiveReplica_capacityState
        | (unfold isActiveReplica, removeRequestId, capacityState, pushRequestId;
           simpl; by case_match) ].

Lemma updateRequest_slotOK Math_sin i s :
  slotOK (requests s) (replicas s) →
  slotOK (requests (updateRequest Math_sin i s)) (replicas (updateRequest Math_sin i s)).
Proof.
  intros HI. unfold updateRequest.
  set (s1 := upd_req i _ s).
  assert (H1 : slotOK (requests s1) (replicas s1)).
  { subst s1. apply slotOK_upd_req_same; done. }
  clearbody s1. clear HI s.
  destruct (requests s1 !! i) as [r|] eqn:Hr; [|done].
  destruct (req_state r) eqn:Hst.
  - case_match; [|done]. fsimpl. eapply slotOK_nonproc; eauto; simpl; congruence.
  - fsimpl. apply slotOK_repositionQueue. fsimpl.
    eapply slotOK_nonproc; eauto; simpl; congruence.
  - case_match; [|done]. fsimpl. eapply slotOK_nonproc; eauto; simpl; congruence.
  - destruct (findIndex _ _) as [j|] eqn:Hj.
    + apply findIndex_Some in Hj as (p & Hp & Hmatch & _).
      apply bool_decide_eq_true in Hmatch.
      case_bool_decide as Hready; (case_match; fsimpl);
        rewrite ?alter_alter; try done.
      * eapply (slotOK_release _ _ i r j p); eauto; slot_side.
      * eapply (slotOK_claim _ _ i r j p); eauto; slot_side.
      * eapply (slotOK_release _ _ i r j p); eauto; slot_side.
    + case_match; fsimpl; [|done]. eapply slotOK_nonproc; eauto; simpl; congruence.
  - case_match; [|done].
    destruct (findIndex _ _) as [j|] eqn:Hj.
    + apply findIndex_Some in Hj as (p & Hp & Hin & _). apply bool_decide_eq_true in Hin.
      fsimpl. eapply (slotOK_release _ _ i r j p); eauto; slot_side.
    + by destruct (findIndex_held _ _ i r H1 Hr Hst).
  - repeat case_match; try done. fsimpl. eapply slotOK_nonproc; eauto; simpl; congruence.
  - case_match; [|done]. fsimpl. eapply slotOK_nonproc; eauto;
      try (unfold fadeOut; case_match); simpl; congruence.
  - fsimpl. case_match; fsimpl; rewrite ?alter_alter;
      (eapply slotOK_nonproc; eauto;
       unfold fadeOut; try case_match; simpl; congruence).
  - fsimpl. eapply slotOK_nonproc; eauto;
      try (unfold fadeOut; case_match); simpl; congruence.
  - done.
  - done.
Qed.

Lemma updateRequests_slotOK Math_sin s :
  slotOK (requests s) (replicas s) →
  slotOK (requests (updateRequests Math_sin s)) (replicas (updateRequests Math_sin s)).
Proof.
  unfold updateRequests. generalize (seq 0 (length (requests s))). intros l. revert s.
  induction l as [|i l IH]; intros s HI; simpl; [done|].
  apply IH. by apply updateRequest_slotOK.
Qed.

Lemma Forall2_fmap_same {A} (R : A → A → Prop) (f : A → A) (l : list A) :
  (∀ a, R a (f a)) → Forall2 R l (f <$> l).
Proof. intros Hf. induction l as [|a l IH]; csimpl; constructor; auto. Qed.

Lemma sameHold_updateReplica now cfg p : sameHold p (updateReplica now cfg p).
Proof.
  unfold updateReplica, sameHold, isActiveReplica.
  repeat (case_bool_decide; simpl); repeat case_match; simpl;
    split_and!; auto; intros; simplify_eq/=; try congruence;
    repeat case_bool_decide; simplify_eq/=.
Qed.

Lemma updateReplicas_slotOK s :
  slotOK (requests s) (replicas s) →
  slotOK (requests (updateReplicas s)) (replicas (updateReplicas s)).
Proof.
  intros HI. unfold updateReplicas. fsimpl.
  eapply slotOK_sameHold; [|exact HI].
  apply Forall2_fmap_same. intros p. apply sameHold_updateReplica.
Qed.

Lemma removeExited_slotOK s :
  slotOK (requests s) (replicas s) →
  slotOK (requests (removeExited s)) (replicas (removeExited s)).
Proof.
  intros HI. unfold removeExited. fsimpl.
  apply slotOK_filter; [done|]. intros r ->. done.
Qed.

Lemma scaleUpLoop_slotInv n active s :
  slotInv s → slotInv (scaleUpLoop n active s).2.
Proof.
  revert active s. induction n as [|n IH]; intros active s [HI Hids]; simpl; [done|].
  destruct (findIndex _ _) as [j|] eqn:Hj.
  - apply IH. apply findIndex_Some in Hj as (p & Hp & Hst & _).
    apply bool_decide_eq_true in Hst. split; fsimpl.
    + eapply slotOK_sameHold; [|exact HI].
      apply Forall2_alter_refl; [apply sameHold_refl|].
      intros a Ha. simplify_eq. unfold sameHold, isActiveReplica. simpl. rewrite Hst.
      split_and!; auto; done.
    + rewrite <- Hids. by apply fmap_alter_same.
  - destruct (_ <? _)%Z; [|done]. apply IH. split; fsimpl.
    + apply slotOK_app_replica; [done| |done]. simpl. rewrite Hids.
      rewrite elem_of_seq. lia.
    + rewrite fmap_app, Hids. by rewrite seq_S.
Qed.

Lemma scaleDownLoop_slotInv n active s :
  slotInv s → slotInv (scaleDownLoop n active s).2.
Proof.
  revert active s. induction n as [|n IH]; intros active s [HI Hids]; simpl; [done|].
  destruct (findIndex _ _) as [j|] eqn:Hj; [|done].
  apply IH. apply findIndex_Some in Hj as (p & Hp & Hst & _).
  apply andb_true_iff in Hst as [Hst Hlen].
  apply bool_decide_eq_true in Hst. apply bool_decide_eq_true in Hlen.
  apply nil_length_inv in Hlen. split; fsimpl.
  - eapply slotOK_sameHold; [|exact HI].
    apply Forall2_alter_refl; [apply sameHold_refl|].
    intros a Ha. simplify_eq. unfold sameHold. simpl. split_and!; auto.
  - rewrite <- Hids. by apply fmap_alter_same.
Qed.

Lemma reconcileReplicas_slotInv s : slotInv s → slotInv (reconcileReplicas s).
Proof.
  intros HI. unfold reconcileReplicas.
  match goal with |- context [scaleUpLoop ?n ?a s] =>
    pose proof (scaleUpLoop_slotInv n a s HI) as H1;
    destruct (scaleUpLoop n a s) as [a1 s1] end.
  by apply scaleDownLoop_slotInv.
Qed.

Lemma handleAutoscaling_slotInv s : slotInv s → slotInv (handleAutoscaling s).
Proof.
  intros HI. unfold handleAutoscaling. apply reconcileReplicas_slotInv.
  repeat case_match; done.
Qed.

Lemma assignTo_slotOK refs i k s :
  slotOK (requests s) (replicas s) →
  (∀ r, requests s !! i = Some r → req_state r ≠ processing) →
  slotOK (requests (assignTo refs i k s)) (replicas (assignTo refs i k s)).
Proof.
  intros HI Hq. unfold assignTo.
  destruct (refs !! k) as [j|]; [|done].
  destruct (replicas s !! j) as [p|] eqn:Hp; [|done].
  destruct (requests s !! i) as [r|] eqn:Hr; [|done].
  apply slotOK_repositionQueue. fsimpl. rewrite alter_alter.
  eapply (slotOK_claim _ _ i r j p); eauto; slot_side.
Qed.

Lemma allQueued_nonproc refs s i :
  allQueued refs s → i ∈ refs → ∀ r, requests s !! i = Some r → req_state r ≠ processing.
Proof.
  intros Hq Hi r Hr. destruct (Hq i Hi) as (r' & Hr' & Hst). simplify_eq. congruence.
Qed.

Lemma assignLoop_slotOK refs waiting s :
  NoDup waiting → allQueued waiting s →
  slotOK (requests s) (replicas s) →
  slotOK (requests (assignLoop refs waiting s)) (replicas (assignLoop refs waiting s)).
Proof.
  revert s. induction waiting as [|i rest IH]; intros s Hnd Hq HI; simpl; [done|].
  destruct (findSlot refs s) as [slot|]; [|done].
  pose proof (assignTo_others refs i slot s) as Ho.
  pose proof (allQueued_others _ _ _ _ Hnd Ho Hq) as Hq1.
  apply IH; [by apply NoDup_cons in Hnd as [_ ?]|done|].
  apply assignTo_slotOK; [done|]. eapply allQueued_nonproc; [exact Hq|by left].
Qed.

Lemma assignToStartingStep_slotOK total srefs s ki :
  slotOK (requests s) (replicas s) →
  (∀ r, requests s !! ki.2 = Some r → req_state r ≠ processing) →
  slotOK (requests (assignToStartingStep total srefs s ki))
         (replicas (assignToStartingStep total srefs s ki)).
Proof.
  intros HI Hq. destruct ki as [k i]. unfold assignToStartingStep.
  destruct (srefs !! _) as [j|]; [|done].
  destruct (replicas s !! j) as [p|]; [|done].
  destruct (_ <? _)%nat; [|done].
  apply slotOK_repositionQueue. fsimpl.
  destruct (requests s !! i) as [r|] eqn:Hr.
  - eapply slotOK_nonproc; eauto; simpl; first [by eauto | congruence].
  - eapply slotOK_sameSlot; [|exact HI].
    apply Forall2_alter_refl; [apply sameSlot_refl|]. intros a Ha. congruence.
Qed.

Lemma assignToStarting_foldl_slotOK total srefs ks s :
  NoDup ks.*2 → allQueued ks.*2 s →
  slotOK (requests s) (replicas s) →
  slotOK (requests (foldl (assignToStartingStep total srefs) s ks))
         (replicas (foldl (assignToStartingStep total srefs) s ks)).
Proof.
  revert s. induction ks as [|[n i] rest IH]; intros s Hnd Hq HI; cbn [foldl]; [done|].
  rewrite fmap_cons in Hnd, Hq. cbn [snd] in Hnd, Hq.
  pose proof (assignToStartingStep_others total srefs s (n, i)) as Ho. cbn [snd] in Ho.
  pose proof (allQueued_others _ _ _ _ Hnd Ho Hq) as Hq1.
  apply IH; [by apply NoDup_cons in Hnd as [_ ?]|done|].
  apply assignToStartingStep_slotOK; [done|]. cbn [snd].
  eapply allQueued_nonproc; [exact Hq|by left].
Qed.

Lemma assignToStartingReplicas_slotOK refs s :
  NoDup refs → allQueued refs s →
  slotOK (requests s) (replicas s) →
  slotOK (requests (assignToStartingReplicas refs s))
         (replicas (assignToStartingReplicas refs s)).
Proof.
  intros Hnd Hq HI. unfold assignToStartingReplicas.
  repeat case_bool_decide; try done.
  apply assignToStarting_foldl_slotOK; rewrite ?imap_pair_snd; done.
Qed.

Lemma tryAssignToReplicas_slotOK s :
  slotOK (requests s) (replicas s) →
  slotOK (requests (tryAssignToReplicas s)) (replicas (tryAssignToReplicas s)).
Proof.
  intros HI. unfold tryAssignToReplicas. case_bool_decide.
  - apply assignToStartingReplicas_slotOK;
      [apply NoDup_sortedQueue|apply allQueued_sortedQueue|done].
  - apply assignToStartingReplicas_slotOK;
      [apply NoDup_filterIdx|apply allQueued_filterIdx|].
    apply assignLoop_slotOK; [apply NoDup_sortedQueue|apply allQueued_sortedQueue|done].
Qed.

Lemma slotInv_pool s s' :
  pool s s' → slotOK (requests s') (replicas s') →
  rep_id <$> replicas s = seq 0 (nextReplicaId s) → slotInv s'.
Proof. intros [Hn Hids] HI Hseq. split; [done|]. by rewrite Hids, Hn. Qed.

Lemma afterClock_slotInv Math_sin s : slotInv s → slotInv (afterClock Math_sin s).
Proof.
  intros [HI Hids]. unfold afterClock.
  pose proof (updateRequests_pool Math_sin s) as Hp2.
  apply (updateRequests_slotOK Math_sin) in HI.
  set (s2 := updateRequests Math_sin s) in *. clearbody s2.
  pose proof (updateReplicas_pool s2) as Hp3.
  apply updateReplicas_slotOK in HI.
  set (s3 := updateReplicas s2) in *. clearbody s3.
  pose proof (removeExited_pool s3) as Hp4.
  apply removeExited_slotOK in HI.
  set (s4 := removeExited s3) in *. clearbody s4.
  assert (H4 : slotInv s4).
  { eapply slotInv_pool; [|exact HI|exact Hids].
    eapply pool_trans; [exact Hp2|]. eapply pool_trans; eauto. }
  apply handleAutoscaling_slotInv in H4.
  set (s5 := handleAutoscaling s4) in *. clearbody s5.
  destruct H4 as [H5 Hids5].
  destruct (tryAssignToReplicas_frame s5) as (_ & Hp6 & _).
  apply tryAssignToReplicas_slotOK in H5.
  set (s6 := tryAssignToReplicas s5) in *. clearbody s6.
  eapply slotInv_pool; [| |exact Hids5].
  - eapply pool_trans; [exact Hp6|]. by split.
  - done.
Qed.

Lemma apply_slotInv Math_sin o s :
  idInv s ∧ slotInv s → idInv (apply Math_sin o s) ∧ slotInv (apply Math_sin o s).
Proof.
  intros [Hid HI]. split; [by apply apply_idInv|].
  destruct o; simpl; try done.
  - destruct HI as [HI Hids]. destruct Hid as [_ Hlt]. split; [|done].
    unfold addRequest. fsimpl. apply slotOK_app_request; [done| |done].
    intros Hin. apply list_elem_of_fmap in Hin as (r & Hr1 & Hr).
    rewrite Forall_forall in Hlt. specialize (Hlt r Hr). simpl in Hr1. lia.
  - rewrite tick_unfold. destruct (paused s); [done|]. apply afterClock_slotInv.
    exact HI.
  - unfold reset. case_match; (split; [|done]); simpl;
      split_and!; try constructor; intros ??; rewrite lookup_nil; done.
Qed.

Lemma slotOK_held_Permutation rs ps :
  slotOK rs ps →
  ps ≫= currentRequestIds
  ≡ₚ req_id <$> filter (λ r, bool_decide (req_state r = processing) = true) rs.
Proof.
  intros HI. pose proof HI as (Hnd & Hnp & Hc & Hd & Hf).
  apply NoDup_Permutation.
  - apply NoDup_bind.
    + intros p1 p2 id Hp1 Hp2 Hin1 Hin2.
      apply list_elem_of_lookup_1 in Hp1 as [j1 Hp1].
      apply list_elem_of_lookup_1 in Hp2 as [j2 Hp2].
      destruct (Hc j1 p1 id Hp1 Hin1) as (i & r & Hr & <- & _).
      assert (j2 = j1) by (eapply (slotOK_holder rs ps i r j1 p1 j2 p2); eauto).
      subst. congruence.
    + intros p Hp. rewrite Forall_forall in Hf. by apply Hf.
    + eapply NoDup_fmap_1. exact Hnp.
  - eapply sublist_NoDup; [exact Hnd|]. apply fmap_sublist, sublist_filter.
  - intros id. rewrite list_elem_of_bind, list_elem_of_fmap. split.
    + intros (p & Hin & Hp). apply list_elem_of_lookup_1 in Hp as [j Hp].
      destruct (Hc j p id Hp Hin) as (i & r & Hr & <- & Hst & _).
      exists r. split; [done|]. apply list_elem_of_filter. split.
      * by apply bool_decide_eq_true.
      * by eapply list_elem_of_lookup_2.
    + intros (r & -> & Hr). apply list_elem_of_filter in Hr as [Hst Hr].
      apply bool_decide_eq_true in Hst. apply list_elem_of_lookup_1 in Hr as [i Hr].
      destruct (Hd i r Hr Hst) as (j & p & Hp & _ & Hin).
      exists p. split; [done|]. by eapply list_elem_of_lookup_2.
Qed.

(** X15. In every state reached from a fresh engine, by any operations, the
    slots of the replicas and the requests in process account for each
    other: an identity held by a replica is the identity of a request
    that is processing and is assigned to that replica; a request that
    is processing is held by the replica it is assigned to; no replica
    holds an identity twice; a replica that is neither ready nor busy
    holds nothing; and the number of identities the replicas hold is the
    number of requests that are processing. No slot leaks and none is
    taken twice. *)
Theorem slot_accounting Math_sin (cfg : SimulationConfig) (ops : list Op) :
  let s := run Math_sin ops (newSimulation cfg) in
  (∀ p id, p ∈ replicas s → id ∈ currentRequestIds p →
     ∃ r, r ∈ requests s ∧ req_id r = id ∧ req_state r = processing ∧
          assignedReplica r = Some (rep_id p)) ∧
  (∀ r, r ∈ requests s → req_state r = processing →
     ∃ p, p ∈ replicas s ∧ assignedReplica r = Some (rep_id p) ∧
          req_id r ∈ currentRequestIds p) ∧
  Forall (λ p, NoDup (currentRequestIds p) ∧
               (isActiveReplica p = false → currentRequestIds p = [])) (replicas s) ∧
  length (replicas s ≫= currentRequestIds)
  = countIf (λ r, bool_decide (req_state r = processing)) (requests s).
Proof.
  intros s.
  assert (HI : idInv s ∧ slotInv s).
  { apply (run_invariant Math_sin (λ s, idInv s ∧ slotInv s) (λ _, True)).
    - intros. by apply apply_slotInv.
    - by apply Forall_true.
    - unfold newSimulation. case_match; (split; [split; simpl; constructor|]);
        (split; [|done]); simpl;
        split_and!; try constructor; intros ??; rewrite lookup_nil; done. }
  destruct HI as [_ [HI _]]. pose proof HI as (_ & _ & Hc & Hd & Hf).
  split_and!; [| |done|].
  - intros p id Hp Hin. apply list_elem_of_lookup_1 in Hp as [j Hp].
    destruct (Hc j p id Hp Hin) as (i & r & Hr & ?).
    exists r. split; [by eapply list_elem_of_lookup_2|done].
  - intros r Hr Hst. apply list_elem_of_lookup_1 in Hr as [i Hr].
    destruct (Hd i r Hr Hst) as (j & p & Hp & ?).
    exists p. split; [by eapply list_elem_of_lookup_2|done].
  - rewrite (slotOK_held_Permutation _ _ HI), length_fmap. done.
Qed.

(** ** Layout of the replicas *)

Lemma QofNat_le (n m : nat) : (n ≤ m)%nat → QofNat n <= QofNat m.
Proof. intros H. unfold QofNat. rewrite <- Zle_Qle. lia. Qed.

Lemma QofNat_lt (n m : nat) : (n < m)%nat → QofNat n < QofNat m.
Proof. intros H. unfold QofNat. rewrite <- Zlt_Qlt. lia. Qed.

Lemma QofNat_S (n : nat) : QofNat (S n) == QofNat n + 1.
Proof. unfold QofNat. rewrite Nat2Z.inj_succ, <- Z.add_1_r, inject_Z_plus. reflexivity. Qed.

Lemma Qdiv_antitone (a b b' : Q) : 0 <= a → 0 < b → b <= b' → a / b' <= a / b.
Proof.
  intros Ha Hb Hbb. apply Qle_shift_div_r; [lra|].
  assert (H1 : a / b * b == a).
  { field. intros E. rewrite E in Hb. by apply Qlt_irrefl in Hb. }
  assert (H2 : 0 <= a / b) by (apply Qle_shift_div_l; lra).
  assert (H3 : a / b * b <= a / b * b').
  { apply Qmult_le_compat_nonneg; split; try done; try apply Qle_refl; lra. }
  lra.
Qed.

Lemma spacing_bounds (x : Q) :
  MIN_REPLICA_SPACING <= Qmin MAX_REPLICA_SPACING (Qmax MIN_REPLICA_SPACING x) ∧
  Qmin MAX_REPLICA_SPACING (Qmax MIN_REPLICA_SPACING x) <= MAX_REPLICA_SPACING.
Proof.
  split; [|apply Q.le_min_l].
  apply Q.min_glb; [done|apply Q.le_max_l].
Qed.

(** X16. [getReplicaSpacing] is always within [MIN_REPLICA_SPACING,
    MAX_REPLICA_SPACING], and it does not grow when more replicas are
    shown. *)
Theorem replica_spacing_bounds (s s' : Simulation) :
  (MIN_REPLICA_SPACING <= getReplicaSpacing s ∧
   getReplicaSpacing s <= MAX_REPLICA_SPACING) ∧
  ((length (notStopped (replicas s)) ≤ length (notStopped (replicas s')))%nat →
   getReplicaSpacing s' <= getReplicaSpacing s).
Proof.
  assert (Hb : ∀ s, MIN_REPLICA_SPACING <= getReplicaSpacing s ∧
                    getReplicaSpacing s <= MAX_REPLICA_SPACING).
  { intros s0. unfold getReplicaSpacing. case_bool_decide; [done|apply spacing_bounds]. }
  split; [apply Hb|]. intros Hle.
  unfold getReplicaSpacing at 2. case_bool_decide as Hc; [apply Hb|].
  unfold getReplicaSpacing. rewrite bool_decide_eq_false_2 by lia.
  apply Q.min_le_compat_l, Q.max_le_compat_l.
  apply Qdiv_antitone; [done| |].
  - assert (QofNat 1 < QofNat (length (notStopped (replicas s)))) by (apply QofNat_lt; lia).
    change (QofNat 1) with 1 in *. lra.
  - apply QofNat_le in Hle. lra.
Qed.

Lemma replica_spacing_bounds_witness :
  (length (notStopped (replicas mixedPool)) ≤ length (notStopped (replicas mixedPool)))%nat ∧
  getReplicaSpacing mixedPool <= getReplicaSpacing mixedPool.
Proof.
  split; [reflexivity|].
  apply (replica_spacing_bounds mixedPool mixedPool). reflexivity.
Defined.

Lemma Qhalf (a : Q) : a / 2 == a * (1 # 2).
Proof. reflexivity. Qed.

Lemma findIndex_rep_id (l : list Replica) (k : nat) (p : Replica) :
  NoDup (rep_id <$> l) → l !! k = Some p →
  findIndex (λ r, bool_decide (rep_id r = rep_id p)) l = Some k.
Proof.
  intros Hnd Hk. unfold findIndex.
  destruct (list_find _ l) as [[j q]|] eqn:Hf.
  - apply list_find_Some in Hf as (Hj & Hq & _). apply bool_decide_eq_true in Hq.
    simpl. f_equal. eapply NoDup_lookup; [exact Hnd| |]; rewrite list_lookup_fmap.
    + by rewrite Hj.
    + rewrite Hk. simpl. by rewrite Hq.
  - apply list_find_None in Hf. apply (Forall_lookup_1 _ _ _ _ Hf) in Hk.
    destruct Hk. by apply bool_decide_eq_true.
Qed.

Lemma notStopped_sublist ps : notStopped ps `sublist_of` ps.
Proof. apply sublist_filter. Qed.

Lemma NoDup_lanes s : NoDup (rep_id <$> replicas s) → NoDup (rep_id <$> lanes s).
Proof.
  intros Hnd. unfold lanes. rewrite jsSort_Permutation.
  eapply sublist_NoDup; [exact Hnd|]. apply fmap_sublist, notStopped_sublist.
Qed.

Lemma elem_of_lanes s p : p ∈ lanes s ↔ p ∈ replicas s ∧ rep_state p ≠ stopped.
Proof.
  unfold lanes, notStopped. rewrite elem_of_jsSort, list_elem_of_filter. tauto.
Qed.

Lemma length_lanes s : length (lanes s) = length (notStopped (replicas s)).
Proof. apply length_jsSort. Qed.

Lemma getReplicaY_lane s k p :
  NoDup (rep_id <$> replicas s) → lanes s !! k = Some p →
  getReplicaY s p
  == CENTER_Y - (QofNat (length (lanes s)) - 1) * laneSpacing (length (lanes s)) / 2
     + QofNat k * laneSpacing (length (lanes s)).
Proof.
  intros Hnd Hk. unfold getReplicaY. fold (lanes s).
  rewrite (findIndex_rep_id (lanes s) k p (NoDup_lanes s Hnd) Hk).
  unfold laneSpacing, indexOrMinus1, QofNat. reflexivity.
Qed.

Lemma laneSpacing_bounds count :
  0 <= laneSpacing count ∧
  ((1 < count)%nat → MIN_REPLICA_SPACING <= laneSpacing count) ∧
  ((count ≤ 15)%nat → (QofNat count - 1) * laneSpacing count <= 350).
Proof.
  unfold laneSpacing. case_bool_decide as Hc.
  - destruct (spacing_bounds ((MODEL_ZONE_BOTTOM - MODEL_ZONE_TOP - 80) / (QofNat count - 1)))
      as [Hlo Hhi].
    set (sp := Qmin _ _) in *.
    assert (Hb : 1 <= QofNat count - 1).
    { assert (QofNat 2 <= QofNat count) by (apply QofNat_le; lia).
      change (QofNat 2) with 2 in *. lra. }
    split; [unfold MIN_REPLICA_SPACING in Hlo; lra|]. split; [done|].
    intros H15.
    assert (Hb15 : QofNat count - 1 <= 14).
    { assert (QofNat count <= QofNat 15) by (apply QofNat_le; lia).
      change (QofNat 15) with 15 in *. lra. }
    assert (Hsp : sp <= Qmax MIN_REPLICA_SPACING
                          ((MODEL_ZONE_BOTTOM - MODEL_ZONE_TOP - 80) / (QofNat count - 1)))
      by apply Q.le_min_r.
    set (b := QofNat count - 1) in *.
    destruct (Q.max_spec MIN_REPLICA_SPACING ((MODEL_ZONE_BOTTOM - MODEL_ZONE_TOP - 80) / b))
      as [[_ Hm]|[_ Hm]]; rewrite Hm in Hsp.
    + assert (Hd : b * ((MODEL_ZONE_BOTTOM - MODEL_ZONE_TOP - 80) / b)
                   == MODEL_ZONE_BOTTOM - MODEL_ZONE_TOP - 80).
      { apply Qmult_div_r. intros E. rewrite E in Hb. lra. }
      assert (b * sp <= b * ((MODEL_ZONE_BOTTOM - MODEL_ZONE_TOP - 80) / b)).
      { apply Qmult_le_l; [lra|done]. }
      unfold MODEL_ZONE_BOTTOM, MODEL_ZONE_TOP in *. lra.
    + assert (b * sp <= b * MIN_REPLICA_SPACING) by (apply Qmult_le_l; [lra|done]).
      unfold MIN_REPLICA_SPACING in *. lra.
  - split; [done|]. split; [lia|]. intros _. lra.
Qed.

Lemma fst_imap_pair {A B} (g : nat → A → B) (l : list A) :
  (imap (λ i a, (a, g i a)) l).*1 = l.
Proof.
  rewrite fmap_imap. induction l as [|a l IH] using rev_ind; [done|].
  rewrite imap_app. simpl. by rewrite IH.
Qed.

Lemma reachable_rep_ids Math_sin cfg ops :
  NoDup (rep_id <$> replicas (run Math_sin ops (newSimulation cfg))).
Proof.
  assert (HI : idInv (run Math_sin ops (newSimulation cfg)) ∧
               slotInv (run Math_sin ops (newSimulation cfg))).
  { apply (run_invariant Math_sin (λ s, idInv s ∧ slotInv s) (λ _, True)).
    - intros. by apply apply_slotInv.
    - by apply Forall_true.
    - unfold newSimulation. case_match; (split; [split; simpl; constructor|]);
        (split; [|done]); simpl;
        split_and!; try constructor; intros ??; rewrite lookup_nil; done. }
  destruct HI as [_ [_ ->]]. apply NoDup_seq.
Qed.

(** X17. Under a fixed configuration with at most 15 replicas, in every state
    reached from a fresh engine the lane [getReplicaY] gives a replica
    that is shown lies within the model zone; two neighbouring lanes are
    [laneSpacing] apart, which is at least [MIN_REPLICA_SPACING]; and the
    lanes are placed symmetrically about [CENTER_Y]. *)
Theorem replica_lanes Math_sin (cfg : SimulationConfig) (ops : list Op) (k : nat) (p : Replica) :
  (0 ≤ maxReplicas cfg ≤ 15)%Z →
  Forall (λ o, isSetConfig o = false) ops →
  let s := run Math_sin ops (newSimulation cfg) in
  let n := length (lanes s) in
  lanes s !! k = Some p →
  (MODEL_ZONE_TOP <= getReplicaY s p ∧ getReplicaY s p <= MODEL_ZONE_BOTTOM) ∧
  (∀ p', lanes s !! S k = Some p' →
     getReplicaY s p' - getReplicaY s p == laneSpacing n ∧
     MIN_REPLICA_SPACING <= laneSpacing n) ∧
  (∀ p', lanes s !! (n - 1 - k)%nat = Some p' →
     getReplicaY s p + getReplicaY s p' == 2 * CENTER_Y).
Proof.
  intros Hmax Hops s n Hk.
  assert (HI : poolInv cfg s).
  { apply (run_invariant Math_sin (poolInv cfg) (λ o, isSetConfig o = false)); auto.
    - intros. by apply apply_poolInv.
    - apply newSimulation_poolInv. }
  pose proof (poolInv_length _ _ HI) as Hlen. destruct HI as (_ & Hids & Hb).
  assert (Hnd : NoDup (rep_id <$> replicas s)) by (rewrite Hids; apply NoDup_seq).
  assert (Hn : (n ≤ 15)%nat).
  { subst n. rewrite length_lanes. unfold notStopped.
    pose proof (length_filter (λ r, rep_state r ≠ stopped) (replicas s)). lia. }
  pose proof (lookup_lt_Some _ _ _ Hk) as Hkn. fold n in Hkn.
  destruct (laneSpacing_bounds n) as (Hs0 & Hs1 & Hs2). specialize (Hs2 Hn).
  pose proof (getReplicaY_lane s k p Hnd Hk) as Hy. fold n in Hy.
  assert (Hk0 : 0 <= QofNat k) by (change 0 with (QofNat 0); apply QofNat_le; lia).
  assert (Hk1 : QofNat k <= QofNat n - 1).
  { assert (QofNat (S k) <= QofNat n) by (apply QofNat_le; lia).
    rewrite QofNat_S in *. lra. }
  set (sp := laneSpacing n) in *. set (qk := QofNat k) in *. set (qn := QofNat n) in *.
  assert (Hks : qk * sp <= (qn - 1) * sp).
  { apply Qmult_le_compat_r; done. }
  assert (Hks0 : 0 <= qk * sp) by (apply Qmult_le_0_compat; done).
  rewrite Qhalf in Hy.
  split_and!.
  - rewrite Hy. unfold MODEL_ZONE_TOP, CENTER_Y. lra.
  - rewrite Hy. unfold MODEL_ZONE_BOTTOM, CENTER_Y. lra.
  - intros p' Hk'. pose proof (getReplicaY_lane s (S k) p' Hnd Hk') as Hy'.
    fold n in Hy'. fold sp qn in Hy'. rewrite QofNat_S, Qhalf in Hy'. fold qk in Hy'.
    split; [rewrite Hy, Hy'; lra|].
    apply Hs1. apply lookup_lt_Some in Hk'. fold n in Hk'. lia.
  - intros p' Hk'. pose proof (getReplicaY_lane s _ p' Hnd Hk') as Hy'.
    fold n in Hy'. fold sp qn in Hy'.
    assert (Hm : QofNat (n - 1 - k) == qn - 1 - qk).
    { subst qn qk. unfold QofNat. rewrite !Nat2Z.inj_sub by lia.
      replace (Z.of_nat n - Z.of_nat 1 - Z.of_nat k)%Z
        with (Z.of_nat n + (-1) + - Z.of_nat k)%Z by lia.
      rewrite !inject_Z_plus, inject_Z_opp. change (inject_Z (-1)) with (-1). lra. }
    rewrite Hm, Qhalf in Hy'. rewrite Hy, Hy'. unfold CENTER_Y. lra.
Qed.

Lemma replica_lanes_witness :
  let ops := [SetTargetReplicas 3; Tick 100] in
  (0 ≤ maxReplicas DEFAULT_CONFIG ≤ 15)%Z ∧
  Forall (λ o, isSetConfig o = false) ops ∧
  lanes (run zeroSin ops (newSimulation DEFAULT_CONFIG)) !! 1%nat
    = Some (mkReplica 1 starting (Some 100) None []) ∧
  MODEL_ZONE_TOP
    <= getReplicaY (run zeroSin ops (newSimulation DEFAULT_CONFIG))
         (mkReplica 1 starting (Some 100) None []).
Proof.
  split; [split; discriminate|]. split; [repeat constructor|].
  split; [vm_compute; reflexivity|].
  destruct (replica_lanes zeroSin DEFAULT_CONFIG [SetTargetReplicas 3; Tick 100] 1
              (mkReplica 1 starting (Some 100) None [])) as ((H & _) & _);
    [split; discriminate | repeat constructor | vm_compute; reflexivity | exact H].
Defined.

(** X18. In every state reached from a fresh engine, the renderer gives a
    sprite to the replicas that are not stopped, in the order of their
    lanes, and the height it moves the sprite of a replica to is the
    height [getReplicaY] gives the engine for the requests of that
    replica. *)
Theorem renderer_lanes_agree Math_sin (cfg : SimulationConfig) (ops : list Op) :
  let s := run Math_sin ops (newSimulation cfg) in
  (renderReplicas s).*1 = lanes s ∧
  (∀ p, p ∈ lanes s ↔ p ∈ replicas s ∧ rep_state p ≠ stopped) ∧
  (∀ p y, (p, y) ∈ renderReplicas s → y == getReplicaY s p).
Proof.
  intros s. pose proof (reachable_rep_ids Math_sin cfg ops) as Hnd. fold s in Hnd.
  split_and!.
  - unfold renderReplicas. fold (lanes s). cbn zeta.
    apply (fst_imap_pair (λ index _, _)).
  - apply elem_of_lanes.
  - intros p y Hin. unfold renderReplicas in Hin. fold (lanes s) in Hin.
    apply elem_of_lookup_imap in Hin as (k & q & Heq & Hk). simplify_eq.
    rewrite (getReplicaY_lane s k q Hnd Hk).
    unfold getCenterY, getReplicaSpacing, laneSpacing. rewrite <- length_lanes.
    pose proof (lookup_lt_Some _ _ _ Hk) as Hkn.
    destruct (decide (length (lanes s) ≤ 1)%nat) as [H1|H1].
    + rewrite bool_decide_eq_true_2, bool_decide_eq_false_2 by lia.
      assert (length (lanes s) = 1%nat ∧ k = 0%nat) as [-> ->] by lia.
      rewrite !Qhalf. unfold QofNat, MAX_REPLICA_SPACING.
      change (inject_Z (Z.of_nat 1)) with 1. change (inject_Z (Z.of_nat 0)) with 0. lra.
    + rewrite bool_decide_eq_false_2, bool_decide_eq_true_2 by lia. reflexivity.
Qed.

(** ** Layout of the queue *)

Lemma foldl_alter_NoDup {A} (f : nat → A → A) (refs : list nat) (l : list A) :
  NoDup refs →
  let l' := foldl (λ rs ki, alter (f ki.1) ki.2 rs) l (imap pair refs) in
  (∀ k i, refs !! k = Some i → l' !! i = f k <$> l !! i) ∧
  (∀ i, i ∉ refs → l' !! i = l !! i).
Proof.
  induction refs as [|i0 refs IH] using rev_ind; intros Hnd; cbn zeta.
  { split; [intros ?? H; by rewrite lookup_nil in H|done]. }
  apply NoDup_app in Hnd as (Hnd & Hfresh & _).
  destruct (IH Hnd) as [IH1 IH2]. cbn zeta in IH1, IH2.
  rewrite imap_app, foldl_app. simpl. rewrite Nat.add_0_r.
  assert (Hi0 : i0 ∉ refs).
  { intros Hin. apply (Hfresh i0 Hin). by left. }
  split.
  - intros k i Hk. apply lookup_app_Some in Hk as [Hk|[Hle Hk]].
    + rewrite list_lookup_alter_ne; [by apply IH1|].
      intros ->. apply Hi0. by eapply list_elem_of_lookup_2.
    + apply list_lookup_singleton_Some in Hk as [Hk <-].
      assert (k = length refs) as -> by lia.
      by rewrite list_lookup_alter_eq, IH2.
  - intros i Hi. apply not_elem_of_app in Hi as [Hi Hne].
    rewrite list_lookup_alter_ne; [by apply IH2|].
    intros ->. apply Hne. by left.
Qed.

(** X19. [repositionQueue] lines the queued requests up in the order in which
    the dispatcher serves them, the first at the start of the queue zone
    and each next one [spacing] further, where [spacing] is at most 35
    and shrinks with the length of the queue so that every position stays
    inside the zone; every other request is left as it is. *)
Theorem queue_positions (s : Simulation) :
  let s' := repositionQueue s in
  let q := sortedQueue (requests s) in
  let spacing :=
    Qmin 35 ((STAGE_X.queueEnd - STAGE_X.queue) / QofNat (Nat.max (length q) 1)) in
  (∀ k i, q !! k = Some i →
     ∃ r, requests s !! i = Some r ∧ req_state r = queued ∧
          requests s' !! i = Some (with_targetX (STAGE_X.queue + QofNat k * spacing) r) ∧
          STAGE_X.queue <= STAGE_X.queue + QofNat k * spacing ∧
          STAGE_X.queue + QofNat k * spacing < STAGE_X.queueEnd) ∧
  (∀ i r, requests s !! i = Some r → req_state r ≠ queued → requests s' !! i = Some r) ∧
  replicas s' = replicas s.
Proof.
  intros s' q spacing.
  destruct (foldl_alter_NoDup
              (λ k, with_targetX (STAGE_X.queue + QofNat k * spacing))
              q (requests s) (NoDup_sortedQueue _)) as [H1 H2].
  cbn zeta in H1, H2.
  split_and!; [| |done].
  - intros k i Hk.
    destruct (allQueued_sortedQueue s i) as (r & Hr & Hst);
      [by eapply list_elem_of_lookup_2|].
    exists r. split; [done|]. split; [done|]. split.
    { subst s'. unfold repositionQueue. fsimpl. fold q. fold spacing.
      specialize (H1 k i Hk). rewrite Hr in H1. exact H1. }
    pose proof (lookup_lt_Some _ _ _ Hk) as Hkn.
    assert (Hmax : Nat.max (length q) 1 = length q) by lia.
    subst spacing. rewrite Hmax.
    set (qn := QofNat (length q)). set (qk := QofNat k).
    assert (Hqn : 1 <= qn).
    { change 1 with (QofNat 1). apply QofNat_le. lia. }
    assert (Hk0 : 0 <= qk) by (change 0 with (QofNat 0); apply QofNat_le; lia).
    assert (Hk1 : qk <= qn - 1).
    { assert (Hs : QofNat (S k) <= qn) by (apply QofNat_le; lia).
      rewrite QofNat_S in Hs. fold qk in Hs. lra. }
    change (STAGE_X.queueEnd - STAGE_X.queue) with 140.
    assert (Hd : qn * (140 / qn) == 140).
    { apply Qmult_div_r. intros E. rewrite E in Hqn. lra. }
    assert (Hd0 : 0 < 140 / qn) by (apply Qlt_shift_div_l; lra).
    set (sp := Qmin 35 (140 / qn)).
    assert (Hsp : sp <= 140 / qn) by apply Q.le_min_r.
    assert (Hsp0 : 0 < sp).
    { subst sp. destruct (Q.min_spec 35 (140 / qn)) as [[_ ->]|[_ ->]]; lra. }
    assert (Hn : qn * sp <= qn * (140 / qn)) by (apply Qmult_le_l; [lra|done]).
    assert (Hks : qk * sp <= (qn - 1) * sp).
    { apply Qmult_le_compat_r; [done|lra]. }
    assert (Hks0 : 0 <= qk * sp) by (apply Qmult_le_0_compat; lra).
    unfold STAGE_X.queue, STAGE_X.queueEnd. split; lra.
  - intros i r Hr Hst. subst s'. unfold repositionQueue. fsimpl. fold q. fold spacing.
    rewrite H2; [done|]. intros Hin.
    destruct (allQueued_sortedQueue s i Hin) as (r' & Hr' & Hst'). simplify_eq.
Qed.

(** ** The narrator *)

Lemma find_first {A} (p : A → bool) (l : list A) (a : A) :
  List.find p l = Some a ↔
  ∃ k, l !! k = Some a ∧ p a = true ∧ ∀ j b, (j < k)%nat → l !! j = Some b → p b = false.
Proof.
  revert a. induction l as [|b l IH]; intros a; simpl.
  { split; [done|]. by intros (k & Hk & _). }
  destruct (p b) eqn:Hb.
  - split.
    + intros [= ->]. exists 0%nat. split_and!; [done|done|]. intros; lia.
    + intros (k & Hk & Ha & Hfirst). destruct k as [|k]; [by simplify_eq/=|].
      specialize (Hfirst 0%nat b). simpl in Hfirst. rewrite Hfirst in Hb; [done|lia|done].
  - rewrite IH. split.
    + intros (k & Hk & Ha & Hfirst). exists (S k). split_and!; [done|done|].
      intros [|j] c Hj Hc; simpl in Hc; [by simplify_eq|]. eapply Hfirst; [|done]. lia.
    + intros (k & Hk & Ha & Hfirst). destruct k as [|k]; [simplify_eq/=; congruence|].
      exists k. split_and!; [done|done|].
      intros j c Hj Hc. apply (Hfirst (S j) c); [lia|done].
Qed.

Lemma find_None {A} (p : A → bool) (l : list A) :
  List.find p l = None ↔ Forall (λ a, p a = false) l.
Proof.
  induction l as [|b l IH]; simpl; [by split; [constructor|]|].
  destruct (p b) eqn:Hb.
  - split; [done|]. intros H. apply Forall_cons in H as [H _]. congruence.
  - rewrite IH. split; [by constructor|]. by intros [_ ?]%Forall_cons.
Qed.

Lemma findByOrder_None order requests :
  findByOrder order requests = None ↔
  Forall (λ r, req_state r ∉ order) requests.
Proof.
  induction order as [|st order IH]; simpl.
  { split; [|done]. intros _. apply Forall_forall. intros r _. apply not_elem_of_nil. }
  destruct (List.find _ requests) as [found|] eqn:Hf.
  - split; [done|]. intros Hall. apply find_first in Hf as (k & Hk & Hst & _).
    apply bool_decide_eq_true in Hst.
    apply (Forall_lookup_1 _ _ _ _ Hall) in Hk. destruct Hk. rewrite Hst. by left.
  - rewrite IH. apply find_None in Hf. rewrite !Forall_forall in *. split.
    + intros Hall r Hr. specialize (Hf r Hr). apply bool_decide_eq_false in Hf.
      apply not_elem_of_cons. split; [done|]. by apply Hall.
    + intros Hall r Hr. specialize (Hall r Hr). by apply not_elem_of_cons in Hall as [_ ?].
Qed.

Lemma findByOrder_Some order requests r :
  NoDup order →
  findByOrder order requests = Some r →
  ∃ k o, requests !! k = Some r ∧ order !! o = Some (req_state r) ∧
    (∀ j b, (j < k)%nat → requests !! j = Some b → req_state b ≠ req_state r) ∧
    (∀ o' b, (o' < o)%nat → b ∈ requests → order !! o' ≠ Some (req_state b)).
Proof.
  induction order as [|st order IH]; simpl; [done|]. intros Hnd.
  apply NoDup_cons in Hnd as [Hst Hnd].
  destruct (List.find _ requests) as [found|] eqn:Hf.
  - intros [= ->]. apply find_first in Hf as (k & Hk & Hr & Hfirst).
    apply bool_decide_eq_true in Hr. exists k, 0%nat. split_and!; [done|by rewrite Hr| |].
    + intros j b Hj Hb. specialize (Hfirst j b Hj Hb).
      apply bool_decide_eq_false in Hfirst. congruence.
    + intros; lia.
  - intros Hr. destruct (IH Hnd Hr) as (k & o & Hk & Ho & Hfirst & Hbest).
    exists k, (S o). split_and!; [done|done|done|].
    apply find_None in Hf. rewrite Forall_forall in Hf.
    intros [|o'] b Ho' Hb; simpl.
    + specialize (Hf b Hb). apply bool_decide_eq_false in Hf. congruence.
    + apply Hbest; [lia|done].
Qed.

Lemma stateOrder_rank st :
  st ≠ exiting → stateOrder !! narrationRank st = Some st.
Proof. by destruct st. Qed.

Lemma stateOrder_lookup o st : stateOrder !! o = Some st → o = narrationRank st ∧ st ≠ exiting.
Proof.
  unfold stateOrder. intros H.
  do 10 (destruct o as [|o]; [by simplify_eq/=|]). done.
Qed.

Lemma NoDup_stateOrder : NoDup stateOrder.
Proof. unfold stateOrder. repeat (apply NoDup_cons; split;
            [rewrite ?elem_of_cons, elem_of_nil; intros H; by repeat destruct H as [H|H]|]).
  apply NoDup_nil_2. Qed.

Lemma find_by_id (rs : list Request) (i : nat) (r : Request) :
  NoDup (req_id <$> rs) → rs !! i = Some r →
  List.find (λ r', bool_decide (req_id r' = req_id r)) rs = Some r.
Proof.
  intros Hnd Hi. apply find_first. exists i. split_and!; [done|by apply bool_decide_eq_true|].
  intros j b Hj Hb. apply bool_decide_eq_false. intros Hid.
  assert (j = i); [|lia].
  eapply NoDup_lookup; [exact Hnd| |]; rewrite list_lookup_fmap.
  - by rewrite Hb.
  - by rewrite Hi, Hid.
Qed.

(** X20. The narrator shows its idle text exactly when no request is on the
    canvas: in every state reached from a fresh engine, whatever request
    it tracked before, [findRequestToNarrate] finds no request if and
    only if the list of requests is empty. *)
Theorem narrator_idle Math_sin (cfg : SimulationConfig) (ops : list Op)
    (trackedRequestId : option nat) :
  let s := run Math_sin ops (newSimulation cfg) in
  findRequestToNarrate trackedRequestId s = None ↔ requests s = [].
Proof.
  intros s.
  assert (Hx : Forall (λ r, req_state r ≠ exiting) (requests s)).
  { apply (run_invariant Math_sin
             (λ s, Forall (λ r, req_state r ≠ exiting) (requests s)) (λ _, True)).
    - intros. by apply apply_noExiting.
    - by apply Forall_true.
    - unfold newSimulation. case_match; constructor. }
  clearbody s.
  assert (Hscan : findByOrder stateOrder (requests s) = None ↔ requests s = []).
  { rewrite findByOrder_None. split; [|by intros ->].
    destruct (requests s) as [|r rs]; [done|]. intros Hall.
    apply Forall_cons in Hall as [Hr _]. apply Forall_cons in Hx as [Hne _].
    destruct Hr. eapply list_elem_of_lookup_2. by apply stateOrder_rank. }
  unfold findRequestToNarrate. cbn zeta.
  destruct trackedRequestId as [id|]; [|done].
  destruct (List.find _ (requests s)) as [t|] eqn:Hf; [|done].
  apply find_first in Hf as (k & Hk & _).
  pose proof (Forall_lookup_1 _ _ _ _ Hx Hk) as Hne. cbv beta in Hne.
  split.
  - destruct (req_state t); try done.
  - intros E. by rewrite E in Hk.
Qed.

(** X21. The narrator stays with its request: in every state reached from a
    fresh engine, when a request with the tracked identity is still in
    the list, [findRequestToNarrate] returns that request, whatever the
    states of the others; [update] then keeps tracking it and leaves the
    text of that request as the last narration. *)
Theorem narrator_follows Math_sin (cfg : SimulationConfig) (ops : list Op)
    (generateNarration : Simulation → Request → String.string)
    (idleNarration : Simulation → nat → String.string)
    (i : nat) (r : Request) :
  let s := run Math_sin ops (newSimulation cfg) in
  requests s !! i = Some r →
  findRequestToNarrate (Some (req_id r)) s = Some r ∧
  ∀ v, trackedRequestId v = Some (req_id r) →
       let v' := update generateNarration idleNarration s v in
       trackedRequestId v' = Some (req_id r) ∧
       lastNarration v' = generateNarration s r.
Proof.
  intros s Hi.
  assert (Hx : Forall (λ r, req_state r ≠ exiting) (requests s)).
  { apply (run_invariant Math_sin
             (λ s, Forall (λ r, req_state r ≠ exiting) (requests s)) (λ _, True)).
    - intros. by apply apply_noExiting.
    - by apply Forall_true.
    - unfold newSimulation. case_match; constructor. }
  assert (HI : idInv s).
  { apply (run_invariant Math_sin idInv (λ _, True)).
    - intros. by apply apply_idInv.
    - by apply Forall_true.
    - unfold newSimulation. case_match; split; simpl; constructor. }
  clearbody s. destruct HI as [Hnd _].
  assert (Hfind : findRequestToNarrate (Some (req_id r)) s = Some r).
  { unfold findRequestToNarrate. cbn zeta.
    rewrite (find_by_id _ i r Hnd Hi).
    pose proof (Forall_lookup_1 _ _ _ _ Hx Hi) as Hne. cbv beta in Hne.
    by destruct (req_state r). }
  split; [done|]. intros v Htr. unfold update. rewrite Htr, Hfind. cbn zeta. simpl.
  destruct (String.eqb _ _) eqn:E; simpl; [|done].
  apply String.eqb_eq in E. done.
Qed.

Lemma narrator_follows_witness :
  let text := λ (_ : Simulation) (_ : Request),
                String.String Ascii.Space String.EmptyString in
  let idle := λ (_ : Simulation) (_ : nat), String.EmptyString in
  ∃ r, requests priorityQueue !! 0%nat = Some r ∧
       findRequestToNarrate (Some (req_id r)) priorityQueue = Some r ∧
       ∀ v, trackedRequestId v = Some (req_id r) →
            trackedRequestId (update text idle priorityQueue v) = Some (req_id r) ∧
            lastNarration (update text idle priorityQueue v) = text priorityQueue r.
Proof.
  intros text idle. eexists. split; [vm_compute; reflexivity|].
  apply (narrator_follows zeroSin DEFAULT_CONFIG priorityQueueRun text idle 0).
  vm_compute; reflexivity.
Defined.

(** X22. When the narrator tracks no request, or the tracked one has left the
    list, it picks by state: the request it returns is in the list, no
    request of the list is in a state that comes earlier in the order
    processing, delivering, waiting for model, queued, validating,
    entering, completed, failed, expired, rate limited, and among the
    requests in the same state it is the first of the list. *)
Theorem narrator_choice (trackedRequestId : option nat) (s : Simulation) (r : Request) :
  match trackedRequestId with
  | Some id => Forall (λ r', req_id r' ≠ id) (requests s)
  | None => True
  end →
  findRequestToNarrate trackedRequestId s = Some r →
  ∃ k, requests s !! k = Some r ∧ req_state r ≠ exiting ∧
    (∀ r', r' ∈ requests s → req_state r' ≠ exiting →
           (narrationRank (req_state r) ≤ narrationRank (req_state r'))%nat) ∧
    (∀ j r', (j < k)%nat → requests s !! j = Some r' → req_state r' ≠ req_state r).
Proof.
  intros Htr. unfold findRequestToNarrate. cbn zeta.
  assert (Hno : match trackedRequestId with
                | Some id => List.find (λ r, bool_decide (req_id r = id)) (requests s)
                | None => None
                end = None).
  { destruct trackedRequestId as [id|]; [|done]. apply find_None.
    eapply Forall_impl; [exact Htr|]. intros r' Hr'. by apply bool_decide_eq_false. }
  rewrite Hno. intros Hf.
  apply (findByOrder_Some _ _ _ NoDup_stateOrder) in Hf
    as (k & o & Hk & Ho & Hfirst & Hbest).
  apply stateOrder_lookup in Ho as [-> Hne].
  exists k. split_and!; [done|done| |done].
  intros r' Hr' Hne'.
  destruct (decide (narrationRank (req_state r) ≤ narrationRank (req_state r'))%nat);
    [done|].
  destruct (Hbest (narrationRank (req_state r')) r'); [lia|done|].
  by apply stateOrder_rank.
Qed.

Lemma narrator_choice_witness :
  ∃ r, findRequestToNarrate None priorityQueue = Some r ∧
  ∃ k, requests priorityQueue !! k = Some r ∧ req_state r ≠ exiting ∧
    (∀ r', r' ∈ requests priorityQueue → req_state r' ≠ exiting →
           (narrationRank (req_state r) ≤ narrationRank (req_state r'))%nat) ∧
    (∀ j r', (j < k)%nat → requests priorityQueue !! j = Some r' →
             req_state r' ≠ req_state r).
Proof.
  eexists. split; [vm_compute; reflexivity|].
  apply (narrator_choice None priorityQueue); [exact I|vm_compute; reflexivity].
Defined.

(** ** The position in the queue *)

Lemma sortInsert_Forall2 {A B} (R : A → B → Prop) cmp1 cmp2 a a' l l' :
  (∀ a a' b b', R a a' → R b b' → cmp1 a b = cmp2 a' b') →
  R a a' → Forall2 R l l' →
  Forall2 R (sortInsert cmp1 a l) (sortInsert cmp2 a' l').
Proof.
  intros Hcmp Ha. induction 1 as [|b b' l l' Hb Hl IH]; simpl.
  { by repeat constructor. }
  rewrite (Hcmp a a' b b' Ha Hb). destruct (Qleb _ _); by repeat constructor.
Qed.

Lemma jsSort_Forall2 {A B} (R : A → B → Prop) cmp1 cmp2 l l' :
  (∀ a a' b b', R a a' → R b b' → cmp1 a b = cmp2 a' b') →
  Forall2 R l l' → Forall2 R (jsSort cmp1 l) (jsSort cmp2 l').
Proof.
  intros Hcmp. induction 1; simpl; [constructor|]. by apply sortInsert_Forall2.
Qed.

Lemma filterIdx_filter {A} (p : A → bool) (l : list A) :
  Forall2 (λ i a, l !! i = Some a) (filterIdx p l) (filter (λ a, p a = true) l).
Proof.
  induction l as [|a l IH] using rev_ind; [constructor|].
  rewrite filterIdx_app, filter_app. apply Forall2_app.
  - eapply Forall2_impl; [exact IH|]. intros i b Hi. by apply lookup_app_l_Some.
  - unfold filterIdx. simpl. rewrite !filter_cons. simpl.
    destruct (decide (p a = true)); simpl; [|constructor].
    repeat constructor. rewrite Nat.add_0_r. by apply list_lookup_middle.
Qed.

(** The requests of the queue as the narrator sorts them are the
    requests the dispatcher's queue refers to, in the same order. *)
Lemma narrator_queue rs :
  Forall2 (λ i r, rs !! i = Some r) (sortedQueue rs)
    (jsSort cmpRequest (filter (λ r, req_state r = queued) rs)).
Proof.
  unfold sortedQueue. apply jsSort_Forall2.
  - intros i r j r' Hi Hj. unfold cmpAt. by rewrite Hi, Hj.
  - assert (E : filter (λ r, req_state r = queued) rs = filter (λ r, isQueued r = true) rs).
    { apply list_filter_iff. intros r. unfold isQueued.
      by rewrite bool_decide_eq_true. }
    rewrite E. apply filterIdx_filter.
Qed.

(** X23. The position the narrator shows for a queued request is its place in
    the order in which the dispatcher serves the queue, counted from 1;
    for a request that is not queued it is 0, which the narrator leaves
    out. This holds in every state reached from a fresh engine. *)
Theorem queue_position_order Math_sin (cfg : SimulationConfig) (ops : list Op)
    (i : nat) (r : Request) :
  let s := run Math_sin ops (newSimulation cfg) in
  requests s !! i = Some r →
  (∀ k, sortedQueue (requests s) !! k = Some i →
        getQueuePosition s r = (Z.of_nat k + 1)%Z) ∧
  (req_state r ≠ queued → getQueuePosition s r = 0%Z) ∧
  (req_state r = queued →
     (1 ≤ getQueuePosition s r ≤ Z.of_nat (length (sortedQueue (requests s))))%Z).
Proof.
  intros s Hi.
  assert (HI : idInv s).
  { apply (run_invariant Math_sin idInv (λ _, True)).
    - intros. by apply apply_idInv.
    - by apply Forall_true.
    - unfold newSimulation. case_match; split; simpl; constructor. }
  clearbody s. destruct HI as [Hnd _].
  pose proof (narrator_queue (requests s)) as HQ.
  assert (Hsame : ∀ j b, requests s !! j = Some b → req_id b = req_id r → j = i).
  { intros j b Hj Hid. eapply NoDup_lookup; [exact Hnd| |]; rewrite list_lookup_fmap.
    - by rewrite Hj.
    - by rewrite Hi, Hid. }
  assert (Hpos : ∀ k, sortedQueue (requests s) !! k = Some i →
                      getQueuePosition s r = (Z.of_nat k + 1)%Z).
  { intros k Hk. unfold getQueuePosition. cbn zeta.
    destruct (Forall2_lookup_l _ _ _ _ _ HQ Hk) as (r' & Hr' & Hir'). simplify_eq.
    assert (Hf : findIndex (λ r', bool_decide (req_id r' = req_id r))
                   (jsSort cmpRequest (filter (λ r, req_state r = queued) (requests s)))
                 = Some k).
    { unfold findIndex.
      erewrite (proj2 (list_find_Some _ _ k r)); [done|].
      split_and!; [done|by apply bool_decide_eq_true|].
      intros j b Hb Hj Hid. apply bool_decide_eq_true in Hid.
      destruct (Forall2_lookup_r _ _ _ _ _ HQ Hb) as (ij & Hij & Hbj).
      pose proof (Hsame _ _ Hbj Hid) as ->.
      pose proof (NoDup_lookup _ _ _ _ (NoDup_sortedQueue (requests s)) Hij Hk). lia. }
    by rewrite Hf. }
  split_and!; [done| |].
  - intros Hst. unfold getQueuePosition. cbn zeta.
    destruct (findIndex _ _) as [k|] eqn:Hf; [|done]. exfalso.
    unfold findIndex in Hf. apply fmap_Some in Hf as ([k' b] & Hf & ->).
    apply list_find_Some in Hf as (Hb & Hid & _). apply bool_decide_eq_true in Hid.
    destruct (Forall2_lookup_r _ _ _ _ _ HQ Hb) as (ij & Hij & Hbj).
    pose proof (Hsame _ _ Hbj Hid) as ->. simplify_eq.
    destruct (allQueued_sortedQueue s i) as (r' & Hr' & Hst');
      [by eapply list_elem_of_lookup_2|]. simplify_eq.
  - intros Hst.
    assert (Hin : i ∈ sortedQueue (requests s)).
    { apply elem_of_jsSort, elem_of_filterIdx. exists r. split; [done|].
      by apply bool_decide_eq_true. }
    apply list_elem_of_lookup_1 in Hin as [k Hk]. rewrite (Hpos k Hk).
    apply lookup_lt_Some in Hk. lia.
Qed.

Lemma queue_position_order_witness :
  ∃ r, requests priorityQueue !! 0%nat = Some r ∧
    (∀ k, sortedQueue (requests priorityQueue) !! k = Some 0%nat →
          getQueuePosition priorityQueue r = (Z.of_nat k + 1)%Z) ∧
    (req_state r ≠ queued → getQueuePosition priorityQueue r = 0%Z) ∧
    (req_state r = queued →
       (1 ≤ getQueuePosition priorityQueue r
        ≤ Z.of_nat (length (sortedQueue (requests priorityQueue))))%Z).
Proof.
  eexists. split; [vm_compute; reflexivity|].
  apply (queue_position_order zeroSin DEFAULT_CONFIG priorityQueueRun 0).
  vm_compute; reflexivity.
Defined.

(** ** The counters of finished requests *)

Lemma countRequest_frame st r :
  let st' := countRequest st r in
  (∃ m, st'.2 = set_metrics m st.2) ∧ setsGrow st.1 st'.1 ∧ allCounted st'.1 [r] ∧
  (allCounted st.1 [r] → st' = st).
Proof.
  destruct st as [v s]. unfold countRequest, setsGrow, allCounted. cbn zeta. simpl.
  assert (Hself : ∃ m, s = set_metrics m s) by (exists (metrics s); by destruct s).
  rewrite !Forall_singleton.
  repeat case_bool_decide; simpl; split_and!;
    try done; try (by eexists); try (intros; congruence);
    try (by left); try (intros x Hx; by right);
    try (intros (Ha & Hb & Hc); exfalso; tauto).
Qed.

Lemma setsGrow_trans v1 v2 v3 : setsGrow v1 v2 → setsGrow v2 v3 → setsGrow v1 v3.
Proof.
  intros (?&?&?) (?&?&?). split_and!; intros x Hx; eauto.
Qed.

Lemma allCounted_grow v v' rs : setsGrow v v' → allCounted v rs → allCounted v' rs.
Proof.
  intros (Hc & Hf & He) Hall. eapply Forall_impl; [exact Hall|]. intros r (?&?&?).
  split_and!; intros; [apply Hc|apply Hf|apply He]; auto.
Qed.

Lemma set_metrics_twice m m' s : set_metrics m (set_metrics m' s) = set_metrics m s.
Proof. by destruct s. Qed.

Lemma foldl_countRequest_frame rs st :
  let st' := foldl countRequest st rs in
  (∃ m, st'.2 = set_metrics m st.2) ∧ setsGrow st.1 st'.1 ∧ allCounted st'.1 rs ∧
  (allCounted st.1 rs → st' = st).
Proof.
  revert st. induction rs as [|r rs IH]; intros st; cbn zeta; cbn [foldl].
  { split_and!; [exists (metrics st.2); by destruct st as [? []]|done|constructor|done]. }
  destruct (countRequest_frame st r) as ((m1 & Hm1) & Hg1 & Hc1 & Hid1).
  destruct (IH (countRequest st r)) as ((m & Hm) & Hg & Hc & Hid).
  cbn zeta in *. split_and!.
  - exists m. by rewrite Hm, Hm1, set_metrics_twice.
  - by eapply setsGrow_trans.
  - pose proof (allCounted_grow _ _ _ Hg Hc1) as Hr. unfold allCounted in *.
    apply Forall_cons. split; [|done]. by apply Forall_cons in Hr as [Hr _].
  - intros Hall. unfold allCounted in Hall. apply Forall_cons in Hall as [Hr Hall].
    assert (E : countRequest st r = st) by (apply Hid1; constructor; [done|constructor]).
    rewrite E in *. by apply Hid.
Qed.

(** X24. What a frame does beyond advancing the engine: it changes nothing of
    the engine but the metrics; the sets of the renderer only grow;
    afterwards every request that is completed, failed or expired is in
    the set of its state; and when that was so already for the requests
    the step ends with, the frame counts nothing, so that a finished
    request whose identity is in the set is never counted. *)
Theorem frame_counts_finished Math_sin (deltaMs : Q) (v : Renderer) (s : Simulation) :
  let s1 := tick Math_sin deltaMs s in
  let st' := render Math_sin deltaMs (v, s) in
  (∃ m, st'.2 = set_metrics m s1) ∧
  setsGrow v st'.1 ∧
  allCounted st'.1 (requests st'.2) ∧
  (allCounted v (requests s1) → st' = (v, s1)).
Proof.
  intros s1 st'.
  destruct (foldl_countRequest_frame (requests s1) (v, s1)) as ((m & Hm) & Hg & Hc & Hid).
  cbn zeta in *. fold s1 in st'. change (foldl countRequest (v, s1) (requests s1)) with st' in *.
  split_and!; [by exists m|done| |done].
  rewrite Hm. by destruct s1.
Qed.

(** ** The counters over a session *)

Lemma same_id_same_request (rs : list Request) (r r' : Request) :
  NoDup (req_id <$> rs) → r ∈ rs → r' ∈ rs → req_id r = req_id r' → r = r'.
Proof.
  intros Hnd Hr Hr' Hid.
  apply list_elem_of_lookup_1 in Hr as [i Hi]. apply list_elem_of_lookup_1 in Hr' as [j Hj].
  assert (i = j); [|by simplify_eq].
  eapply NoDup_lookup; [exact Hnd| |]; rewrite list_lookup_fmap.
  - by rewrite Hi.
  - by rewrite Hj, Hid.
Qed.

Lemma test_and_not_false (P Q : Prop) `{!Decision P, !Decision Q} :
  ¬ (P ∧ ¬ Q) → bool_decide P && negb (bool_decide Q) = false.
Proof. intros H. repeat case_bool_decide; simpl; try done. by destruct H. Qed.

Lemma countRequest_tallyInv n rs st r :
  NoDup (req_id <$> rs) → Forall (λ r, (req_id r < n)%nat) rs → r ∈ rs →
  tallyInv n rs st.1 (metrics st.2) →
  tallyInv n rs (countRequest st r).1 (metrics (countRequest st r).2).
Proof.
  intros Hnd Hlt Hr HI. pose proof HI as (Hc & Hf & He & Hdup & Hn & Hst).
  pose proof (proj1 (Forall_forall _ _) Hlt r Hr) as Hrn. cbv beta in Hrn.
  pose proof (proj1 (Forall_forall _ _) Hst r Hr) as (Hrc & Hrf & Hre).
  destruct st as [v s]. unfold countRequest. cbn zeta. cbn [fst snd] in *.
  unfold countedIds in *.
  assert (Hfresh : ∀ st0, req_state r = st0 →
            (st0 ≠ completed → req_id r ∉ prevCompletedIds v) ∧
            (st0 ≠ failed → req_id r ∉ prevFailedIds v) ∧
            (st0 ≠ expired → req_id r ∉ prevExpiredIds v)).
  { intros st0 E. split_and!; intros Hne Hin; apply Hne; rewrite <- E; auto. }
  assert (Hkeep : ∀ (pc pf pe : list nat),
            (∀ r', r' ∈ rs → req_id r' ∈ pc → req_state r' = completed) →
            (∀ r', r' ∈ rs → req_id r' ∈ pf → req_state r' = failed) →
            (∀ r', r' ∈ rs → req_id r' ∈ pe → req_state r' = expired) →
            Forall (λ r, (req_id r ∈ pc → req_state r = completed) ∧
                         (req_id r ∈ pf → req_state r = failed) ∧
                         (req_id r ∈ pe → req_state r = expired)) rs).
  { intros pc pf pe H1 H2 H3. apply Forall_forall. intros r' Hr'. split_and!; eauto. }
  assert (Hold : ∀ r', r' ∈ rs →
            (req_id r' ∈ prevCompletedIds v → req_state r' = completed) ∧
            (req_id r' ∈ prevFailedIds v → req_state r' = failed) ∧
            (req_id r' ∈ prevExpiredIds v → req_state r' = expired)).
  { intros r' Hr'. exact (proj1 (Forall_forall _ _) Hst r' Hr'). }
  assert (Hnew : ∀ r' l st0, r' ∈ rs → req_state r = st0 →
            (req_id r' ∈ l → req_state r' = st0) →
            req_id r' ∈ req_id r :: l → req_state r' = st0).
  { intros r' l st0 Hr' E Hl Hin. apply elem_of_cons in Hin as [Hid|Hin]; [|auto].
    by rewrite (same_id_same_request rs r' r Hnd Hr' Hr Hid). }
  destruct (decide (req_state r = completed ∧ req_id r ∉ prevCompletedIds v))
    as [[Hs Hin]|Hno1].
  { rewrite (bool_decide_eq_true_2 _ Hs), (bool_decide_eq_false_2 _ Hin). simpl.
    destruct (Hfresh completed) as (_ & Hnf & Hne); [done|].
    unfold tallyInv, countedIds; split_and!; simpl; [by rewrite Hc|done|done| | |].
    + apply NoDup_cons. split; [|done].
      rewrite !not_elem_of_app. split_and!; [done|by apply Hnf|by apply Hne].
    + by constructor.
    + apply Hkeep; intros r' Hr'; destruct (Hold r' Hr') as (?&?&?); eauto. }
  assert (E1 : bool_decide (req_state r = completed)
               && negb (bool_decide (req_id r ∈ prevCompletedIds v)) = false).
  { by apply test_and_not_false. }
  rewrite E1.
  destruct (decide (req_state r = failed ∧ req_id r ∉ prevFailedIds v))
    as [[Hs Hin]|Hno2].
  { rewrite (bool_decide_eq_true_2 _ Hs), (bool_decide_eq_false_2 _ Hin). simpl.
    destruct (Hfresh failed) as (Hnc & _ & Hne); [done|].
    unfold tallyInv, countedIds; split_and!; simpl; [done|by rewrite Hf|done| | |].
    + rewrite <- Permutation_middle. apply NoDup_cons. split; [|done].
      rewrite !not_elem_of_app. split_and!; [by apply Hnc|done|by apply Hne].
    + rewrite <- Permutation_middle. by constructor.
    + apply Hkeep; intros r' Hr'; destruct (Hold r' Hr') as (?&?&?); eauto. }
  assert (E2 : bool_decide (req_state r = failed)
               && negb (bool_decide (req_id r ∈ prevFailedIds v)) = false).
  { by apply test_and_not_false. }
  rewrite E2.
  destruct (decide (req_state r = expired ∧ req_id r ∉ prevExpiredIds v))
    as [[Hs Hin]|Hno3].
  { rewrite (bool_decide_eq_true_2 _ Hs), (bool_decide_eq_false_2 _ Hin). simpl.
    destruct (Hfresh expired) as (Hnc & Hnf & _); [done|].
    unfold tallyInv, countedIds; split_and!; simpl; [done|done|by rewrite He| | |].
    + rewrite app_assoc, <- Permutation_middle, <- app_assoc.
      apply NoDup_cons. split; [|done].
      rewrite !not_elem_of_app. split_and!; [by apply Hnc|by apply Hnf|done].
    + rewrite app_assoc, <- Permutation_middle, <- app_assoc. by constructor.
    + apply Hkeep; intros r' Hr'; destruct (Hold r' Hr') as (?&?&?); eauto. }
  assert (E3 : bool_decide (req_state r = expired)
               && negb (bool_decide (req_id r ∈ prevExpiredIds v)) = false).
  { by apply test_and_not_false. }
  rewrite E3. exact HI.
Qed.

Lemma countRequest_noFailed st r :
  liveState r → prevFailedIds st.1 = [] → prevFailedIds (countRequest st r).1 = [].
Proof.
  intros [Hf _] Hnil. destruct st as [v s]. unfold countRequest. cbn zeta.
  rewrite (bool_decide_eq_false_2 _ Hf). simpl.
  repeat case_match; done.
Qed.

Lemma foldl_countRequest_tallyInv n rs0 rs st :
  NoDup (req_id <$> rs0) → Forall (λ r, (req_id r < n)%nat) rs0 →
  Forall liveState rs0 → rs ⊆ rs0 →
  prevFailedIds st.1 = [] ∧ tallyInv n rs0 st.1 (metrics st.2) →
  let st' := foldl countRequest st rs in
  prevFailedIds st'.1 = [] ∧ tallyInv n rs0 st'.1 (metrics st'.2).
Proof.
  intros Hnd Hlt Hlive. revert st.
  induction rs as [|r rs IH]; intros st Hsub [Hnil HI]; cbn zeta; cbn [foldl]; [done|].
  assert (Hr : r ∈ rs0) by (apply Hsub; by left).
  apply IH.
  - intros x Hx. apply Hsub. by right.
  - split.
    + apply countRequest_noFailed; [|done]. by eapply Forall_forall in Hlive.
    + by apply countRequest_tallyInv.
Qed.

Lemma tick_tallyInv Math_sin deltaMs v s :
  tallyInv (nextId s) (requests s) v (metrics s) →
  let s1 := tick Math_sin deltaMs s in
  tallyInv (nextId s1) (requests s1) v (metrics s1).
Proof.
  intros HI. cbn zeta. rewrite tick_unfold. destruct (paused s); [done|].
  set (s0 := set_tick _ s).
  assert (H0 : tallyInv (nextId s0) (requests s0) v (metrics s0)) by done.
  clearbody s0. clear HI.
  destruct H0 as (Hc & Hf & He & Hdup & Hn & Hst).
  destruct (afterClock_metrics Math_sin s0) as (_ & _ & _ & _ & Hmc & Hmf & Hme).
  destruct (afterClock_fields Math_sin s0) as (_ & _ & _ & _ & Hnext).
  cbn zeta in *. unfold tallyInv. rewrite Hmc, Hmf, Hme, Hnext.
  split_and!; try done.
  apply Forall_lookup_2. intros k r' Hk.
  apply evolves_lookup in Hk as (i & r & Hr & Hev).
  pose proof (evolves_req_id _ _ _ _ _ Hev) as Hid.
  pose proof (evolves_state _ _ _ _ _ Hev) as Hmay.
  apply (Forall_lookup_1 _ _ _ _ Hst) in Hr as (H1 & H2 & H3).
  rewrite Hid. split_and!; intros Hin.
  - rewrite (H1 Hin) in Hmay. by destruct (req_state r').
  - rewrite (H2 Hin) in Hmay. by destruct (req_state r').
  - rewrite (H3 Hin) in Hmay. by destruct (req_state r').
Qed.

Lemma render_sessionInv Math_sin deltaMs st :
  sessionInv st → sessionInv (render Math_sin deltaMs st).
Proof.
  intros (Hid & Hlive & Hnil & HI). destruct st as [v s]. cbn [fst snd] in *.
  unfold render. cbn [fst snd].
  pose proof (apply_idInv Math_sin (Tick deltaMs) s Hid) as Hid1.
  pose proof (apply_liveState Math_sin (Tick deltaMs) s Hlive) as Hlive1.
  pose proof (tick_tallyInv Math_sin deltaMs v s HI) as HI1.
  cbn [apply] in Hid1, Hlive1. cbn zeta in HI1.
  set (s1 := tick Math_sin deltaMs s) in *. clearbody s1.
  destruct (foldl_countRequest_frame (requests s1) (v, s1)) as ((m & Hm) & _).
  destruct (foldl_countRequest_tallyInv (nextId s1) (requests s1) (requests s1) (v, s1))
    as [Hnil' HI']; [by destruct Hid1|by destruct Hid1|done|done|done|].
  cbn zeta in *. cbn [fst snd] in *.
  set (st' := foldl countRequest (v, s1) (requests s1)) in *. clearbody st'.
  destruct st' as [v' s']. cbn [fst snd] in *. subst s'.
  assert (Hq : requests (set_metrics m s1) = requests s1) by by destruct s1.
  assert (Hx : nextId (set_metrics m s1) = nextId s1) by by destruct s1.
  unfold sessionInv, idInv. cbn [fst snd]. rewrite Hq, Hx. done.
Qed.

Lemma control_sessionInv Math_sin o st :
  controlCall (Control o) → sessionInv st →
  sessionInv (st.1, apply Math_sin o st.2).
Proof.
  intros Hc (Hid & Hlive & Hnil & HI). destruct st as [v s]. cbn [fst snd] in *.
  split_and!; cbn [fst snd];
    [by apply apply_idInv|by apply apply_liveState|done|].
  destruct o; try done. cbn [apply]. unfold addRequest. fsimpl.
  destruct HI as (Hmc & Hmf & Hme & Hdup & Hn & Hst).
  split_and!; try done.
  - eapply Forall_impl; [exact Hn|]. simpl. intros. lia.
  - apply Forall_app. split; [done|]. apply Forall_singleton. simpl.
    assert (Hfresh : nextId s ∉ countedIds v).
    { intros Hin. apply (proj1 (Forall_forall _ _) Hn) in Hin. lia. }
    unfold countedIds in Hfresh. rewrite !not_elem_of_app in Hfresh.
    destruct Hfresh as (?&?&?). split_and!; intros; done.
Qed.

Lemma NoDup_below_length (l : list nat) (n : nat) :
  NoDup l → Forall (λ i, (i < n)%nat) l → (length l ≤ n)%nat.
Proof.
  intros Hnd Hlt. transitivity (length (seq 0 n)); [|by rewrite length_seq].
  apply submseteq_length.
  apply NoDup_submseteq; [done|]. intros i Hi.
  apply (proj1 (Forall_forall _ _) Hlt) in Hi. apply elem_of_seq. lia.
Qed.

(** X25. Over a session that starts with a fresh engine and a fresh renderer
    and has no reset, every finished request is counted once: the
    counters [completed], [failed] and [expired] are the sizes of the
    three sets of the renderer, no identity is in a set twice or in two
    sets, every counted identity was handed out by [addRequest], so that
    the three counters together never exceed the number of requests
    created, and a counted request that is still shown is in the state
    it was counted in. The counter [failed] stays 0. *)
Theorem finished_counted_once Math_sin (cfg : SimulationConfig) (events : list Event) :
  Forall controlCall events →
  let st := session Math_sin events (mkRenderer [] [] [], newSimulation cfg) in
  let v := st.1 in
  let s := st.2 in
  m_completed (metrics s) = length (prevCompletedIds v) ∧
  m_expired (metrics s) = length (prevExpiredIds v) ∧
  m_failed (metrics s) = 0%nat ∧ prevFailedIds v = [] ∧
  NoDup (countedIds v) ∧
  Forall (λ id, (id < nextId s)%nat) (countedIds v) ∧
  (m_completed (metrics s) + m_failed (metrics s) + m_expired (metrics s) ≤ nextId s)%nat ∧
  Forall (λ r, (req_id r ∈ prevCompletedIds v → req_state r = completed) ∧
               (req_id r ∈ prevExpiredIds v → req_state r = expired)) (requests s).
Proof.
  intros Hev st.
  assert (HI : sessionInv st).
  { subst st. unfold session.
    assert (H0 : sessionInv (mkRenderer [] [] [], newSimulation cfg)).
    { unfold sessionInv, idInv, tallyInv, countedIds, newSimulation.
      case_match; cbn [fst snd]; simpl; split_and!; try done; constructor. }
    revert H0. generalize (mkRenderer [] [] [], newSimulation cfg).
    induction Hev as [|e events He _ IH]; intros st0 H0; cbn [foldl]; [done|].
    apply IH. destruct e as [d|o]; cbn [handle].
    - by apply render_sessionInv.
    - by apply control_sessionInv. }
  clearbody st. destruct HI as (_ & _ & Hnil & Hmc & Hmf & Hme & Hdup & Hn & Hst).
  cbn zeta. rewrite Hnil in Hmf. split_and!; try done.
  - pose proof (NoDup_below_length _ _ Hdup Hn) as Hlen.
    unfold countedIds in Hlen. rewrite !length_app, Hnil in Hlen.
    rewrite Hmc, Hmf, Hme. simpl in *. lia.
  - eapply Forall_impl; [exact Hst|]. intros r (?&?&?). done.
Qed.

Lemma finished_counted_once_witness :
  let events :=
    [Control (SetConfig noReplicas); Control (AddRequest 1)] ++ replicate 40 (Frame 5000) in
  let st := session zeroSin events (mkRenderer [] [] [], newSimulation DEFAULT_CONFIG) in
  Forall controlCall events ∧
  m_completed (metrics st.2) = length (prevCompletedIds st.1) ∧
  m_expired (metrics st.2) = length (prevExpiredIds st.1) ∧
  m_failed (metrics st.2) = 0%nat ∧ prevFailedIds st.1 = [] ∧
  NoDup (countedIds st.1) ∧
  Forall (λ id, (id < nextId st.2)%nat) (countedIds st.1) ∧
  (m_completed (metrics st.2) + m_failed (metrics st.2) + m_expired (metrics st.2)
   ≤ nextId st.2)%nat ∧
  Forall (λ r, (req_id r ∈ prevCompletedIds st.1 → req_state r = completed) ∧
               (req_id r ∈ prevExpiredIds st.1 → req_state r = expired)) (requests st.2).
Proof.
  intros events st. split; [repeat constructor|].
  apply (finished_counted_once zeroSin DEFAULT_CONFIG events). repeat constructor.
Defined.

(** ** The time a request holds its slot *)

Lemma updated_processing Math_sin now cfg r r2 t :
  updated Math_sin now cfg r r2 →
  req_state r = processing → processStartedAt r = Some t →
  req_id r2 = req_id r ∧ processStartedAt r2 = Some t ∧
  assignedReplica r2 = assignedReplica r ∧
  req_state r2 = if Qltb (modelProcessingTimeMs cfg) (now - t) then delivering else processing.
Proof.
  intros (rA & claims & HeA & He2) Hst Ht.
  apply eqX_fields in HeA as (HidA & HstA & _ & _ & _ & _ & HtA & _ & HaA & _).
  apply eqX_fields in He2 as (Hid2 & Hst2 & _ & _ & _ & _ & Ht2 & _ & Ha2 & _).
  rewrite Hid2, Hst2, Ht2, Ha2. clear Hid2 Hst2 Ht2 Ha2.
  rewrite Hst in HstA. rewrite Ht in HtA.
  unfold ownUpdate. rewrite HstA. cbn zeta.
  change (processStartedAt (lerpX rA)) with (processStartedAt rA). rewrite HtA.
  change (orZero (Some t)) with t.
  destruct (Qltb _ _); fsimpl; unfold lerpX; fsimpl; rewrite ?HtA; done.
Qed.

(** X26. A request holds its slot until its processing time is over. In
    every state reached from a fresh engine, a step that is not paused
    keeps a processing request in the list; if, at the tick the step
    ends with, more than [modelProcessingTimeMs] have passed since
    [processStartedAt], the request ends the step delivering and no
    replica holds its identity any more; otherwise it is still
    processing and the replica it is assigned to still holds it. *)
Theorem processing_duration Math_sin (cfg : SimulationConfig) (ops : list Op)
    (deltaMs : Q) (i : nat) (r : Request) (t : Q) :
  let s := run Math_sin ops (newSimulation cfg) in
  let s' := tick Math_sin deltaMs s in
  paused s = false →
  requests s !! i = Some r → req_state r = processing → processStartedAt r = Some t →
  ∃ r', r' ∈ requests s' ∧ req_id r' = req_id r ∧ processStartedAt r' = Some t ∧
    if Qltb (modelProcessingTimeMs (config s)) (state_tick s' - t)
    then req_state r' = delivering ∧
         Forall (λ p, req_id r ∉ currentRequestIds p) (replicas s')
    else req_state r' = processing ∧
         ∃ p, p ∈ replicas s' ∧ assignedReplica r' = Some (rep_id p) ∧
              req_id r ∈ currentRequestIds p.
Proof.
  intros s s' Hp Hi Hst Ht.
  assert (HI : idInv s ∧ slotInv s).
  { apply (run_invariant Math_sin (λ s, idInv s ∧ slotInv s) (λ _, True)).
    - intros. by apply apply_slotInv.
    - by apply Forall_true.
    - unfold newSimulation. case_match; (split; [split; simpl; constructor|]);
        (split; [|done]); simpl;
        split_and!; try constructor; intros ??; rewrite lookup_nil; done. }
  apply (apply_slotInv Math_sin (Tick deltaMs)) in HI as [_ [HI' _]].
  cbn [apply] in HI'. fold s' in HI'.
  clearbody s. subst s'. revert HI'. rewrite tick_unfold, Hp.
  set (s0 := set_tick (num (state_tick s + deltaMs * speed s)) s).
  assert (Hq0 : requests s0 = requests s) by done.
  assert (Hc0 : config s0 = config s) by done.
  clearbody s0. rewrite <- Hq0 in Hi. rewrite <- Hc0. clear Hq0 Hc0 Hp s.
  intros (Hnd & _ & Hheld & Hproc & _).
  destruct (afterClock_fields Math_sin s0) as (_ & Hnow & _).
  destruct (afterClock_requests Math_sin s0) as (l2 & H2 & H6).
  destruct (Forall2_lookup_l _ _ _ _ _ H2 Hi) as (r2 & Hr2 & Hu).
  destruct (updated_processing _ _ _ _ _ t Hu Hst Ht) as (Hid2 & Ht2 & Ha2 & Hst2).
  assert (Hk2 : r2 ∈ filter (λ r, negb (bool_decide (req_state r = exiting))
                                  || Qltb 0.01 (alpha r) = true) l2).
  { apply list_elem_of_filter. split; [|by eapply list_elem_of_lookup_2].
    rewrite Hst2. by destruct (Qltb _ _). }
  apply list_elem_of_lookup_1 in Hk2 as [k Hk2].
  destruct (Forall2_lookup_l _ _ _ _ _ H6 Hk2) as (r' & Hr' & Ha).
  assert (He : eqX r2 r').
  { destruct Ha as [He|[(Hq & _)|(Hq & _)]]; [done| |];
      rewrite Hst2 in Hq; by destruct (Qltb _ _). }
  apply eqX_fields in He as (Hid' & Hst' & _ & _ & _ & _ & Ht' & _ & Ha' & _).
  set (sN := afterClock Math_sin s0) in *. clearbody sN.
  exists r'. split; [by eapply list_elem_of_lookup_2|].
  split; [congruence|]. split; [congruence|].
  rewrite Hnow. rewrite Hst2 in Hst'.
  destruct (Qltb (modelProcessingTimeMs (config s0)) (state_tick s0 - t)).
  - split; [done|]. apply Forall_lookup_2. intros j p Hj Hin.
    destruct (Hheld j p _ Hj Hin) as (i' & r'' & Hr'' & Hid'' & Hst'' & _).
    assert (i' = k); [|simplify_eq; congruence].
    eapply NoDup_lookup; [exact Hnd| |]; rewrite list_lookup_fmap.
    + by rewrite Hr''.
    + rewrite Hr'. simpl. congruence.
  - split; [done|]. destruct (Hproc k r' Hr' Hst') as (j & p & Hj & Hap & Hin).
    exists p. split; [by eapply list_elem_of_lookup_2|]. split; [done|]. congruence.
Qed.

Lemma processing_duration_witness :
  paused (coldStart zeroSin 64) = false ∧
  ∃ r t, requests (coldStart zeroSin 64) !! 0%nat = Some r ∧
         req_state r = processing ∧ processStartedAt r = Some t ∧
  ∃ r', r' ∈ requests (tick zeroSin 100 (coldStart zeroSin 64)) ∧
    req_id r' = req_id r ∧ processStartedAt r' = Some t ∧
    if Qltb (modelProcessingTimeMs (config (coldStart zeroSin 64)))
            (state_tick (tick zeroSin 100 (coldStart zeroSin 64)) - t)
    then req_state r' = delivering ∧
         Forall (λ p, req_id r ∉ currentRequestIds p)
                (replicas (tick zeroSin 100 (coldStart zeroSin 64)))
    else req_state r' = processing ∧
         ∃ p, p ∈ replicas (tick zeroSin 100 (coldStart zeroSin 64)) ∧
              assignedReplica r' = Some (rep_id p) ∧
              req_id r ∈ currentRequestIds p.
Proof.
  split; [vm_compute; reflexivity|]. eexists _, _.
  split; [vm_compute; reflexivity|]. split; [reflexivity|]. split; [reflexivity|].
  apply (processing_duration zeroSin DEFAULT_CONFIG
           (AddRequest 1 :: replicate 64 (Tick 100)) 100 0);
    [vm_compute; reflexivity | vm_compute; reflexivity | reflexivity | reflexivity].
Defined.
